(** * A shallow embedding of the matching core of the stock-exchange demo

    The development follows the TypeScript sources:
    - [core/types.ts]          : [Side], [Order], [Event]
    - [core/dll.ts]            : [ListNode], [DoublyLinkedList]
    - [core/orderBook.ts]      : [OrderBook]
    - [infra/wal.ts]           : [WAL]
    - [infra/eventBus.ts]      : [EventBus]
    - [core/matchingEngine.ts] : [MatchingEngine] (the version whose
      [process] takes a mode)
    - [views/openOrdersView.ts], [views/tradesView.ts], [views/views.ts] :
      [OpenOrdersView] (the version with [apply]), [TradesView],
      [createViews] and its projector loop
    - [generator/utils.ts], [generator/orderGenerator.ts] : [Generator]
    - [composition.ts]         : [composeApp], up to the bootstrap of the views

    JavaScript objects that are mutated through several references
    ([Order] and [ListNode] instances) live in an explicit store and are
    addressed by references; a JavaScript [number] is modelled by [Z]
    (prices, quantities and sizes are integer valued in this program, and
    integers are exact in a double below 2^53). *)

From stdpp Require Import gmap strings list fin_maps sorting pretty.
From Stdlib Require Import ZArith Lia.

Local Open Scope Z_scope.

(** ** core/types.ts *)

Inductive Side := BUY | SELL.

#[global] Instance Side_eq_dec : EqDecision Side.
Proof. solve_decision. Defined.

(** A reference to an [Order] object, resp. to a [ListNode] object. *)
Abbreviation oref := positive.
Abbreviation nref := positive.

Module Order.
Record t := mk {
  id : string;
  side : Side;
  price : Z;
  qty : Z;
  ts : Z;
  symbol : option string
}.

(** [order.qty -= q] *)
Definition sub_qty (q : Z) (o : t) : t :=
  {| id := id o; side := side o; price := price o;
     qty := qty o - q; ts := ts o; symbol := symbol o |}.

#[global] Instance inhabited : Inhabited t :=
  populate {| id := ""; side := BUY; price := 0; qty := 0; ts := 0; symbol := None |}.
End Order.

(** The event union.  The parameter [O] is what an event holds for its
    order: a reference ([oref]) for an event object in memory, an [Order.t]
    value for a record serialized to the log. *)
Inductive Event (O : Type) :=
| NEW_ORDER (order : O)
| CANCEL_ORDER (orderId : string)
| TRADE (buyId sellId : string) (qty price : Z).
Arguments NEW_ORDER {O} order.
Arguments CANCEL_ORDER {O} orderId.
Arguments TRADE {O} buyId sellId qty price.

(** ** core/dll.ts *)

Module ListNode.
Record t := mk {
  value : oref;
  prev : option nref;
  next : option nref
}.

(** [new ListNode(value)] *)
Definition new (v : oref) : t := {| value := v; prev := None; next := None |}.

(** [node.prev = p], [node.next = n] *)
Definition set_prev (p : option nref) (n : t) : t :=
  {| value := value n; prev := p; next := next n |}.
Definition set_next (x : option nref) (n : t) : t :=
  {| value := value n; prev := prev n; next := x |}.

#[global] Instance inhabited : Inhabited t := populate (new 1%positive).
End ListNode.

(** The part of the JavaScript heap that holds list nodes. *)
Abbreviation NodeHeap := (gmap positive ListNode.t).

Module DoublyLinkedList.
Record t := mk {
  head : option nref;
  tail : option nref;
  _size : Z
}.

(** [new DoublyLinkedList()] *)
Definition new : t := {| head := None; tail := None; _size := 0 |}.

(** [append(value)]: the node is a freshly allocated object. *)
Definition append (h : NodeHeap) (this : t) (v : oref) : NodeHeap * t * nref :=
  let node := fresh (dom h) in
  let h := <[node := ListNode.new v]> h in
  match tail this with
  | None =>
      (h, {| head := Some node; tail := Some node; _size := _size this + 1 |}, node)
  | Some tl =>
      let h := alter (ListNode.set_prev (Some tl)) node h in
      let h := alter (ListNode.set_next (Some node)) tl h in
      (h, {| head := head this; tail := Some node; _size := _size this + 1 |}, node)
  end.

(** [remove(node)] *)
Definition remove (h : NodeHeap) (this : t) (node : nref) : NodeHeap * t :=
  let '(h, this) :=
    match ListNode.prev (h !!! node) with
    | Some p => (alter (ListNode.set_next (ListNode.next (h !!! node))) p h, this)
    | None => (h, {| head := ListNode.next (h !!! node); tail := tail this;
                     _size := _size this |})
    end in
  let '(h, this) :=
    match ListNode.next (h !!! node) with
    | Some n => (alter (ListNode.set_prev (ListNode.prev (h !!! node))) n h, this)
    | None => (h, {| head := head this; tail := ListNode.prev (h !!! node);
                     _size := _size this |})
    end in
  let h := alter (ListNode.set_prev None) node h in
  let h := alter (ListNode.set_next None) node h in
  (h, {| head := head this; tail := tail this; _size := _size this - 1 |}).

(** [peek()] *)
Definition peek (h : NodeHeap) (this : t) : option oref :=
  match head this with
  | Some n => Some (ListNode.value (h !!! n))
  | None => None
  end.

Definition isEmpty (this : t) : bool := _size this =? 0.

Definition size (this : t) : Z := _size this.
End DoublyLinkedList.

(** ** core/orderBook.ts *)

(** The store of shared mutable objects: [Order] objects and list nodes. *)
Record Store := mkStore {
  orders : gmap positive Order.t;
  nodes : gmap positive ListNode.t
}.

(** [Math.max(...xs)] and [Math.min(...xs)] on a non-empty argument list
    (both call sites are guarded by a [size === 0] test). *)
Definition Math_max (xs : list Z) : Z :=
  match xs with [] => 0 | x :: r => foldl Z.max x r end.
Definition Math_min (xs : list Z) : Z :=
  match xs with [] => 0 | x :: r => foldl Z.min x r end.

(** [m.keys()] *)
Definition keys {A} (m : gmap Z A) : list Z := (map_to_list m).*1.

Module OrderBook.
Record OrderRef := mkRef {
  order : oref;
  node : nref
}.

(** Each [DoublyLinkedList] object is referenced by exactly one entry of
    [buys] or [sells] (and, during a call, by the local [level]), so it is
    stored in place in the map. *)
Record t := mk {
  buys : gmap Z DoublyLinkedList.t;
  sells : gmap Z DoublyLinkedList.t;
  index : gmap string OrderRef
}.

Definition new : t := {| buys := ∅; sells := ∅; index := ∅ |}.

(** [order.side === "BUY" ? this.buys : this.sells], for reading and for
    writing back. *)
Definition side_book (s : Side) (this : t) : gmap Z DoublyLinkedList.t :=
  match s with BUY => buys this | SELL => sells this end.
Definition set_side_book (s : Side) (m : gmap Z DoublyLinkedList.t) (this : t) : t :=
  match s with
  | BUY => {| buys := m; sells := sells this; index := index this |}
  | SELL => {| buys := buys this; sells := m; index := index this |}
  end.
Definition set_index (i : gmap string OrderRef) (this : t) : t :=
  {| buys := buys this; sells := sells this; index := i |}.

(** [add(order)] *)
Definition add (σ : Store) (this : t) (o : oref) : Store * t :=
  let ord := orders σ !!! o in
  let book := side_book (Order.side ord) this in
  let level :=
    match book !! Order.price ord with
    | Some level => level
    | None => DoublyLinkedList.new
    end in
  let '(h, level, nd) := DoublyLinkedList.append (nodes σ) level o in
  let this := set_side_book (Order.side ord) (<[Order.price ord := level]> book) this in
  let this := set_index (<[Order.id ord := {| order := o; node := nd |}]> (index this)) this in
  ({| orders := orders σ; nodes := h |}, this).

(** [cancel(orderId)] *)
Definition cancel (σ : Store) (this : t) (orderId : string) : Store * t :=
  match index this !! orderId with
  | None => (σ, this)
  | Some ref =>
      let ord := orders σ !!! order ref in
      let book := side_book (Order.side ord) this in
      match book !! Order.price ord with
      | None => (σ, this)
      | Some level =>
          let '(h, level) := DoublyLinkedList.remove (nodes σ) level (node ref) in
          let this := set_index (delete orderId (index this)) this in
          let book :=
            if DoublyLinkedList.isEmpty level
            then delete (Order.price ord) book
            else <[Order.price ord := level]> book in
          ({| orders := orders σ; nodes := h |},
           set_side_book (Order.side ord) book this)
      end
  end.

(** [bestBuy()] *)
Definition bestBuy (σ : Store) (this : t) : option oref :=
  if decide (size (buys this) = 0%nat) then None
  else
    let price := Math_max (keys (buys this)) in
    match buys this !! price with
    | Some level => DoublyLinkedList.peek (nodes σ) level
    | None => None
    end.

(** [bestSell()] *)
Definition bestSell (σ : Store) (this : t) : option oref :=
  if decide (size (sells this) = 0%nat) then None
  else
    let price := Math_min (keys (sells this)) in
    match sells this !! price with
    | Some level => DoublyLinkedList.peek (nodes σ) level
    | None => None
    end.
End OrderBook.

(** ** infra/wal.ts *)

(** [JSON.stringify(event)]: the record written to the log holds the fields
    the order object has at the moment of the call. *)
Definition serialize (σ : Store) (e : Event oref) : Event Order.t :=
  match e with
  | NEW_ORDER o => NEW_ORDER (orders σ !!! o)
  | CANCEL_ORDER i => CANCEL_ORDER i
  | TRADE b s q p => TRADE b s q p
  end.

Module WAL.
(** The log file: one serialized record per line, in append order. *)
Definition t := list (Event Order.t).

Definition append (σ : Store) (e : Event oref) (log : t) : t :=
  log ++ [serialize σ e].

Definition replay (log : t) : list (Event Order.t) := log.

Definition size (log : t) : nat := length log.
End WAL.

(** ** infra/eventBus.ts *)

Module EventBus.
(** The queue holds the event objects themselves (references). *)
Definition t := list (Event oref).

Definition publish (e : Event oref) (queue : t) : t := queue ++ [e].

(** [drain(max)] returns the drained events and the remaining queue. *)
Definition drain (max : Z) (queue : t) : list (Event oref) * t :=
  if max <=? 0 then ([], queue)
  else (take (Z.to_nat max) queue, drop (Z.to_nat max) queue).

Definition size (queue : t) : nat := length queue.
End EventBus.

(** ** core/matchingEngine.ts *)

Inductive ProcessMode := live | replay.

Record Options := mkOptions { mode : option ProcessMode }.

(** The calls the engine makes on its collaborators and the updates it
    makes to order objects, in program order.  [trace] is a history
    variable: it records them and decides nothing.  [BookAdd o ord] is the
    call [book.add(o)], with the fields [ord] the order object has at the
    call; [QtyUpdate o q] is [o.qty -= q]. *)
Inductive Effect :=
| WalAppend (e : Event Order.t)
| BusPublish (e : Event oref)
| BookAdd (o : oref) (ord : Order.t)
| BookCancel (orderId : string)
| QtyUpdate (o : oref) (q : Z).

Module MatchingEngine.
Record t := mk {
  store : Store;
  book : OrderBook.t;
  wal : WAL.t;
  eventBus : EventBus.t;
  trace : list Effect
}.

(** [new MatchingEngine({ wal, eventBus })] *)
Definition new (w : WAL.t) (q : EventBus.t) : t :=
  {| store := {| orders := ∅; nodes := ∅ |}; book := OrderBook.new;
     wal := w; eventBus := q; trace := [] |}.

(** [this.wal.append(e)] *)
Definition wal_append (e : Event oref) (this : t) : t :=
  {| store := store this; book := book this;
     wal := WAL.append (store this) e (wal this);
     eventBus := eventBus this;
     trace := trace this ++ [WalAppend (serialize (store this) e)] |}.

(** [this.eventBus.publish(e)] *)
Definition bus_publish (e : Event oref) (this : t) : t :=
  {| store := store this; book := book this; wal := wal this;
     eventBus := EventBus.publish e (eventBus this);
     trace := trace this ++ [BusPublish e] |}.

(** [this.book.add(o)] *)
Definition book_add (o : oref) (this : t) : t :=
  let '(σ, b) := OrderBook.add (store this) (book this) o in
  {| store := σ; book := b; wal := wal this; eventBus := eventBus this;
     trace := trace this ++ [BookAdd o (orders (store this) !!! o)] |}.

(** [this.book.cancel(orderId)] *)
Definition book_cancel (orderId : string) (this : t) : t :=
  let '(σ, b) := OrderBook.cancel (store this) (book this) orderId in
  {| store := σ; book := b; wal := wal this; eventBus := eventBus this;
     trace := trace this ++ [BookCancel orderId] |}.

(** [o.qty -= q] *)
Definition qty_sub (o : oref) (q : Z) (this : t) : t :=
  {| store := {| orders := alter (Order.sub_qty q) o (orders (store this));
                 nodes := nodes (store this) |};
     book := book this; wal := wal this; eventBus := eventBus this;
     trace := trace this ++ [QtyUpdate o q] |}.

(** [if (mode === "live") { this.wal.append(e); this.eventBus.publish(e); }] *)
Definition emit (m : ProcessMode) (e : Event oref) (this : t) : t :=
  match m with
  | live => bus_publish e (wal_append e this)
  | replay => this
  end.

Definition get (o : oref) (this : t) : Order.t := orders (store this) !!! o.

(** One turn of the [while (true)] loop of [match(mode)]: [None] is the
    [return], [Some] is the state at the end of the loop body. *)
Definition match_body (m : ProcessMode) (this : t) : option t :=
  match OrderBook.bestBuy (store this) (book this),
        OrderBook.bestSell (store this) (book this) with
  | Some buy, Some sell =>
      if Order.price (get buy this) <? Order.price (get sell this) then None
      else
        let qty := Z.min (Order.qty (get buy this)) (Order.qty (get sell this)) in
        let price := Order.price (get sell this) in
        let this := qty_sub buy qty this in
        let this := qty_sub sell qty this in
        let trade :=
          TRADE (Order.id (get buy this)) (Order.id (get sell this)) qty price in
        let this := emit m trade this in
        let this :=
          if Order.qty (get buy this) =? 0
          then book_cancel (Order.id (get buy this)) this else this in
        let this :=
          if Order.qty (get sell this) =? 0
          then book_cancel (Order.id (get sell this)) this else this in
        Some this
  | _, _ => None
  end.

(** [match(mode)]: the loop, run for at most [fuel] turns; [None] means the
    loop has not returned within [fuel] turns. *)
Fixpoint match_ (fuel : nat) (m : ProcessMode) (this : t) : option t :=
  match fuel with
  | O => None
  | S fuel =>
      match match_body m this with
      | None => Some this
      | Some this => match_ fuel m this
      end
  end.

(** [process(event, options = {})]: [options = None] is the call with the
    second argument left out. *)
Definition process (fuel : nat) (event : Event oref) (options : option Options)
    (this : t) : option t :=
  let options := default {| mode := None |} options in
  let m := default live (mode options) in
  match event with
  | NEW_ORDER o =>
      let this := emit m event this in
      let this := book_add o this in
      match_ fuel m this
  | CANCEL_ORDER orderId =>
      let this := emit m event this in
      Some (book_cancel orderId this)
  | TRADE _ _ _ _ => Some this
  end.
End MatchingEngine.

(** ** Callers of the engine *)

(** A caller builds the event object, and the order object it refers to,
    right before the call: [JSON.parse(line)] in [WAL.replay], an object
    literal in the order generator.  [load] allocates that order object. *)
Definition load (e : Event Order.t) (this : MatchingEngine.t)
    : Event oref * MatchingEngine.t :=
  match e with
  | NEW_ORDER o =>
      let σ := MatchingEngine.store this in
      let r := fresh (dom (orders σ)) in
      (NEW_ORDER r,
       {| MatchingEngine.store := {| orders := <[r := o]> (orders σ); nodes := nodes σ |};
          MatchingEngine.book := MatchingEngine.book this;
          MatchingEngine.wal := MatchingEngine.wal this;
          MatchingEngine.eventBus := MatchingEngine.eventBus this;
          MatchingEngine.trace := MatchingEngine.trace this |})
  | CANCEL_ORDER i => (CANCEL_ORDER i, this)
  | TRADE b s q p => (TRADE b s q p, this)
  end.

(** [engine.process(event, options)] on a freshly built event. *)
Definition submit (fuel : nat) (options : option Options) (e : Event Order.t)
    (this : MatchingEngine.t) : option MatchingEngine.t :=
  let '(ev, this) := load e this in
  MatchingEngine.process fuel ev options this.

(** [for (const event of events) engine.process(event, options)] *)
Fixpoint run (fuel : nat) (options : option Options) (events : list (Event Order.t))
    (this : MatchingEngine.t) : option MatchingEngine.t :=
  match events with
  | [] => Some this
  | e :: events =>
      match submit fuel options e this with
      | Some this => run fuel options events this
      | None => None
      end
  end.

(** ** The read models ([views/]) *)

(** A JavaScript [Map<string, V>]: the entries in insertion order.  [set] on
    a key that is present replaces the value and keeps the entry's place. *)
Module JsMap.
Definition t (V : Type) := list (string * V).

Fixpoint get {V} (k : string) (m : t V) : option V :=
  match m with
  | [] => None
  | (k', v) :: m => if decide (k' = k) then Some v else get k m
  end.

Fixpoint set {V} (k : string) (v : V) (m : t V) : t V :=
  match m with
  | [] => [(k, v)]
  | (k', v') :: m => if decide (k' = k) then (k, v) :: m else (k', v') :: set k v m
  end.

Definition delete {V} (k : string) (m : t V) : t V := filter (λ x, x.1 ≠ k) m.

Definition values {V} (m : t V) : list V := m.*2.

Definition size {V} (m : t V) : nat := length m.
End JsMap.

(** ** views/openOrdersView.ts *)

Record OpenOrdersFilters := mkFilters {
  f_id : option string;
  f_side : option Side;
  f_symbol : option string
}.

(** [if (s)] for an optional string: present and not empty. *)
Definition truthy (s : option string) : option string :=
  match s with
  | Some s => if decide (s = "") then None else Some s
  | None => None
  end.

(** [result.sort((a, b) => a.ts - b.ts)]: a stable sort by [ts]. *)
Fixpoint insert_by_ts (x : Order.t) (l : list Order.t) : list Order.t :=
  match l with
  | [] => [x]
  | y :: l' => if Order.ts y <=? Order.ts x then y :: insert_by_ts x l' else x :: l
  end.

Definition sort_by_ts (l : list Order.t) : list Order.t :=
  foldl (λ acc x, insert_by_ts x acc) [] l.

Module OpenOrdersView.
(** The view owns its [Order] objects (it stores and returns copies), so
    they are held by value. *)
Definition t := JsMap.t Order.t.

Definition new : t := [].

(** [order.qty = remainingQty] *)
Definition set_qty (q : Z) (o : Order.t) : Order.t :=
  {| Order.id := Order.id o; Order.side := Order.side o; Order.price := Order.price o;
     Order.qty := q; Order.ts := Order.ts o; Order.symbol := Order.symbol o |}.

Definition onNewOrder (order : Order.t) (this : t) : t :=
  JsMap.set (Order.id order) order this.

Definition onCancel (orderId : string) (this : t) : t := JsMap.delete orderId this.

Definition onFill (orderId : string) (remainingQty : Z) (this : t) : t :=
  match JsMap.get orderId this with
  | None => this
  | Some order =>
      if remainingQty <=? 0 then JsMap.delete orderId this
      else JsMap.set orderId (set_qty remainingQty order) this
  end.

(** The local [applyFillQty] of [apply]. *)
Definition applyFillQty (orderId : string) (fillQty : Z) (this : t) : t :=
  match JsMap.get orderId this with
  | None => this
  | Some order => onFill orderId (Order.qty order - fillQty) this
  end.

(** [apply(event)]: the event's order is read (copied) at the call. *)
Definition apply (event : Event Order.t) (this : t) : t :=
  match event with
  | NEW_ORDER order => onNewOrder order this
  | CANCEL_ORDER orderId => onCancel orderId this
  | TRADE buyId sellId qty _ => applyFillQty sellId qty (applyFillQty buyId qty this)
  end.

Definition applyAll (events : list (Event Order.t)) (this : t) : t :=
  foldl (λ this event, apply event this) this events.

(** [list(filters?)] *)
Definition list (filters : option OpenOrdersFilters) (this : t) : list Order.t :=
  let result := JsMap.values this in
  let result :=
    match filters ≫= f_side with
    | Some s => filter (λ o, Order.side o = s) result
    | None => result
    end in
  let result :=
    match truthy (filters ≫= f_symbol) with
    | Some s => filter (λ o, Order.symbol o = Some s) result
    | None => result
    end in
  let result :=
    match truthy (filters ≫= f_id) with
    | Some i => filter (λ o, Order.id o = i) result
    | None => result
    end in
  sort_by_ts result.

Definition get (orderId : string) (this : t) : option Order.t := JsMap.get orderId this.

Definition size (this : t) : nat := JsMap.size this.
End OpenOrdersView.

(** ** views/tradesView.ts *)

Module TradesView.
Definition t := list (Event Order.t).

Definition new : t := [].

Definition apply (event : Event Order.t) (this : t) : t :=
  match event with
  | TRADE _ _ _ _ => this ++ [event]
  | _ => this
  end.

Definition applyAll (events : list (Event Order.t)) (this : t) : t :=
  foldl (λ this event, apply event this) this events.

Definition list (this : t) : list (Event Order.t) := this.

Definition size (this : t) : nat := length this.
End TradesView.

(** ** views/views.ts *)

Record Views := mkViews {
  openOrdersView : OpenOrdersView.t;
  tradesView : TradesView.t
}.

(** [createViews({ initialEvents, ... })]: the two views after the
    bootstrap.  The events are given as they read at the call. *)
Definition createViews (initialEvents : list (Event Order.t)) : Views :=
  {| openOrdersView := OpenOrdersView.applyAll initialEvents OpenOrdersView.new;
     tradesView := TradesView.applyAll initialEvents TradesView.new |}.

Definition applyEvent (event : Event Order.t) (v : Views) : Views :=
  {| openOrdersView := OpenOrdersView.apply event (openOrdersView v);
     tradesView := TradesView.apply event (tradesView v) |}.

(** The callback of [setInterval] in [start()]: drain a batch and apply it.
    The drained events are objects of the store [σ]; an order is read when
    its event is applied. *)
Definition tick (σ : Store) (batchSize : Z) (s : EventBus.t * Views) : EventBus.t * Views :=
  let '(events, queue) := EventBus.drain batchSize s.1 in
  (queue, foldl (λ v event, applyEvent (serialize σ event) v) s.2 events).

(** ** The log file ([infra/wal.ts]) *)

(** A JavaScript string as its UTF-16 code units; [newline] is ["\n"]. *)
Abbreviation jsstring := (list N).
Definition newline : N := 10%N.

(** [s.split("\n")] *)
Fixpoint split_lines (s : jsstring) : list jsstring :=
  match s with
  | [] => [[]]
  | c :: s =>
      if decide (c = newline) then [] :: split_lines s
      else match split_lines s with
           | l :: ls => (c :: l) :: ls
           | [] => [[c]]
           end
  end.

(** White space and line terminators, which [trim()] removes. *)
Definition is_space (c : N) : bool :=
  bool_decide (c ∈ [9; 10; 11; 12; 13; 32; 160; 5760; 8192; 8193; 8194; 8195; 8196; 8197;
                    8198; 8199; 8200; 8201; 8202; 8232; 8233; 8239; 8287; 12288; 65279]%N).

(** [!content.trim()]: the content is empty once trimmed. *)
Definition blank (s : jsstring) : bool := forallb is_space s.

(** [.filter(Boolean)] on strings keeps the non-empty ones. *)
Definition non_empty (s : jsstring) : Prop := s ≠ [].

Module WALFile.
(** The file at [filePath]: [None] when it does not exist. *)
Definition t := option jsstring.

Section codec.
(** [JSON.stringify] and [JSON.parse] on events; [parse] returns [None]
    where [JSON.parse] throws. *)
Variable stringify : Event Order.t → jsstring.
Variable parse : jsstring → option (Event Order.t).

(** [appendFileSync(filePath, JSON.stringify(event) + "\n")] creates the
    file when it is missing. *)
Definition append (event : Event Order.t) (file : t) : t :=
  Some (default [] file ++ stringify event ++ [newline]).

(** [replay()]; [None] when a line does not parse. *)
Definition replay (file : t) : option (list (Event Order.t)) :=
  match file with
  | None => Some []
  | Some content =>
      if blank content then Some []
      else mapM parse (filter non_empty (split_lines content))
  end.

(** [size()] *)
Definition size (file : t) : nat :=
  match file with
  | None => 0%nat
  | Some content => length (filter non_empty (split_lines content))
  end.
End codec.
End WALFile.

(** ** The order generator ([generator/utils.ts], [generator/orderGenerator.ts]) *)

Module Generator.
(** [nextId(prefix)] with the module variable [seq] threaded: the id and the
    new value of [seq]. *)
Definition nextId (prefix : string) (seq : N) : string * N :=
  let seq := (seq + 1)%N in
  (prefix +:+ "-" +:+ pretty seq, seq).

(** ["BUY"] or ["SELL"], the string a [Side] is. *)
Definition side_string (s : Side) : string :=
  match s with BUY => "BUY" | SELL => "SELL" end.

Record GeneratorConfig := mkConfig {
  symbol : string;
  basePrice : Z;
  spread : Z
}.

(** What one run of the timer callback draws: the side, the results of the
    two [randomBetween] calls, and the clock. *)
Record Draw := mkDraw {
  side : Side;
  priceOffset : Z;
  quantity : Z;
  now : Z
}.

(** The event built by one run of the callback of [startOrderGenerator]. *)
Definition generate (config : GeneratorConfig) (d : Draw) (seq : N)
    : Event Order.t * N :=
  let price :=
    match side d with
    | BUY => basePrice config - priceOffset d
    | SELL => basePrice config + priceOffset d
    end in
  let '(id, seq) := nextId (side_string (side d)) seq in
  (NEW_ORDER {| Order.id := id; Order.side := side d; Order.price := price;
                Order.qty := quantity d; Order.ts := now d;
                Order.symbol := Some (symbol config) |}, seq).

(** The events of successive runs of the callback. *)
Fixpoint generate_all (config : GeneratorConfig) (ds : list Draw) (seq : N)
    : list (Event Order.t) :=
  match ds with
  | [] => []
  | d :: ds =>
      let '(e, seq) := generate config d seq in
      e :: generate_all config ds seq
  end.
End Generator.

(** ** The composition root ([composition.ts]) *)

(** The replay loop of [composeApp], keeping the event objects of [history].
    [wal.replay()] builds all these objects before the loop and [load] builds
    each one right before its [process] call; the engine allocates no order
    object, so the objects are the same either way. *)
Fixpoint run_objects (fuel : nat) (options : option Options)
    (events : list (Event Order.t)) (this : MatchingEngine.t)
    : option (MatchingEngine.t * list (Event oref)) :=
  match events with
  | [] => Some (this, [])
  | e :: events =>
      let '(ev, this) := load e this in
      match MatchingEngine.process fuel ev options this with
      | Some this =>
          match run_objects fuel options events this with
          | Some (this, objs) => Some (this, ev :: objs)
          | None => None
          end
      | None => None
      end
  end.

Record App := mkApp {
  engine : MatchingEngine.t;
  views : Views
}.

(** [composeApp()] up to the bootstrap of the views, on the log file's
    records: a fresh engine on this log and an empty channel, the replay
    loop over [history], then [createViews({ initialEvents: history, ... })],
    which reads the objects of [history] as they are after the loop. *)
Definition composeApp (fuel : nat) (log : WAL.t) : option App :=
  let history := WAL.replay log in
  match run_objects fuel (Some {| mode := Some replay |}) history (MatchingEngine.new log []) with
  | Some (engine, objs) =>
      Some {| engine := engine;
              views := createViews (serialize (MatchingEngine.store engine) <$> objs) |}
  | None => None
  end.

(** ** The list a [DoublyLinkedList] denotes *)

(** [walk h k cur] follows [next] pointers from [cur] for at most [k] nodes. *)
Fixpoint walk (h : NodeHeap) (k : nat) (cur : option nref) : list nref :=
  match k, cur with
  | S k, Some n => n :: walk h k (ListNode.next (h !!! n))
  | _, _ => []
  end.

(** The nodes of a list object, front to back. *)
Definition to_list (h : NodeHeap) (l : DoublyLinkedList.t) : list nref :=
  walk h (Z.to_nat (DoublyLinkedList._size l)) (DoublyLinkedList.head l).

(** [dll_seg h p ns q]: the nodes [ns] are chained in this order, the first
    one has [prev = p] and the last one has [next = q]. *)
Fixpoint dll_seg (h : NodeHeap) (p : option nref) (ns : list nref) (q : option nref)
    : Prop :=
  match ns with
  | [] => True
  | n :: ns' =>
      ∃ nd, h !! n = Some nd ∧ ListNode.prev nd = p ∧
            ListNode.next nd = from_option Some q (head ns') ∧
            dll_seg h (Some n) ns' q
  end.

(** [is_list h l ns]: the list object [l] is a well-formed doubly linked
    list whose nodes are [ns]. *)
Definition is_list (h : NodeHeap) (l : DoublyLinkedList.t) (ns : list nref) : Prop :=
  DoublyLinkedList.head l = head ns ∧
  DoublyLinkedList.tail l = last ns ∧
  DoublyLinkedList._size l = Z.of_nat (length ns) ∧
  NoDup ns ∧
  dll_seg h None ns None.

Section dll.
Implicit Types (h : gmap positive ListNode.t) (ns : list positive).

Lemma dll_seg_frame h h' p ns q :
  (∀ n, n ∈ ns → h' !! n = h !! n) → dll_seg h p ns q → dll_seg h' p ns q.
Proof.
  revert p. induction ns as [|n ns IH]; intros p Hfr; simpl; [done|].
  intros (nd & Hn & Hp & Hx & Hs). exists nd. split_and!; try done.
  - rewrite Hfr; [done|]. by left.
  - apply IH; [|done]. intros m Hm. apply Hfr. by right.
Qed.

Lemma dll_seg_lookup h p ns q n :
  dll_seg h p ns q → n ∈ ns → is_Some (h !! n).
Proof.
  revert p. induction ns as [|m ns IH]; intros p; simpl.
  - intros _ Hn. by apply elem_of_nil in Hn.
  - intros (nd & Hm & _ & _ & Hs) [->|Hn]%elem_of_cons; eauto.
Qed.

Lemma from_last_cons (p : option positive) n l :
  from_option Some p (last (n :: l)) = from_option Some (Some n) (last l).
Proof. rewrite last_cons. by destruct (last l). Qed.

Lemma dll_seg_app h p l1 l2 q :
  dll_seg h p (l1 ++ l2) q ↔
  dll_seg h p l1 (from_option Some q (head l2)) ∧
  dll_seg h (from_option Some p (last l1)) l2 q.
Proof.
  revert p. induction l1 as [|n l1 IH]; intros p.
  - simpl. naive_solver.
  - rewrite from_last_cons. simpl. setoid_rewrite IH.
    assert (from_option Some q (head (l1 ++ l2)) =
            from_option Some (from_option Some q (head l2)) (head l1)) as ->
      by by destruct l1.
    naive_solver.
Qed.

Lemma walk_dll_seg h p ns :
  dll_seg h p ns None → walk h (length ns) (head ns) = ns.
Proof.
  revert p. induction ns as [|n ns IH]; intros p; simpl; [done|].
  intros (nd & Hn & _ & Hx & Hs). f_equal.
  rewrite (lookup_total_correct _ _ _ Hn), Hx.
  destruct ns; simpl; [done|]. eapply (IH (Some n)). done.
Qed.

Lemma is_list_to_list h l ns : is_list h l ns → to_list h l = ns.
Proof.
  intros (Hh & _ & Hsz & _ & Hs). unfold to_list.
  rewrite Hsz, Nat2Z.id, Hh. by eapply walk_dll_seg.
Qed.

Lemma is_list_frame h h' l ns :
  (∀ n, n ∈ ns → h' !! n = h !! n) → is_list h l ns → is_list h' l ns.
Proof.
  intros Hfr (?&?&?&?&?). split_and!; try done. by eapply dll_seg_frame.
Qed.
Lemma dll_seg_set_last h p l a q q' :
  a ∉ l → dll_seg h p (l ++ [a]) q →
  dll_seg (alter (ListNode.set_next q') a h) p (l ++ [a]) q'.
Proof.
  intros Ha [Hs1 (nd & Hn & Hp & _ & _)]%dll_seg_app. simpl in *.
  apply dll_seg_app. simpl. split.
  - eapply dll_seg_frame; [|done]. intros m Hm.
    apply lookup_alter_ne. by intros ->.
  - exists (ListNode.set_next q' nd). by rewrite lookup_alter_eq, Hn.
Qed.

Lemma dll_seg_set_first h p b l q p' :
  b ∉ l → dll_seg h p (b :: l) q →
  dll_seg (alter (ListNode.set_prev p') b h) p' (b :: l) q.
Proof.
  intros Hb (nd & Hn & _ & Hx & Hs). simpl.
  exists (ListNode.set_prev p' nd). rewrite lookup_alter_eq, Hn. split_and!; try done.
  eapply dll_seg_frame; [|done]. intros m Hm.
  apply lookup_alter_ne. by intros ->.
Qed.

Lemma append_spec h l ns v h' l' n :
  is_list h l ns →
  DoublyLinkedList.append h l v = (h', l', n) →
  n = fresh (dom h) ∧ h !! n = None ∧
  is_list h' l' (ns ++ [n]) ∧
  ListNode.value <$> h' !! n = Some v ∧
  (∀ m, m ≠ n → ListNode.value <$> h' !! m = ListNode.value <$> h !! m) ∧
  (∀ m, m ≠ n → m ∉ ns → h' !! m = h !! m).
Proof.
  intros (Hh & Ht & Hsz & Hnd & Hs). unfold DoublyLinkedList.append.
  pose proof (is_fresh (dom h)) as Hfr%not_elem_of_dom.
  set (n0 := fresh (dom h)) in *.
  assert (n0 ∉ ns) as Hn0.
  { intros Hin. destruct (dll_seg_lookup _ _ _ _ _ Hs Hin) as [? ?]. congruence. }
  rewrite Ht. destruct (last ns) as [tl|] eqn:El.
  - apply last_Some in El as [ns0 ->]. intros [= <- <- <-].
    apply NoDup_app in Hnd as (Hnd0 & Hdisj & _).
    assert (tl ∉ ns0) as Htl by (intros ?; eapply Hdisj; [done|by left]).
    assert (tl ≠ n0) as Hne by (intros ->; apply Hn0, elem_of_app; right; by left).
    split_and!; try done.
    + split_and!; simpl.
      * rewrite Hh. by destruct ns0.
      * by rewrite last_snoc.
      * rewrite !length_app in *. simpl in *. lia.
      * apply NoDup_app. split_and!; [by apply NoDup_app; split_and!; [|
          |apply NoDup_singleton]|..|apply NoDup_singleton].
        intros x Hx [->|[]%elem_of_nil]%elem_of_cons. done.
      * apply dll_seg_app. simpl. rewrite last_snoc. simpl. split.
        -- apply (dll_seg_set_last _ _ _ _ None); [done|].
           eapply dll_seg_frame; [|done]. intros m Hm.
           rewrite lookup_alter_ne, lookup_insert_ne; [done|by intros <-..].
        -- eexists. rewrite lookup_alter_ne, lookup_alter_eq, lookup_insert_eq by done.
           simpl. done.
    + rewrite lookup_alter_ne, lookup_alter_eq, lookup_insert_eq by done. done.
    + intros m Hm. rewrite lookup_alter. case_decide as E.
      * subst m. rewrite lookup_alter_ne, lookup_insert_ne by done.
        by destruct (h !! tl).
      * rewrite lookup_alter_ne, lookup_insert_ne by done. done.
    + intros m Hm Hm'. rewrite !lookup_alter_ne, lookup_insert_ne; [done|done|done|].
      intros <-. apply Hm', elem_of_app. right. by left.
  - apply last_None in El as ->. intros [= <- <- <-].
    split_and!; try done.
    + split_and!; simpl; try done.
      * simpl in Hsz. lia.
      * apply NoDup_singleton.
      * eexists. rewrite lookup_insert_eq. done.
    + by rewrite lookup_insert_eq.
    + intros m Hm. by rewrite lookup_insert_ne.
    + intros m Hm _. by rewrite lookup_insert_ne.
Qed.

Lemma from_option_Some_None {A} (x : option A) : from_option Some None x = x.
Proof. by destruct x. Qed.

Lemma value_alter h (f : ListNode.t → ListNode.t) i m :
  (∀ x, ListNode.value (f x) = ListNode.value x) →
  ListNode.value <$> alter f i h !! m = ListNode.value <$> h !! m.
Proof.
  intros Hf. rewrite lookup_alter. case_decide; [subst|done].
  destruct (h !! m); simpl; [|done]. by rewrite Hf.
Qed.

Lemma remove_spec h l l1 n l2 h' l' :
  is_list h l (l1 ++ n :: l2) →
  DoublyLinkedList.remove h l n = (h', l') →
  is_list h' l' (l1 ++ l2) ∧
  (∀ m, ListNode.value <$> h' !! m = ListNode.value <$> h !! m) ∧
  (∀ m, m ∉ l1 ++ n :: l2 → h' !! m = h !! m).
Proof.
  intros (Hh & Ht & Hsz & Hnd & Hs).
  apply dll_seg_app in Hs as [Hs1 (nd & Hn & Hp & Hx & Hs2)].
  rewrite from_option_Some_None in Hp, Hx. simpl in Hs1.
  apply NoDup_app in Hnd as (Hnd1 & Hdisj & [Hn2 Hnd2]%NoDup_cons).
  assert (n ∉ l1) as Hn1 by (intros ?; eapply Hdisj; [done|by left]).
  assert (∀ m, m ∈ l1 → m ≠ n) as Hl1n by (by intros m ? ->).
  assert (∀ m, m ∈ l2 → m ≠ n) as Hl2n by (by intros m ? ->).
  assert (∀ m, m ∈ l1 → m ∉ l2) as Hl12.
  { intros m H1 H2. eapply Hdisj; [done|]. by right. }
  assert (∀ m, m ∉ l1 ++ n :: l2 → (m ∉ l1) ∧ m ≠ n ∧ (m ∉ l2)) as Hout.
  { intros m Hm. split_and!.
    - intros ?. apply Hm, elem_of_app. by left.
    - intros ->. apply Hm, elem_of_app. right. by left.
    - intros ?. apply Hm, elem_of_app. right. by right. }
  unfold DoublyLinkedList.remove.
  rewrite (lookup_total_correct _ _ _ Hn), Hp, Hx.
  destruct (last l1) as [a|] eqn:El1.
  - apply last_Some in El1 as [l1' ->].
    assert (a ∈ l1' ++ [a]) as Ha by (apply elem_of_app; right; by left).
    assert (a ≠ n) as Han by by apply Hl1n.
    apply NoDup_app in Hnd1 as (Hnd1' & Hdisj1 & _).
    assert (a ∉ l1') as Hal1 by (intros ?; eapply Hdisj1; [done|by left]).
    rewrite lookup_total_alter_ne by done.
    rewrite (lookup_total_correct _ _ _ Hn), Hx, Hp.
    destruct l2 as [|b l2']; simpl.
    + intros [= <- <-]. rewrite app_nil_r. split_and!.
      * split_and!; simpl.
        -- rewrite Hh. by destruct l1'.
        -- by rewrite last_snoc.
        -- rewrite !length_app in *. simpl in *. lia.
        -- apply NoDup_app. split_and!; [done|done|apply NoDup_singleton].
        -- eapply dll_seg_frame; cycle 1.
           { by apply (dll_seg_set_last h _ _ _ (Some n) None). }
           intros m Hm.
           by do 2 (rewrite lookup_alter_ne by (symmetry; by apply Hl1n)).
      * intros m. by rewrite !value_alter.
      * intros m (Hm1 & Hmn & _)%Hout.
        do 2 (rewrite lookup_alter_ne by done).
        rewrite lookup_alter_ne; [done|]. by intros ->.
    + apply NoDup_cons in Hnd2 as [Hb2 Hnd2].
      assert (b ≠ n) as Hbn by (apply Hl2n; by left).
      assert (a ≠ b) as Hab.
      { intros ->. eapply Hl12; [done|]. by left. }
      intros [= <- <-]. split_and!.
      * split_and!; simpl.
        -- rewrite Hh. by destruct l1'.
        -- rewrite Ht. by rewrite !last_app_cons, !last_cons_cons.
        -- rewrite !length_app in *. simpl in *. lia.
        -- apply NoDup_app. split_and!.
           ++ apply NoDup_app. split_and!; [done|done|apply NoDup_singleton].
           ++ done.
           ++ by apply NoDup_cons.
        -- apply dll_seg_app. rewrite last_snoc. simpl head. simpl from_option. split.
           ++ eapply dll_seg_frame; cycle 1.
              { by apply (dll_seg_set_last h _ _ _ (Some n) (Some b)). }
              intros m Hm.
              do 2 (rewrite lookup_alter_ne by (symmetry; by apply Hl1n)).
              rewrite lookup_alter_ne; [done|]. intros ->.
              eapply Hl12; [done|]. by left.
           ++ eapply dll_seg_frame; cycle 1.
              { apply (dll_seg_set_first (alter (ListNode.set_next (Some b)) a h)
                       (Some n) _ _ _ (Some a)); [done|].
                eapply (dll_seg_frame h); [|done].
                intros m Hm. rewrite lookup_alter_ne; [done|]. intros <-.
                eapply Hl12; [done|]. done. }
              intros m Hm.
              by do 2 (rewrite lookup_alter_ne by (symmetry; by apply Hl2n)).
      * intros m. by rewrite !value_alter.
      * intros m (Hm1 & Hmn & Hm2)%Hout.
        do 2 (rewrite lookup_alter_ne by done).
        rewrite lookup_alter_ne by (intros ->; apply Hm2; by left).
        rewrite lookup_alter_ne; [done|]. by intros ->.
  - apply last_None in El1 as ->. simpl in *.
    rewrite (lookup_total_correct _ _ _ Hn), Hx, Hp.
    destruct l2 as [|b l2']; simpl.
    + intros [= <- <-]. split_and!.
      * split_and!; simpl in *; try done; try lia; try apply NoDup_nil_2.
      * intros m. by rewrite !value_alter.
      * intros m (Hm1 & Hmn & _)%Hout.
        by do 2 (rewrite lookup_alter_ne by done).
    + apply NoDup_cons in Hnd2 as [Hb2 Hnd2].
      assert (b ≠ n) as Hbn by (apply Hl2n; by left).
      intros [= <- <-]. split_and!.
      * split_and!; simpl; try done.
        -- simpl in *. lia.
        -- by apply NoDup_cons.
        -- change (dll_seg
             (alter (ListNode.set_next None) n
                (alter (ListNode.set_prev None) n
                   (alter (ListNode.set_prev None) b h))) None (b :: l2') None).
           eapply dll_seg_frame; cycle 1.
           { by apply (dll_seg_set_first h (Some n) _ _ _ None). }
           intros m Hm.
           by do 2 (rewrite lookup_alter_ne by (symmetry; by apply Hl2n)).
      * intros m. by rewrite !value_alter.
      * intros m (Hm1 & Hmn & Hm2)%Hout.
        do 2 (rewrite lookup_alter_ne by done).
        rewrite lookup_alter_ne; [done|]. intros ->. apply Hm2. by left.
Qed.

End dll.

(** ** The structural invariant of the order book *)

(** The nodes queued at price [p] on side [s], front to back, and the
    orders they hold. *)
Definition level_nodes (σ : Store) (b : OrderBook.t) (s : Side) (p : Z) : list nref :=
  match OrderBook.side_book s b !! p with
  | Some l => to_list (nodes σ) l
  | None => []
  end.

Definition queue (σ : Store) (b : OrderBook.t) (s : Side) (p : Z) : list oref :=
  (λ n, ListNode.value (nodes σ !!! n)) <$> level_nodes σ b s p.

Record wf (σ : Store) (b : OrderBook.t) : Prop := {
  (** every price level is a well-formed list ... *)
  wf_level : ∀ s p l,
    OrderBook.side_book s b !! p = Some l →
    is_list (nodes σ) l (to_list (nodes σ) l);
  (** ... that is not empty; *)
  wf_nonempty : ∀ s p l,
    OrderBook.side_book s b !! p = Some l → to_list (nodes σ) l ≠ [];
  (** a queued node holds an order of that side and price, and the index
      entry of the order's id is this order and this node; *)
  wf_queued : ∀ s p n,
    n ∈ level_nodes σ b s p →
    ∃ nd o, nodes σ !! n = Some nd ∧
            orders σ !! ListNode.value nd = Some o ∧
            Order.side o = s ∧ Order.price o = p ∧
            OrderBook.index b !! Order.id o =
              Some {| OrderBook.order := ListNode.value nd; OrderBook.node := n |};
  (** an index entry is filed under its order's id, and its node is queued
      in the level of the order's side and price and holds the order. *)
  wf_indexed : ∀ i r,
    OrderBook.index b !! i = Some r →
    ∃ nd o, nodes σ !! OrderBook.node r = Some nd ∧
            ListNode.value nd = OrderBook.order r ∧
            orders σ !! OrderBook.order r = Some o ∧
            Order.id o = i ∧
            OrderBook.node r ∈ level_nodes σ b (Order.side o) (Order.price o)
}.

Section book_invariant.
Implicit Types (σ : Store) (b : OrderBook.t) (s : Side) (p : Z).

Lemma side_book_set s' s m b :
  OrderBook.side_book s' (OrderBook.set_side_book s m b) =
  if decide (s' = s) then m else OrderBook.side_book s' b.
Proof. by destruct s', s. Qed.

Lemma side_book_set_index s i b :
  OrderBook.side_book s (OrderBook.set_index i b) = OrderBook.side_book s b.
Proof. by destruct s. Qed.

Lemma index_set_side_book s m b :
  OrderBook.index (OrderBook.set_side_book s m b) = OrderBook.index b.
Proof. by destruct s. Qed.

Lemma wf_empty σ : wf σ OrderBook.new.
Proof.
  split.
  - intros [] p l; simpl; by rewrite lookup_empty.
  - intros [] p l; simpl; by rewrite lookup_empty.
  - intros [] p n; unfold level_nodes; simpl; rewrite lookup_empty;
      by intros ?%elem_of_nil.
  - intros i r. simpl. by rewrite lookup_empty.
Qed.

Lemma level_nodes_Some σ b s p n :
  n ∈ level_nodes σ b s p →
  ∃ l, OrderBook.side_book s b !! p = Some l ∧ n ∈ to_list (nodes σ) l.
Proof.
  unfold level_nodes. destruct (OrderBook.side_book s b !! p); [eauto|].
  by intros ?%elem_of_nil.
Qed.

Lemma level_nodes_is_list σ b s p l :
  wf σ b → OrderBook.side_book s b !! p = Some l →
  is_list (nodes σ) l (level_nodes σ b s p).
Proof. intros Hwf Hl. unfold level_nodes. rewrite Hl. by eapply wf_level. Qed.

(** A node is queued in one level only. *)
Lemma wf_disjoint σ b s1 p1 s2 p2 n :
  wf σ b → n ∈ level_nodes σ b s1 p1 → n ∈ level_nodes σ b s2 p2 →
  s1 = s2 ∧ p1 = p2.
Proof.
  intros Hwf H1 H2.
  destruct (wf_queued _ _ Hwf _ _ _ H1) as (nd1 & o1 & Hn1 & Ho1 & <- & <- & _).
  destruct (wf_queued _ _ Hwf _ _ _ H2) as (nd2 & o2 & Hn2 & Ho2 & <- & <- & _).
  by simplify_eq.
Qed.

Lemma level_nodes_NoDup σ b s p : wf σ b → NoDup (level_nodes σ b s p).
Proof.
  intros Hwf. unfold level_nodes.
  destruct (OrderBook.side_book s b !! p) as [l|] eqn:El; [|apply NoDup_nil_2].
  by destruct (wf_level _ _ Hwf _ _ _ El) as (_&_&_&?&_).
Qed.

(** A level whose nodes are left alone by a heap update denotes the same
    list afterwards. *)
Lemma level_frame σ b h' s p l :
  wf σ b → OrderBook.side_book s b !! p = Some l →
  (∀ n, n ∈ level_nodes σ b s p → h' !! n = nodes σ !! n) →
  is_list h' l (level_nodes σ b s p) ∧ to_list h' l = level_nodes σ b s p.
Proof.
  intros Hwf Hl Hfr.
  assert (is_list h' l (level_nodes σ b s p)) as Hil.
  { eapply is_list_frame; [done|]. by apply level_nodes_is_list. }
  split; [done|]. by apply is_list_to_list.
Qed.
(** The invariant, from an explicit description [Q] of the levels. *)
Lemma wf_intro σ b (Q : Side → Z → list nref) :
  (∀ s p l, OrderBook.side_book s b !! p = Some l →
            is_list (nodes σ) l (Q s p) ∧ Q s p ≠ []) →
  (∀ s p, OrderBook.side_book s b !! p = None → Q s p = []) →
  (∀ s p n, n ∈ Q s p →
     ∃ nd o, nodes σ !! n = Some nd ∧
             orders σ !! ListNode.value nd = Some o ∧
             Order.side o = s ∧ Order.price o = p ∧
             OrderBook.index b !! Order.id o =
               Some {| OrderBook.order := ListNode.value nd; OrderBook.node := n |}) →
  (∀ i r, OrderBook.index b !! i = Some r →
     ∃ nd o, nodes σ !! OrderBook.node r = Some nd ∧
             ListNode.value nd = OrderBook.order r ∧
             orders σ !! OrderBook.order r = Some o ∧
             Order.id o = i ∧
             OrderBook.node r ∈ Q (Order.side o) (Order.price o)) →
  wf σ b ∧ ∀ s p, level_nodes σ b s p = Q s p.
Proof.
  intros H1 H2 H3 H4.
  assert (∀ s p, level_nodes σ b s p = Q s p) as HQ.
  { intros s p. unfold level_nodes.
    destruct (OrderBook.side_book s b !! p) as [l|] eqn:El.
    - apply is_list_to_list. by apply H1.
    - symmetry. by apply H2. }
  split; [|done]. split.
  - intros s p l Hl. destruct (H1 _ _ _ Hl) as [Hil _].
    by rewrite (is_list_to_list _ _ _ Hil).
  - intros s p l Hl. destruct (H1 _ _ _ Hl) as [Hil Hne].
    by rewrite (is_list_to_list _ _ _ Hil).
  - intros s p n. rewrite HQ. apply H3.
  - intros i r Hr. destruct (H4 _ _ Hr) as (nd & o & ?). exists nd, o.
    by rewrite HQ.
Qed.

Lemma value_lookup (h h' : gmap positive ListNode.t) n nd :
  ListNode.value <$> h' !! n = ListNode.value <$> h !! n →
  h !! n = Some nd →
  ∃ nd', h' !! n = Some nd' ∧ ListNode.value nd' = ListNode.value nd.
Proof.
  intros Hv Hn. rewrite Hn in Hv. destruct (h' !! n) as [nd'|]; [|done].
  exists nd'. split; [done|]. by injection Hv.
Qed.

Lemma add_spec σ b o ord σ' b' (n := fresh (dom (nodes σ))) :
  wf σ b →
  orders σ !! o = Some ord →
  OrderBook.index b !! Order.id ord = None →
  OrderBook.add σ b o = (σ', b') →
  wf σ' b' ∧
  orders σ' = orders σ ∧
  OrderBook.index b' =
    <[Order.id ord := {| OrderBook.order := o; OrderBook.node := n |}]>
      (OrderBook.index b) ∧
  (∀ s p, level_nodes σ' b' s p =
          if decide (s = Order.side ord ∧ p = Order.price ord)
          then level_nodes σ b s p ++ [n] else level_nodes σ b s p) ∧
  nodes σ !! n = None ∧
  ListNode.value <$> nodes σ' !! n = Some o ∧
  (∀ m, m ≠ n → ListNode.value <$> nodes σ' !! m = ListNode.value <$> nodes σ !! m).
Proof.
  intros Hwf Ho Hidx. unfold OrderBook.add.
  rewrite (lookup_total_correct _ _ _ Ho).
  set (s0 := Order.side ord). set (p0 := Order.price ord).
  set (l0 := match OrderBook.side_book s0 b !! p0 with
             | Some level => level | None => DoublyLinkedList.new end).
  assert (is_list (nodes σ) l0 (level_nodes σ b s0 p0)) as Hl0.
  { unfold l0, level_nodes.
    destruct (OrderBook.side_book s0 b !! p0) as [l|] eqn:El.
    - by eapply wf_level.
    - split_and!; try done. apply NoDup_nil_2. }
  destruct (DoublyLinkedList.append (nodes σ) l0 o) as [[h' l'] n'] eqn:Eapp.
  destruct (append_spec _ _ _ _ _ _ _ Hl0 Eapp) as (-> & Hfr & Hl' & Hv & Hvs & Hframe).
  fold n in Hfr, Hl', Hv, Hvs, Hframe. fold n.
  intros [= <- <-].
  assert (∀ s p m, m ∈ level_nodes σ b s p → m ≠ n) as Hold.
  { intros s p m Hm ->.
    destruct (wf_queued _ _ Hwf _ _ _ Hm) as (? & ? & ? & _). congruence. }
  assert (∀ s p m, m ∈ level_nodes σ b s p → ¬ (s = s0 ∧ p = p0) →
                   h' !! m = nodes σ !! m) as Hother.
  { intros s p m Hm Hsp. apply Hframe; [by eapply Hold|].
    intros Hm'. apply Hsp. by eapply wf_disjoint. }
  match goal with |- wf ?σ1 ?b1 ∧ _ => set (σ1' := σ1); set (b1' := b1) end.
  destruct (wf_intro σ1' b1'
    (λ s p, if decide (s = s0 ∧ p = p0)
            then level_nodes σ b s p ++ [n] else level_nodes σ b s p))
    as [Hwf' HQ].
  - intros s p l. unfold b1'. rewrite side_book_set_index, side_book_set.
    case_decide as Es.
    + subst s. rewrite lookup_insert. case_decide as Ep.
      * subst p. intros [= <-]. rewrite decide_True by done. simpl.
        split; [done|]. by destruct (level_nodes σ b s0 p0).
      * intros Hl. rewrite decide_False by naive_solver. simpl. split.
        -- eapply level_frame; [done..|]. intros m Hm.
           eapply Hother; [done|naive_solver].
        -- unfold level_nodes. rewrite Hl. by eapply wf_nonempty.
    + intros Hl. rewrite decide_False by naive_solver. simpl. split.
      * eapply level_frame; [done..|]. intros m Hm.
        eapply Hother; [done|naive_solver].
      * unfold level_nodes. rewrite Hl. by eapply wf_nonempty.
  - intros s p. unfold b1'. rewrite side_book_set_index, side_book_set.
    case_decide as Es.
    + subst s. rewrite lookup_insert. case_decide as Ep; [done|].
      intros Hl. rewrite decide_False by naive_solver.
      unfold level_nodes. by rewrite Hl.
    + intros Hl. rewrite decide_False by naive_solver.
      unfold level_nodes. by rewrite Hl.
  - intros s p m Hm.
    assert (m ∈ level_nodes σ b s p ∨ (m = n ∧ s = s0 ∧ p = p0)) as [Hm'|(-> & -> & ->)].
    { case_decide as E; [|by left].
      apply elem_of_app in Hm as [?|Hm]; [by left|]. right.
      apply list_elem_of_singleton in Hm. naive_solver. }
    + destruct (wf_queued _ _ Hwf _ _ _ Hm') as (nd & o' & Hnd & Ho' & Hs & Hp & Hi).
      destruct (value_lookup _ h' _ _ (Hvs m (Hold _ _ _ Hm')) Hnd) as (nd' & Hnd' & Hval).
      exists nd', o'. simpl. rewrite Hval. split_and!; try done.
      unfold b1'. simpl. rewrite index_set_side_book, lookup_insert_ne; [done|].
      intros E. congruence.
    + simpl. destruct (h' !! n) as [nd'|] eqn:En; [|done].
      injection Hv as Hv. exists nd', ord. rewrite Hv. split_and!; try done.
      unfold b1'. simpl. rewrite index_set_side_book. by rewrite lookup_insert_eq.
  - intros i r. unfold b1'. simpl. rewrite index_set_side_book.
    rewrite lookup_insert_Some. intros [[<- <-]|[Hne Hr]]; simpl.
    + destruct (h' !! n) as [nd'|] eqn:En; [|done].
      injection Hv as Hv. exists nd', ord. split_and!; try done.
      rewrite decide_True by done. apply elem_of_app. right. by left.
    + destruct (wf_indexed _ _ Hwf _ _ Hr) as (nd & o' & Hnd & Hval & Ho' & Hid & Hin).
      destruct (value_lookup _ h' _ _ (Hvs _ (Hold _ _ _ Hin)) Hnd) as (nd' & Hnd' & Hval').
      exists nd', o'. split_and!; try done; [congruence|].
      case_decide; [|done]. apply elem_of_app. by left.
  - split_and!; try done. unfold b1'. simpl. by rewrite index_set_side_book.
Qed.

Lemma cancel_unknown σ b i :
  OrderBook.index b !! i = None → OrderBook.cancel σ b i = (σ, b).
Proof. intros Hi. unfold OrderBook.cancel. by rewrite Hi. Qed.

Lemma cancel_spec σ b i r σ' b' :
  wf σ b →
  OrderBook.index b !! i = Some r →
  OrderBook.cancel σ b i = (σ', b') →
  ∃ o l1 l2,
    orders σ !! OrderBook.order r = Some o ∧ Order.id o = i ∧
    level_nodes σ b (Order.side o) (Order.price o) = l1 ++ OrderBook.node r :: l2 ∧
    wf σ' b' ∧
    orders σ' = orders σ ∧
    OrderBook.index b' = delete i (OrderBook.index b) ∧
    (∀ s p, level_nodes σ' b' s p =
            if decide (s = Order.side o ∧ p = Order.price o)
            then l1 ++ l2 else level_nodes σ b s p) ∧
    (∀ m, ListNode.value <$> nodes σ' !! m = ListNode.value <$> nodes σ !! m).
Proof.
  intros Hwf Hr.
  destruct (wf_indexed _ _ Hwf _ _ Hr) as (nd & o & Hnd & Hval & Ho & Hid & Hin).
  destruct (level_nodes_Some _ _ _ _ _ Hin) as (l & Hl & Hin').
  apply list_elem_of_split in Hin' as (l1 & l2 & Hsplit).
  assert (level_nodes σ b (Order.side o) (Order.price o)
          = l1 ++ OrderBook.node r :: l2) as Hlv.
  { unfold level_nodes. by rewrite Hl. }
  pose proof (level_nodes_NoDup _ _ (Order.side o) (Order.price o) Hwf) as Hnodup.
  pose proof (level_nodes_is_list _ _ _ _ _ Hwf Hl) as Hil.
  rewrite Hlv in Hnodup, Hil.
  unfold OrderBook.cancel. rewrite Hr, (lookup_total_correct _ _ _ Ho), Hl.
  set (s0 := Order.side o) in *. set (p0 := Order.price o) in *.
  destruct (DoublyLinkedList.remove (nodes σ) l (OrderBook.node r)) as [h' l'] eqn:Erem.
  destruct (remove_spec _ _ _ _ _ _ _ Hil Erem) as (Hl' & Hvs & Hframe).
  intros [= <- <-]. exists o, l1, l2.
  assert (DoublyLinkedList.isEmpty l' = true ↔ l1 ++ l2 = []) as Hemp.
  { unfold DoublyLinkedList.isEmpty. destruct Hl' as (_ & _ & -> & _).
    rewrite Z.eqb_eq. destruct (l1 ++ l2); simpl; [done|]. split; [lia|done]. }
  assert (∀ m, m ∈ l1 ++ l2 →
            m ∈ l1 ++ OrderBook.node r :: l2 ∧ m ≠ OrderBook.node r) as Hsub.
  { intros m Hm. apply NoDup_app in Hnodup as (_ & Hd & [Hn2 _]%NoDup_cons).
    apply elem_of_app in Hm as [Hm|Hm].
    - split; [apply elem_of_app; by left|]. intros ->.
      eapply Hd; [done|]. by left.
    - split; [apply elem_of_app; right; by right|]. by intros ->. }
  assert (∀ s p m, m ∈ level_nodes σ b s p → ¬ (s = s0 ∧ p = p0) →
                   h' !! m = nodes σ !! m ∧ m ≠ OrderBook.node r) as Hother.
  { intros s p m Hm Hsp. split.
    - apply Hframe. rewrite <-Hlv. intros Hm'. apply Hsp. by eapply wf_disjoint.
    - intros ->. apply Hsp. by eapply wf_disjoint. }
  match goal with |- _ ∧ _ ∧ _ ∧ wf ?σ1 ?b1 ∧ _ => set (σ1' := σ1); set (b1' := b1) end.
  assert (∀ s p, OrderBook.side_book s b1' !! p =
                 if decide (s = s0 ∧ p = p0)
                 then (if DoublyLinkedList.isEmpty l' then None else Some l')
                 else OrderBook.side_book s b !! p) as Hbook.
  { intros s p. unfold b1'. rewrite side_book_set.
    destruct (decide (s = s0)) as [->|Hs].
    - destruct (DoublyLinkedList.isEmpty l').
      + rewrite lookup_delete. destruct (decide (p0 = p)) as [->|Hp].
        * by rewrite decide_True.
        * rewrite decide_False; [done|]. naive_solver.
      + rewrite lookup_insert. destruct (decide (p0 = p)) as [->|Hp].
        * by rewrite decide_True.
        * rewrite decide_False; [done|]. naive_solver.
    - rewrite side_book_set_index. rewrite decide_False; [done|]. naive_solver. }
  assert (OrderBook.index b1' = delete i (OrderBook.index b)) as Hidx.
  { unfold b1'. by rewrite index_set_side_book. }
  destruct (wf_intro σ1' b1'
    (λ s p, if decide (s = s0 ∧ p = p0) then l1 ++ l2 else level_nodes σ b s p))
    as [Hwf' HQ].
  - intros s p l''. rewrite Hbook. case_decide as E.
    + destruct (DoublyLinkedList.isEmpty l') eqn:Ee; [done|].
      intros [= <-]. split; [done|]. intros Hnil%Hemp. congruence.
    + intros Hl''. split.
      * eapply level_frame; [done..|]. intros m Hm. by eapply Hother.
      * unfold level_nodes. rewrite Hl''. by eapply wf_nonempty.
  - intros s p. rewrite Hbook. case_decide as E.
    + destruct (DoublyLinkedList.isEmpty l') eqn:Ee; [|done].
      intros _. by apply Hemp.
    + intros Hl''. unfold level_nodes. by rewrite Hl''.
  - intros s p m Hm.
    assert (m ∈ level_nodes σ b s p ∧ m ≠ OrderBook.node r) as [Hm' Hne].
    { case_decide as E.
      - destruct E as [-> ->]. rewrite Hlv. by apply Hsub.
      - split; [done|]. by eapply Hother. }
    destruct (wf_queued _ _ Hwf _ _ _ Hm') as (nd' & o' & Hnd' & Ho' & Hs & Hp & Hi).
    destruct (value_lookup _ h' _ _ (Hvs m) Hnd') as (nd'' & Hnd'' & Hval'').
    exists nd'', o'. simpl. rewrite Hval''. split_and!; try done.
    rewrite Hidx, lookup_delete_ne; [done|].
    intros E. rewrite E, Hi in Hr. injection Hr as Hr. apply Hne. by rewrite <-Hr.
  - intros j r'. rewrite Hidx, lookup_delete_Some. intros [Hne Hr'].
    destruct (wf_indexed _ _ Hwf _ _ Hr') as (nd' & o' & Hnd' & Hval' & Ho' & Hid' & Hin').
    destruct (value_lookup _ h' _ _ (Hvs _) Hnd') as (nd'' & Hnd'' & Hval'').
    exists nd'', o'. simpl. split_and!; try done; [congruence|].
    assert (OrderBook.node r' ≠ OrderBook.node r) as Hnn.
    { intros E. rewrite E in Hnd'. simplify_eq. congruence. }
    case_decide as E; [|done]. destruct E as [E1 E2]. rewrite E1, E2, Hlv in Hin'.
    apply elem_of_app in Hin' as [?|[?|?]%elem_of_cons]; [|done|].
    + apply elem_of_app. by left.
    + apply elem_of_app. by right.
  - split_and!; done.
Qed.

End book_invariant.

(** ** Best bid and best ask *)

Section best.
Implicit Types (σ : Store) (b : OrderBook.t).

Lemma foldl_max_spec (r : list Z) (x : Z) :
  foldl Z.max x r ∈ x :: r ∧ ∀ y, y ∈ x :: r → y ≤ foldl Z.max x r.
Proof.
  revert x. induction r as [|z r IH]; intros x; simpl.
  - split; [by left|]. intros y [->|[]%elem_of_nil]%elem_of_cons. lia.
  - destruct (IH (Z.max x z)) as [Hin Hle]. split.
    + apply elem_of_cons in Hin as [Hin|Hin].
      * rewrite Hin. destruct (Z.max_spec x z) as [[_ ->]|[_ ->]];
          [right|]; by left.
      * right. by right.
    + intros y [->|[->|Hy]%elem_of_cons]%elem_of_cons.
      * etrans; [|apply Hle; by left]. lia.
      * etrans; [|apply Hle; by left]. lia.
      * apply Hle. by right.
Qed.

Lemma foldl_min_spec (r : list Z) (x : Z) :
  foldl Z.min x r ∈ x :: r ∧ ∀ y, y ∈ x :: r → foldl Z.min x r ≤ y.
Proof.
  revert x. induction r as [|z r IH]; intros x; simpl.
  - split; [by left|]. intros y [->|[]%elem_of_nil]%elem_of_cons. lia.
  - destruct (IH (Z.min x z)) as [Hin Hle]. split.
    + apply elem_of_cons in Hin as [Hin|Hin].
      * rewrite Hin. destruct (Z.min_spec x z) as [[_ ->]|[_ ->]];
          [|right]; by left.
      * right. by right.
    + intros y [->|[->|Hy]%elem_of_cons]%elem_of_cons.
      * etrans; [apply Hle; by left|]. lia.
      * etrans; [apply Hle; by left|]. lia.
      * apply Hle. by right.
Qed.

Lemma elem_of_keys {A} (m : gmap Z A) (k : Z) : k ∈ keys m ↔ is_Some (m !! k).
Proof.
  unfold keys. rewrite list_elem_of_fmap. split.
  - intros ([k' x] & -> & Hx%elem_of_map_to_list). eauto.
  - intros [x Hx]. exists (k, x). split; [done|]. by apply elem_of_map_to_list.
Qed.

Lemma Math_max_spec {A} (m : gmap Z A) :
  m ≠ ∅ →
  is_Some (m !! Math_max (keys m)) ∧ ∀ k, is_Some (m !! k) → k ≤ Math_max (keys m).
Proof.
  intros Hne. unfold Math_max. destruct (keys m) as [|x r] eqn:Ek.
  - exfalso. apply Hne. apply map_to_list_empty_iff.
    unfold keys in Ek. by apply fmap_nil_inv in Ek.
  - destruct (foldl_max_spec r x) as [Hin Hle]. rewrite <-Ek in Hin, Hle.
    split; [by apply elem_of_keys|]. intros k Hk. by apply Hle, elem_of_keys.
Qed.

Lemma Math_min_spec {A} (m : gmap Z A) :
  m ≠ ∅ →
  is_Some (m !! Math_min (keys m)) ∧ ∀ k, is_Some (m !! k) → Math_min (keys m) ≤ k.
Proof.
  intros Hne. unfold Math_min. destruct (keys m) as [|x r] eqn:Ek.
  - exfalso. apply Hne. apply map_to_list_empty_iff.
    unfold keys in Ek. by apply fmap_nil_inv in Ek.
  - destruct (foldl_min_spec r x) as [Hin Hle]. rewrite <-Ek in Hin, Hle.
    split; [by apply elem_of_keys|]. intros k Hk. by apply Hle, elem_of_keys.
Qed.

(** The order at the front of the level of side [s] and price [p]. *)
Lemma front_spec σ b s p l :
  wf σ b → OrderBook.side_book s b !! p = Some l →
  ∃ n rest ord,
    level_nodes σ b s p = n :: rest ∧
    DoublyLinkedList.peek (nodes σ) l = Some (ListNode.value (nodes σ !!! n)) ∧
    orders σ !! ListNode.value (nodes σ !!! n) = Some ord ∧
    Order.side ord = s ∧ Order.price ord = p ∧
    OrderBook.index b !! Order.id ord =
      Some {| OrderBook.order := ListNode.value (nodes σ !!! n); OrderBook.node := n |}.
Proof.
  intros Hwf Hl.
  pose proof (level_nodes_is_list _ _ _ _ _ Hwf Hl) as (Hh & _).
  pose proof (wf_nonempty _ _ Hwf _ _ _ Hl) as Hne.
  assert (level_nodes σ b s p = to_list (nodes σ) l) as Hlv
    by (unfold level_nodes; by rewrite Hl).
  rewrite <-Hlv in Hne. destruct (level_nodes σ b s p) as [|n rest] eqn:E; [done|].
  assert (n ∈ level_nodes σ b s p) as Hn by (rewrite E; by left).
  destruct (wf_queued _ _ Hwf _ _ _ Hn) as (nd & ord & Hnd & Ho & Hs & Hp & Hi).
  exists n, rest, ord. rewrite (lookup_total_correct _ _ _ Hnd).
  split_and!; try done.
  unfold DoublyLinkedList.peek. rewrite Hh. simpl.
  by rewrite (lookup_total_correct _ _ _ Hnd).
Qed.

Lemma bestBuy_spec σ b :
  wf σ b →
  match OrderBook.bestBuy σ b with
  | None => OrderBook.buys b = ∅
  | Some o =>
      ∃ ord n rest,
        orders σ !! o = Some ord ∧ Order.side ord = BUY ∧
        level_nodes σ b BUY (Order.price ord) = n :: rest ∧
        ListNode.value (nodes σ !!! n) = o ∧
        OrderBook.index b !! Order.id ord =
          Some {| OrderBook.order := o; OrderBook.node := n |} ∧
        ∀ p, is_Some (OrderBook.buys b !! p) → p ≤ Order.price ord
  end.
Proof.
  intros Hwf. unfold OrderBook.bestBuy. case_decide as Hsz.
  { by apply map_size_empty_iff. }
  assert (OrderBook.buys b ≠ ∅) as Hne by (by rewrite <-map_size_empty_iff).
  destruct (Math_max_spec _ Hne) as [[l Hl] Hmax]. rewrite Hl.
  destruct (front_spec σ b BUY _ _ Hwf Hl) as (n & rest & ord & Hlv & -> & Ho & Hs & Hp & Hi).
  exists ord, n, rest. rewrite Hp. split_and!; done.
Qed.

Lemma bestSell_spec σ b :
  wf σ b →
  match OrderBook.bestSell σ b with
  | None => OrderBook.sells b = ∅
  | Some o =>
      ∃ ord n rest,
        orders σ !! o = Some ord ∧ Order.side ord = SELL ∧
        level_nodes σ b SELL (Order.price ord) = n :: rest ∧
        ListNode.value (nodes σ !!! n) = o ∧
        OrderBook.index b !! Order.id ord =
          Some {| OrderBook.order := o; OrderBook.node := n |} ∧
        ∀ p, is_Some (OrderBook.sells b !! p) → Order.price ord ≤ p
  end.
Proof.
  intros Hwf. unfold OrderBook.bestSell. case_decide as Hsz.
  { by apply map_size_empty_iff. }
  assert (OrderBook.sells b ≠ ∅) as Hne by (by rewrite <-map_size_empty_iff).
  destruct (Math_min_spec _ Hne) as [[l Hl] Hmin]. rewrite Hl.
  destruct (front_spec σ b SELL _ _ Hwf Hl) as (n & rest & ord & Hlv & -> & Ho & Hs & Hp & Hi).
  exists ord, n, rest. rewrite Hp. split_and!; done.
Qed.
End best.

(** ** Sums over the id index *)

Definition msum {A} (f : A → Z) (m : gmap string A) : Z :=
  map_fold (λ _ x acc, f x + acc) 0 m.

(** The total remaining quantity of the resting orders. *)
Definition total_qty (σ : Store) (b : OrderBook.t) : Z :=
  msum (λ r, Order.qty (orders σ !!! OrderBook.order r)) (OrderBook.index b).

Section msum.
Context {A : Type}.
Implicit Types (f g : A → Z) (m : gmap string A).

Lemma msum_empty f : msum f ∅ = 0.
Proof. unfold msum. by rewrite map_fold_empty. Qed.

Lemma msum_insert f m i x :
  m !! i = None → msum f (<[i := x]> m) = f x + msum f m.
Proof.
  intros Hi. unfold msum. rewrite map_fold_insert_L; [done| |done].
  intros. lia.
Qed.

Lemma msum_delete f m i x :
  m !! i = Some x → msum f m = f x + msum f (delete i m).
Proof.
  intros Hi. unfold msum. rewrite (map_fold_delete_L _ _ i x m); [done| |done].
  intros. lia.
Qed.

Lemma msum_ext f g m :
  (∀ i x, m !! i = Some x → f x = g x) → msum f m = msum g m.
Proof.
  induction m as [|i x m Hi IH] using map_ind; intros Hfg.
  - by rewrite !msum_empty.
  - rewrite !msum_insert by done. rewrite IH.
    + f_equal. apply (Hfg i). by rewrite lookup_insert_eq.
    + intros j y Hj. apply (Hfg j). rewrite lookup_insert_ne; [done|congruence].
Qed.

Lemma msum_nonneg f m :
  (∀ i x, m !! i = Some x → 0 ≤ f x) → 0 ≤ msum f m.
Proof.
  induction m as [|i x m Hi IH] using map_ind; intros Hf.
  - by rewrite msum_empty.
  - rewrite msum_insert by done.
    assert (0 ≤ f x) by (apply (Hf i); by rewrite lookup_insert_eq).
    assert (0 ≤ msum f m); [|lia].
    apply IH. intros j y Hj. apply (Hf j).
    rewrite lookup_insert_ne; [done|congruence].
Qed.

(** Dropping an entry that counts for nothing. *)
Lemma msum_delete_zero f m i :
  (∀ x, m !! i = Some x → f x = 0) → msum f (delete i m) = msum f m.
Proof.
  intros Hz. destruct (m !! i) as [x|] eqn:Hi.
  - rewrite (msum_delete f m i x Hi), (Hz x); [lia|done].
  - by rewrite delete_id.
Qed.
End msum.

(** ** The matching loop *)

(** Every resting order has a strictly positive remaining quantity. *)
Definition resting_positive (σ : Store) (b : OrderBook.t) : Prop :=
  ∀ i r, OrderBook.index b !! i = Some r →
         0 < Order.qty (orders σ !!! OrderBook.order r).

(** The engine's book satisfies the structural invariant. *)
Definition engine_wf (st : MatchingEngine.t) : Prop :=
  wf (MatchingEngine.store st) (MatchingEngine.book st).

(** What one turn of the loop appends to the log and to the channel. *)
Definition emitted {O} (m : ProcessMode) (e : Event O) : list (Event O) :=
  match m with live => [e] | replay => [] end.

Section engine.
Import MatchingEngine.
Implicit Types (st : MatchingEngine.t) (m : ProcessMode).

(** The invariant only reads the identity, side and price of the orders. *)
Lemma wf_orders_ext σ σ' b :
  wf σ b →
  nodes σ' = nodes σ →
  (∀ o ord, orders σ !! o = Some ord →
     ∃ ord', orders σ' !! o = Some ord' ∧ Order.id ord' = Order.id ord ∧
             Order.side ord' = Order.side ord ∧ Order.price ord' = Order.price ord) →
  wf σ' b.
Proof.
  intros [H1 H2 H3 H4] Hn Ho.
  assert (∀ s p, level_nodes σ' b s p = level_nodes σ b s p) as Hlv.
  { intros s p. unfold level_nodes. by rewrite Hn. }
  split.
  - intros s p l Hl. rewrite Hn. by eapply H1.
  - intros s p l Hl. rewrite Hn. by eapply H2.
  - intros s p n Hin. rewrite Hlv in Hin.
    destruct (H3 s p n Hin) as (nd & ord & Hnd & Hord & Hs & Hp & Hi).
    destruct (Ho _ _ Hord) as (ord' & Hord' & Hi' & Hs' & Hp').
    exists nd, ord'. rewrite Hn, Hi', Hs', Hp'. done.
  - intros i r Hr.
    destruct (H4 i r Hr) as (nd & ord & Hnd & Hv & Hord & Hid & Hin).
    destruct (Ho _ _ Hord) as (ord' & Hord' & Hi' & Hs' & Hp').
    exists nd, ord'. rewrite Hn, Hlv, Hi', Hs', Hp'. done.
Qed.

Lemma alter_qty_fields (os : gmap positive Order.t) o q o' ord :
  os !! o' = Some ord →
  ∃ ord', alter (Order.sub_qty q) o os !! o' = Some ord' ∧
          Order.id ord' = Order.id ord ∧
          Order.side ord' = Order.side ord ∧ Order.price ord' = Order.price ord.
Proof.
  intros Ho. destruct (decide (o = o')) as [->|Hne].
  - exists (Order.sub_qty q ord). by rewrite lookup_alter_eq, Ho.
  - exists ord. by rewrite lookup_alter_ne.
Qed.

Lemma book_cancel_spec i st :
  engine_wf st →
  engine_wf (book_cancel i st) ∧
  orders (store (book_cancel i st)) = orders (store st) ∧
  OrderBook.index (book (book_cancel i st)) = delete i (OrderBook.index (book st)) ∧
  wal (book_cancel i st) = wal st ∧
  eventBus (book_cancel i st) = eventBus st ∧
  trace (book_cancel i st) = trace st ++ [BookCancel i].
Proof.
  intros Hwf. unfold book_cancel, engine_wf in *.
  destruct (OrderBook.cancel (store st) (book st) i) as [σ' b'] eqn:Ec. simpl.
  destruct (OrderBook.index (book st) !! i) as [r|] eqn:Hi.
  - destruct (cancel_spec _ _ _ _ _ _ Hwf Hi Ec) as (o & l1 & l2 & _ & _ & _ & ? & ? & ? & _).
    done.
  - rewrite cancel_unknown in Ec by done. injection Ec as <- <-.
    by rewrite delete_id.
Qed.

Lemma store_emit m e st : store (emit m e st) = store st.
Proof. by destruct m. Qed.
Lemma book_emit m e st : book (emit m e st) = book st.
Proof. by destruct m. Qed.
Lemma wal_emit m e st :
  wal (emit m e st) = wal st ++ emitted m (serialize (store st) e).
Proof. destruct m; simpl; [done|by rewrite app_nil_r]. Qed.
Lemma eventBus_emit m e st :
  eventBus (emit m e st) = eventBus st ++ emitted m e.
Proof. destruct m; simpl; [done|by rewrite app_nil_r]. Qed.
Lemma trace_emit m e st :
  trace (emit m e st) =
  trace st ++ match m with
              | live => [WalAppend (serialize (store st) e); BusPublish e]
              | replay => []
              end.
Proof. destruct m; simpl; [by rewrite <-app_assoc|by rewrite app_nil_r]. Qed.

(** [if (o.qty === 0) this.book.cancel(o.id)] *)
Definition zero_cancel (i : string) (q : Z) {A} (f : string → A → A) (x : A) : A :=
  if q =? 0 then f i x else x.

Lemma match_body_spec m st st' :
  engine_wf st →
  match_body m st = Some st' →
  ∃ buy sell ob os nb ns,
    OrderBook.bestBuy (store st) (book st) = Some buy ∧
    OrderBook.bestSell (store st) (book st) = Some sell ∧
    orders (store st) !! buy = Some ob ∧
    orders (store st) !! sell = Some os ∧
    Order.side ob = BUY ∧ Order.side os = SELL ∧
    buy ≠ sell ∧ Order.id ob ≠ Order.id os ∧
    Order.price os ≤ Order.price ob ∧
    OrderBook.index (book st) !! Order.id ob =
      Some {| OrderBook.order := buy; OrderBook.node := nb |} ∧
    OrderBook.index (book st) !! Order.id os =
      Some {| OrderBook.order := sell; OrderBook.node := ns |} ∧
    let q := Z.min (Order.qty ob) (Order.qty os) in
    orders (store st') =
      alter (Order.sub_qty q) sell (alter (Order.sub_qty q) buy (orders (store st))) ∧
    engine_wf st' ∧
    OrderBook.index (book st') =
      zero_cancel (Order.id os) (Order.qty os - q) (λ i, delete i)
        (zero_cancel (Order.id ob) (Order.qty ob - q) (λ i, delete i)
           (OrderBook.index (book st))) ∧
    wal st' =
      wal st ++ emitted m (TRADE (Order.id ob) (Order.id os) q (Order.price os)) ∧
    eventBus st' =
      eventBus st ++ emitted m (TRADE (Order.id ob) (Order.id os) q (Order.price os)) ∧
    trace st' =
      trace st ++ [QtyUpdate buy q; QtyUpdate sell q] ++
      match m with
      | live => [WalAppend (TRADE (Order.id ob) (Order.id os) q (Order.price os));
                 BusPublish (TRADE (Order.id ob) (Order.id os) q (Order.price os))]
      | replay => []
      end ++
      zero_cancel (Order.id ob) (Order.qty ob - q) (λ i t, BookCancel i :: t)
        (zero_cancel (Order.id os) (Order.qty os - q) (λ i t, BookCancel i :: t) []).
Proof.
  intros Hwf. unfold match_body.
  pose proof (bestBuy_spec _ _ Hwf) as Hb. pose proof (bestSell_spec _ _ Hwf) as Hs.
  destruct (OrderBook.bestBuy (store st) (book st)) as [buy|]; [|done].
  destruct (OrderBook.bestSell (store st) (book st)) as [sell|]; [|done].
  destruct Hb as (ob & nb & restb & Hob & Hsb & Hlb & Hvb & Hib & Hmaxb).
  destruct Hs as (os & ns & rests & Hos & Hss & Hls & Hvs & His & Hmins).
  assert (get buy st = ob) as Hgb0 by by apply lookup_total_correct.
  assert (get sell st = os) as Hgs0 by by apply lookup_total_correct.
  rewrite !Hgb0, !Hgs0.
  destruct (Order.price ob <? Order.price os) eqn:Hlt; [done|].
  apply Z.ltb_ge in Hlt.
  assert (buy ≠ sell) as Hne by (intros ->; congruence).
  assert (Order.id ob ≠ Order.id os) as Hnei.
  { intros E. rewrite E in Hib. congruence. }
  set (q := Z.min (Order.qty ob) (Order.qty os)).
  set (st2 := qty_sub sell q (qty_sub buy q st)).
  assert (orders (store st2) =
          alter (Order.sub_qty q) sell (alter (Order.sub_qty q) buy (orders (store st))))
    as Hst2 by done.
  assert (get buy st2 = Order.sub_qty q ob) as Hgb.
  { unfold get. rewrite Hst2. apply lookup_total_correct.
    by rewrite lookup_alter_ne, lookup_alter_eq, Hob. }
  assert (get sell st2 = Order.sub_qty q os) as Hgs.
  { unfold get. rewrite Hst2. apply lookup_total_correct.
    by rewrite lookup_alter_eq, lookup_alter_ne, Hos. }
  assert (engine_wf st2) as Hwf2.
  { unfold engine_wf. eapply wf_orders_ext; [exact Hwf|done|].
    intros o ord Ho. rewrite Hst2.
    destruct (alter_qty_fields (orders (store st)) buy q _ _ Ho) as (ord1 & Ho1 & <- & <- & <-).
    by apply alter_qty_fields. }
  rewrite Hgb, Hgs. simpl Order.id.
  set (st3 := emit m (TRADE (Order.id ob) (Order.id os) q (Order.price os)) st2).
  assert (store st3 = store st2) as Hs3 by apply store_emit.
  assert (book st3 = book st2) as Hb3 by apply book_emit.
  assert (engine_wf st3) as Hwf3 by (unfold engine_wf; by rewrite Hs3, Hb3).
  assert (get buy st3 = Order.sub_qty q ob) as Hgb3 by (unfold get; by rewrite Hs3).
  rewrite Hgb3. simpl Order.qty. simpl Order.id.
  set (st4 := if Order.qty ob - q =? 0 then book_cancel (Order.id ob) st3 else st3).
  assert (engine_wf st4 ∧ orders (store st4) = orders (store st2) ∧
          OrderBook.index (book st4) =
            zero_cancel (Order.id ob) (Order.qty ob - q) (λ i, delete i)
              (OrderBook.index (book st)) ∧
          wal st4 = wal st3 ∧ eventBus st4 = eventBus st3 ∧
          trace st4 = trace st3 ++
            zero_cancel (Order.id ob) (Order.qty ob - q) (λ i t, BookCancel i :: t) [])
    as (Hwf4 & Ho4 & Hi4 & Hw4 & He4 & Ht4).
  { unfold st4, zero_cancel. destruct (Order.qty ob - q =? 0).
    - destruct (book_cancel_spec (Order.id ob) st3 Hwf3) as (? & -> & -> & ? & ? & ?).
      rewrite Hs3, Hb3. done.
    - rewrite Hs3, Hb3, app_nil_r. done. }
  assert (get sell st4 = Order.sub_qty q os) as Hgs4.
  { unfold get. rewrite Ho4. apply Hgs. }
  rewrite Hgs4. simpl Order.qty. simpl Order.id.
  set (st5 := if Order.qty os - q =? 0 then book_cancel (Order.id os) st4 else st4).
  assert (engine_wf st5 ∧ orders (store st5) = orders (store st2) ∧
          OrderBook.index (book st5) =
            zero_cancel (Order.id os) (Order.qty os - q) (λ i, delete i)
              (OrderBook.index (book st4)) ∧
          wal st5 = wal st4 ∧ eventBus st5 = eventBus st4 ∧
          trace st5 = trace st4 ++
            zero_cancel (Order.id os) (Order.qty os - q) (λ i t, BookCancel i :: t) [])
    as (Hwf5 & Ho5 & Hi5 & Hw5 & He5 & Ht5).
  { unfold st5, zero_cancel. destruct (Order.qty os - q =? 0).
    - destruct (book_cancel_spec (Order.id os) st4 Hwf4) as (? & -> & -> & ? & ? & ?).
      done.
    - rewrite app_nil_r. done. }
  intros Heq. assert (st' = st5) as -> by congruence. clear Heq.
  exists buy, sell, ob, os, nb, ns.
  split_and!; try done.
  - by rewrite Hi5, Hi4.
  - rewrite Hw5, Hw4. unfold st3. by rewrite wal_emit.
  - rewrite He5, He4. unfold st3. by rewrite eventBus_emit.
  - rewrite Ht5, Ht4. unfold st3. rewrite trace_emit. simpl.
    rewrite <-!app_assoc. simpl. f_equal. f_equal. f_equal.
    unfold zero_cancel. fold q. destruct m; simpl;
      destruct (Order.qty ob - q =? 0), (Order.qty os - q =? 0); done.
Qed.
Lemma index_order_inj σ b i j r r' :
  wf σ b →
  OrderBook.index b !! i = Some r → OrderBook.index b !! j = Some r' →
  OrderBook.order r = OrderBook.order r' → i = j.
Proof.
  intros Hwf Hr Hr' E.
  destruct (wf_indexed _ _ Hwf _ _ Hr) as (_ & o & _ & _ & Ho & <- & _).
  destruct (wf_indexed _ _ Hwf _ _ Hr') as (_ & o' & _ & _ & Ho' & <- & _).
  rewrite E in Ho. congruence.
Qed.

Lemma lookup_zero_cancel {A} (idx : gmap string A) i q j x :
  zero_cancel i q (λ i, delete i) idx !! j = Some x →
  idx !! j = Some x ∧ (q = 0 → j ≠ i).
Proof.
  unfold zero_cancel. destruct (q =? 0) eqn:E.
  - rewrite lookup_delete_Some. intros [? ?]. split; [done|]. by intros _ ->.
  - intros ?. split; [done|]. intros ->. done.
Qed.

(** One turn of the loop, on quantities: both orders lose the traded
    quantity, nothing else changes, resting orders stay positive, and the
    total resting quantity drops by twice the traded quantity. *)
Lemma match_body_qty m st st' :
  engine_wf st →
  resting_positive (store st) (book st) →
  match_body m st = Some st' →
  ∃ buy sell,
    OrderBook.bestBuy (store st) (book st) = Some buy ∧
    OrderBook.bestSell (store st) (book st) = Some sell ∧
    buy ≠ sell ∧
    let q := Z.min (Order.qty (get buy st)) (Order.qty (get sell st)) in
    0 < q ∧
    Order.qty (get buy st') = Order.qty (get buy st) - q ∧
    Order.qty (get sell st') = Order.qty (get sell st) - q ∧
    (∀ o, o ≠ buy → o ≠ sell → get o st' = get o st) ∧
    resting_positive (store st') (book st') ∧
    total_qty (store st') (book st') = total_qty (store st) (book st) - 2 * q.
Proof.
  intros Hwf Hpos Hm.
  destruct (match_body_spec _ _ _ Hwf Hm)
    as (buy & sell & ob & os & nb & ns & Hbb & Hbs & Hob & Hos & Hsb & Hss & Hne & Hnei
        & Hpr & Hib & His & Hord & Hwf' & Hidx & _).
  exists buy, sell. split_and!; try done.
  assert (get buy st = ob) as Hgb by by apply lookup_total_correct.
  assert (get sell st = os) as Hgs by by apply lookup_total_correct.
  rewrite Hgb, Hgs. simpl in Hord, Hidx. set (q := Z.min (Order.qty ob) (Order.qty os)) in *.
  assert (0 < Order.qty ob) as Hqb.
  { specialize (Hpos _ _ Hib). simpl in Hpos. by rewrite (lookup_total_correct _ _ _ Hob) in Hpos. }
  assert (0 < Order.qty os) as Hqs.
  { specialize (Hpos _ _ His). simpl in Hpos. by rewrite (lookup_total_correct _ _ _ Hos) in Hpos. }
  assert (get buy st' = Order.sub_qty q ob) as Hgb'.
  { unfold get. rewrite Hord. apply lookup_total_correct.
    by rewrite lookup_alter_ne, lookup_alter_eq, Hob. }
  assert (get sell st' = Order.sub_qty q os) as Hgs'.
  { unfold get. rewrite Hord. apply lookup_total_correct.
    by rewrite lookup_alter_eq, lookup_alter_ne, Hos. }
  assert (∀ o, o ≠ buy → o ≠ sell → get o st' = get o st) as Hoth.
  { intros o ? ?. unfold get. rewrite Hord.
    by rewrite !lookup_total_alter_ne. }
  assert (∀ j r, OrderBook.index (book st) !! j = Some r →
                 j ≠ Order.id ob → j ≠ Order.id os →
                 OrderBook.order r ≠ buy ∧ OrderBook.order r ≠ sell) as Hinj.
  { intros j r Hr Hjb Hjs. split; intros E.
    - apply Hjb. by eapply (index_order_inj _ _ _ _ _ _ Hwf Hr Hib).
    - apply Hjs. by eapply (index_order_inj _ _ _ _ _ _ Hwf Hr His). }
  split_and!.
  - lia.
  - by rewrite Hgb'.
  - by rewrite Hgs'.
  - done.
  - intros j r Hr. rewrite Hidx in Hr.
    apply lookup_zero_cancel in Hr as [Hr Hjs].
    apply lookup_zero_cancel in Hr as [Hr Hjb].
    change (0 < Order.qty (get (OrderBook.order r) st')).
    destruct (decide (j = Order.id ob)) as [->|Hnb].
    { rewrite Hib in Hr. injection Hr as <-. simpl. rewrite Hgb'. simpl.
      assert (Order.qty ob - q ≠ 0) by (intros ?; by apply Hjb). lia. }
    destruct (decide (j = Order.id os)) as [->|Hns].
    { rewrite His in Hr. injection Hr as <-. simpl. rewrite Hgs'. simpl.
      assert (Order.qty os - q ≠ 0) by (intros ?; by apply Hjs). lia. }
    destruct (Hinj _ _ Hr Hnb Hns). rewrite Hoth by done. by apply (Hpos j).
  - unfold total_qty. rewrite Hidx.
    set (f' := λ r, Order.qty (orders (store st') !!! OrderBook.order r)).
    set (f := λ r, Order.qty (orders (store st) !!! OrderBook.order r)).
    assert (f' {| OrderBook.order := buy; OrderBook.node := nb |} = Order.qty ob - q) as Hfb.
    { unfold f'. simpl. fold (get buy st'). by rewrite Hgb'. }
    assert (f' {| OrderBook.order := sell; OrderBook.node := ns |} = Order.qty os - q) as Hfs.
    { unfold f'. simpl. fold (get sell st'). by rewrite Hgs'. }
    assert (msum f'
              (zero_cancel (Order.id os) (Order.qty os - q) (λ i, delete i)
                 (zero_cancel (Order.id ob) (Order.qty ob - q) (λ i, delete i)
                    (OrderBook.index (book st)))) =
            msum f' (OrderBook.index (book st))) as ->.
    { unfold zero_cancel.
      destruct (Order.qty os - q =? 0) eqn:Es, (Order.qty ob - q =? 0) eqn:Eb.
      - rewrite !msum_delete_zero; [done|..].
        + intros x. rewrite Hib. intros [= <-]. rewrite Hfb. by apply Z.eqb_eq.
        + intros x. rewrite lookup_delete_ne by done. rewrite His.
          intros [= <-]. rewrite Hfs. by apply Z.eqb_eq.
      - rewrite msum_delete_zero; [done|].
        intros x. rewrite His. intros [= <-]. rewrite Hfs. by apply Z.eqb_eq.
      - rewrite msum_delete_zero; [done|].
        intros x. rewrite Hib. intros [= <-]. rewrite Hfb. by apply Z.eqb_eq.
      - done. }
    assert (delete (Order.id ob) (OrderBook.index (book st)) !! Order.id os =
            Some {| OrderBook.order := sell; OrderBook.node := ns |}) as His'
      by by rewrite lookup_delete_ne.
    rewrite (msum_delete f' _ _ _ Hib), (msum_delete f' _ _ _ His').
    rewrite (msum_delete f _ _ _ Hib), (msum_delete f _ _ _ His').
    rewrite Hfb, Hfs.
    assert (f {| OrderBook.order := buy; OrderBook.node := nb |} = Order.qty ob) as ->.
    { unfold f. simpl. by rewrite (lookup_total_correct _ _ _ Hob). }
    assert (f {| OrderBook.order := sell; OrderBook.node := ns |} = Order.qty os) as ->.
    { unfold f. simpl. by rewrite (lookup_total_correct _ _ _ Hos). }
    rewrite (msum_ext f' f).
    + lia.
    + intros j r. rewrite !lookup_delete_Some. intros (Hjs & Hjb & Hr).
      destruct (Hinj _ _ Hr) as [? ?]; [done..|].
      unfold f', f. fold (get (OrderBook.order r) st') (get (OrderBook.order r) st).
      by rewrite Hoth.
Qed.

Lemma total_qty_nonneg σ b : resting_positive σ b → 0 ≤ total_qty σ b.
Proof.
  intros Hpos. apply msum_nonneg. intros i r Hr. specialize (Hpos _ _ Hr). lia.
Qed.

Lemma match_fuel_mono k k' m st st' :
  match_ k m st = Some st' → (k ≤ k')%nat → match_ k' m st = Some st'.
Proof.
  revert k' st. induction k as [|k IH]; intros k' st; simpl; [done|].
  intros Hm Hk. destruct k' as [|k']; [lia|]. simpl.
  destruct (match_body m st) as [st1|]; [|done].
  apply IH; [done|lia].
Qed.

(** The loop returns, and it returns in a state where the loop body
    would return at once. *)
Lemma match_terminates k m st :
  engine_wf st →
  resting_positive (store st) (book st) →
  total_qty (store st) (book st) < Z.of_nat k →
  ∃ st', match_ k m st = Some st' ∧
         engine_wf st' ∧
         resting_positive (store st') (book st') ∧
         match_body m st' = None.
Proof.
  revert st. induction k as [|k IH]; intros st Hwf Hpos Htot.
  - pose proof (total_qty_nonneg _ _ Hpos). lia.
  - simpl. destruct (match_body m st) as [st1|] eqn:Hm.
    + destruct (match_body_qty _ _ _ Hwf Hpos Hm)
        as (buy & sell & _ & _ & _ & Hq & _ & _ & _ & Hpos1 & Htot1).
      destruct (match_body_spec _ _ _ Hwf Hm)
        as (? & ? & ? & ? & ? & ? & _ & _ & _ & _ & _ & _ & _ & _ & _ & _ & _ & _ & Hwf1 & _).
      apply IH; [done..|]. lia.
    + exists st. done.
Qed.
End engine.

(** ** Runs of the engine on valid inputs *)

(** The id a command introduces. *)
Definition new_id (e : Event Order.t) : option string :=
  match e with NEW_ORDER o => Some (Order.id o) | _ => None end.

(** A valid command: a new order with strictly positive price and quantity,
    or a cancellation. *)
Definition valid_input (e : Event Order.t) : Prop :=
  match e with
  | NEW_ORDER o => 0 < Order.price o ∧ 0 < Order.qty o
  | CANCEL_ORDER _ => True
  | TRADE _ _ _ _ => False
  end.

(** A valid command sequence: valid commands, no order id used twice. *)
Definition valid_inputs (es : list (Event Order.t)) : Prop :=
  Forall valid_input es ∧ NoDup (omap new_id es).

(** The invariant of a run: the book is well formed, resting quantities are
    positive, and every order object carries an id of [seen]. *)
Definition run_inv (seen : list string) (st : MatchingEngine.t) : Prop :=
  engine_wf st ∧
  resting_positive (MatchingEngine.store st) (MatchingEngine.book st) ∧
  ∀ o ord, orders (MatchingEngine.store st) !! o = Some ord → Order.id ord ∈ seen.

Definition mode_of (options : option Options) : ProcessMode :=
  default live (mode (default {| mode := None |} options)).

Section runs.
Import MatchingEngine.
Implicit Types (st : MatchingEngine.t) (m : ProcessMode).

Lemma book_add_spec o ord st :
  engine_wf st →
  orders (store st) !! o = Some ord →
  OrderBook.index (book st) !! Order.id ord = None →
  engine_wf (book_add o st) ∧
  orders (store (book_add o st)) = orders (store st) ∧
  OrderBook.index (book (book_add o st)) =
    <[Order.id ord := {| OrderBook.order := o;
                         OrderBook.node := fresh (dom (nodes (store st))) |}]>
      (OrderBook.index (book st)).
Proof.
  intros Hwf Ho Hi. unfold book_add, engine_wf in *.
  destruct (OrderBook.add (store st) (book st) o) as [σ' b'] eqn:Ea. simpl.
  destruct (add_spec _ _ _ _ _ _ Hwf Ho Hi Ea) as (? & ? & ? & _). done.
Qed.

Lemma run_inv_match k m seen st :
  run_inv seen st →
  total_qty (store st) (book st) < Z.of_nat k →
  ∃ st', match_ k m st = Some st' ∧ run_inv seen st' ∧ match_body m st' = None.
Proof.
  intros (Hwf & Hpos & Hseen). revert st Hwf Hpos Hseen.
  induction k as [|k IH]; intros st Hwf Hpos Hseen Htot.
  - pose proof (total_qty_nonneg _ _ Hpos). lia.
  - simpl. destruct (match_body m st) as [st1|] eqn:Hm.
    + destruct (match_body_qty _ _ _ Hwf Hpos Hm)
        as (buy & sell & _ & _ & _ & Hq & _ & _ & _ & Hpos1 & Htot1).
      destruct (match_body_spec _ _ _ Hwf Hm)
        as (? & ? & ? & ? & ? & ? & _ & _ & _ & _ & _ & _ & _ & _ & _ & _ & _ & Hord & Hwf1 & _).
      apply IH; [done..| |lia].
      intros o ord. rewrite Hord. intros Ho.
      apply lookup_alter_Some in Ho as [(_ & y & Ho & ->)|[_ Ho]];
        (apply lookup_alter_Some in Ho as [(_ & z & Ho & ->)|[_ Ho]]); simpl;
        by eapply Hseen.
    + exists st. done.
Qed.

(** The engine right before the matching loop of a new order starts: the
    order object is built, the event is logged and published (live mode),
    the order is in the book. *)
Definition accept (m : ProcessMode) (ord : Order.t) (st : MatchingEngine.t)
    : MatchingEngine.t :=
  let '(ev, st) := load (NEW_ORDER ord) st in
  match ev with
  | NEW_ORDER r => book_add r (emit m ev st)
  | _ => st
  end.

Lemma submit_new k options ord st :
  submit k options (NEW_ORDER ord) st = match_ k (mode_of options) (accept (mode_of options) ord st).
Proof. done. Qed.

Lemma accept_inv m seen ord st :
  run_inv seen st →
  0 < Order.qty ord →
  Order.id ord ∉ seen →
  run_inv (seen ++ [Order.id ord]) (accept m ord st).
Proof.
  intros (Hwf & Hpos & Hseen) Hv Hfresh. unfold accept. simpl.
  set (r := fresh (dom (orders (store st)))).
  assert (orders (store st) !! r = None) as Hr
    by apply not_elem_of_dom, is_fresh.
  set (st0 := {| store := {| orders := <[r:=ord]> (orders (store st));
                             nodes := nodes (store st) |};
                 book := book st; wal := wal st; eventBus := eventBus st;
                 trace := trace st |}).
  set (st1 := emit m (NEW_ORDER r) st0).
  assert (store st1 = store st0) as Hs1 by apply store_emit.
  assert (book st1 = book st0) as Hb1 by apply book_emit.
  assert (engine_wf st0) as Hwf0.
  { eapply wf_orders_ext; [exact Hwf|done|]. intros o ord' Ho. exists ord'.
    simpl. rewrite lookup_insert_ne; [done|]. intros <-. congruence. }
  assert (engine_wf st1) as Hwf1 by (unfold engine_wf; by rewrite Hs1, Hb1).
  assert (orders (store st1) !! r = Some ord) as Hr1
    by (rewrite Hs1; simpl; by rewrite lookup_insert_eq).
  assert (OrderBook.index (book st1) !! Order.id ord = None) as Hi1.
  { rewrite Hb1. simpl.
    destruct (OrderBook.index (book st) !! Order.id ord) as [x|] eqn:Hx; [|done].
    destruct (wf_indexed _ _ Hwf _ _ Hx) as (_ & o' & _ & _ & Ho' & Hid & _).
    exfalso. apply Hfresh. rewrite <-Hid. by eapply Hseen. }
  destruct (book_add_spec _ _ _ Hwf1 Hr1 Hi1) as (Hwf2 & Ho2 & Hi2).
  set (st2 := book_add r st1) in *.
  split_and!; [done| |].
  - intros j x. rewrite Hi2, Ho2, Hs1, Hb1. simpl.
    rewrite lookup_insert_Some. intros [[<- <-]|[Hne Hx]]; simpl.
    + by rewrite lookup_total_insert_eq.
    + destruct (wf_indexed _ _ Hwf _ _ Hx) as (_ & o' & _ & _ & Ho' & _).
      rewrite lookup_total_insert_ne by (intros E; congruence).
      by apply (Hpos j).
  - intros o ord'. rewrite Ho2, Hs1. simpl.
    rewrite lookup_insert_Some. intros [[<- <-]|[Hne Ho]].
    + apply elem_of_app. right. by left.
    + apply elem_of_app. left. by eapply Hseen.
Qed.

Lemma cancel_inv m seen i st :
  run_inv seen st → run_inv seen (book_cancel i (emit m (CANCEL_ORDER i) st)).
Proof.
  intros (Hwf & Hpos & Hseen).
  set (st1 := emit m (CANCEL_ORDER i) st).
  assert (store st1 = store st) as Hs1 by apply store_emit.
  assert (book st1 = book st) as Hb1 by apply book_emit.
  assert (engine_wf st1) as Hwf1 by (unfold engine_wf; by rewrite Hs1, Hb1).
  destruct (book_cancel_spec i st1 Hwf1) as (Hwf2 & Ho2 & Hi2 & _).
  split_and!; [done| |].
  - intros j x. rewrite Hi2, Ho2, Hs1, Hb1. rewrite lookup_delete_Some.
    intros [_ Hx]. by apply (Hpos j).
  - intros o ord. rewrite Ho2, Hs1. apply Hseen.
Qed.

Lemma submit_inv options seen e st :
  run_inv seen st →
  valid_input e →
  (∀ i, new_id e = Some i → i ∉ seen) →
  ∃ k st', (∀ k', (k ≤ k')%nat → submit k' options e st = Some st') ∧
           run_inv (seen ++ option_list (new_id e)) st'.
Proof.
  intros Hinv Hv Hfresh.
  destruct e as [ord|i|]; simpl in *; [| |done].
  - pose proof (accept_inv (mode_of options) seen ord st Hinv (proj2 Hv) (Hfresh _ eq_refl))
      as Hinv2.
    set (st2 := accept (mode_of options) ord st) in *.
    set (k := S (Z.to_nat (total_qty (store st2) (book st2)))).
    destruct (run_inv_match k (mode_of options) _ st2 Hinv2) as (st' & Hm & Hinv' & _);
      [unfold k; lia|].
    exists k, st'. split; [|done].
    intros k' Hk. rewrite submit_new. fold st2. by eapply match_fuel_mono.
  - exists O. eexists. split; [done|]. rewrite app_nil_r.
    by apply cancel_inv.
Qed.

Lemma submit_fuel_mono k k' options e st st' :
  (k ≤ k')%nat → submit k options e st = Some st' → submit k' options e st = Some st'.
Proof.
  intros Hk. unfold submit. destruct (load e st) as [ev st0].
  unfold process. destruct ev; [|done..].
  intros Hm. by eapply match_fuel_mono.
Qed.

(** A run on valid inputs returns, given enough fuel for its loops. *)
Lemma run_fuel_mono k k' options es st st' :
  (k ≤ k')%nat → run k options es st = Some st' → run k' options es st = Some st'.
Proof.
  intros Hk. revert st. induction es as [|e es IH]; intros st; simpl; [done|].
  destruct (submit k options e st) as [st1|] eqn:E; [|done].
  rewrite (submit_fuel_mono _ _ _ _ _ _ Hk E). apply IH.
Qed.

Lemma run_inv_new w q : run_inv [] (new w q).
Proof.
  split_and!.
  - apply wf_empty.
  - intros i r. simpl. by rewrite lookup_empty.
  - intros o ord. simpl. by rewrite lookup_empty.
Qed.

Lemma run_terminates options seen es st :
  run_inv seen st →
  Forall valid_input es →
  NoDup (seen ++ omap new_id es) →
  ∃ k st', (∀ k', (k ≤ k')%nat → run k' options es st = Some st') ∧
           run_inv (seen ++ omap new_id es) st'.
Proof.
  revert seen st. induction es as [|e es IH]; intros seen st Hinv Hv Hnd.
  - exists O, st. simpl. rewrite app_nil_r. done.
  - apply Forall_cons in Hv as [Hve Hv].
    assert (omap new_id (e :: es) = option_list (new_id e) ++ omap new_id es) as Hom.
    { simpl. by destruct (new_id e). }
    rewrite Hom in Hnd |- *. rewrite app_assoc in Hnd |- *.
    destruct (submit_inv options seen e st Hinv Hve) as (k1 & st1 & Hs1 & Hinv1).
    { intros i Hi Hin. rewrite Hi in Hnd. simpl in Hnd.
      apply NoDup_app in Hnd as (Hnd & _ & _).
      apply NoDup_app in Hnd as (_ & Hd & _). eapply Hd; [done|]. by left. }
    destruct (IH _ st1 Hinv1 Hv Hnd) as (k2 & st2 & Hs2 & Hinv2).
    exists (k1 `max` k2)%nat, st2. split; [|done].
    intros k' Hk. simpl. rewrite Hs1 by lia. apply Hs2. lia.
Qed.

(** Whatever fuel a run on valid inputs returned with, its final state
    satisfies the invariant. *)
Lemma run_inv_run k options es w q st :
  valid_inputs es →
  run k options es (new w q) = Some st →
  run_inv (omap new_id es) st.
Proof.
  intros [Hv Hnd] Hrun.
  destruct (run_terminates options [] es (new w q) (run_inv_new w q) Hv Hnd)
    as (k0 & st' & Hk0 & Hinv).
  pose proof (Hk0 (k0 `max` k)%nat ltac:(lia)) as H1.
  pose proof (run_fuel_mono k (k0 `max` k)%nat _ _ _ _ ltac:(lia) Hrun) as H2.
  assert (st' = st) as <- by congruence. exact Hinv.
Qed.
End runs.

(** ** Live processing against replay *)

(** The effects that leave the engine: log appends and channel publishes. *)
Definition is_io (e : Effect) : bool :=
  match e with WalAppend _ | BusPublish _ => true | _ => false end.

(** What the outside sees of an engine: the log, the channel, and the
    appends and publishes performed so far. *)
Definition io (st : MatchingEngine.t) : WAL.t * EventBus.t * list Effect :=
  (MatchingEngine.wal st, MatchingEngine.eventBus st,
   filter (λ e, is_io e = true) (MatchingEngine.trace st)).

(** Two engines hold the same book: same objects, same levels, same index. *)
Definition same_book (st1 st2 : MatchingEngine.t) : Prop :=
  MatchingEngine.store st1 = MatchingEngine.store st2 ∧
  MatchingEngine.book st1 = MatchingEngine.book st2.

Definition is_trade {O} (e : Event O) : bool :=
  match e with TRADE _ _ _ _ => true | _ => false end.

Definition replay_options : option Options := Some {| mode := Some replay |}.
Definition live_options : option Options := Some {| mode := Some live |}.

Section replay.
Import MatchingEngine.
Implicit Types (st : MatchingEngine.t) (m : ProcessMode).

Lemma same_book_refl st : same_book st st.
Proof. done. Qed.

Lemma same_book_get o st1 st2 : same_book st1 st2 → get o st1 = get o st2.
Proof. intros [Hs _]. unfold get. by rewrite Hs. Qed.

Lemma same_book_qty_sub o q st1 st2 :
  same_book st1 st2 → same_book (qty_sub o q st1) (qty_sub o q st2).
Proof. intros [Hs Hb]. split; simpl; by rewrite ?Hs, ?Hb. Qed.

Lemma same_book_emit m1 m2 e1 e2 st1 st2 :
  same_book st1 st2 → same_book (emit m1 e1 st1) (emit m2 e2 st2).
Proof. intros [Hs Hb]. split; by rewrite ?store_emit, ?book_emit. Qed.

Lemma same_book_cancel i st1 st2 :
  same_book st1 st2 → same_book (book_cancel i st1) (book_cancel i st2).
Proof.
  intros [Hs Hb]. unfold book_cancel. rewrite Hs, Hb.
  by destruct (OrderBook.cancel (store st2) (book st2) i).
Qed.

Lemma same_book_add o st1 st2 :
  same_book st1 st2 → same_book (book_add o st1) (book_add o st2).
Proof.
  intros [Hs Hb]. unfold book_add. rewrite Hs, Hb.
  by destruct (OrderBook.add (store st2) (book st2) o).
Qed.

Lemma io_qty_sub o q st : io (qty_sub o q st) = io st.
Proof. unfold io. simpl. by rewrite filter_app, app_nil_r. Qed.

Lemma io_cancel i st : io (book_cancel i st) = io st.
Proof.
  unfold io, book_cancel. destruct (OrderBook.cancel (store st) (book st) i).
  simpl. by rewrite filter_app, app_nil_r.
Qed.

Lemma io_add o st : io (book_add o st) = io st.
Proof.
  unfold io, book_add. destruct (OrderBook.add (store st) (book st) o).
  simpl. by rewrite filter_app, app_nil_r.
Qed.

Lemma wal_cancel i st : wal (book_cancel i st) = wal st.
Proof. exact (f_equal (λ x, x.1.1) (io_cancel i st)). Qed.

Lemma wal_add o st : wal (book_add o st) = wal st.
Proof. exact (f_equal (λ x, x.1.1) (io_add o st)). Qed.

(** One turn of the loop, live against replay: same decision, same book
    afterwards; the live turn logs one trade, the replay turn leaves log
    and channel alone. *)
Lemma match_body_live_replay st1 st2 :
  same_book st1 st2 →
  match match_body live st1 with
  | Some a =>
      ∃ b tr, match_body replay st2 = Some b ∧ same_book a b ∧ io b = io st2 ∧
              wal a = wal st1 ++ [tr] ∧ is_trade tr
  | None => match_body replay st2 = None
  end.
Proof.
  intros Hsb. pose proof Hsb as [Hs Hb]. unfold match_body.
  rewrite <-Hs, <-Hb.
  destruct (OrderBook.bestBuy (store st1) (book st1)) as [buy|]; [|done].
  destruct (OrderBook.bestSell (store st1) (book st1)) as [sell|]; [|done].
  rewrite <-!(same_book_get _ st1 st2 Hsb).
  destruct (Order.price (get buy st1) <? Order.price (get sell st1)); [done|].
  set (q := Z.min (Order.qty (get buy st1)) (Order.qty (get sell st1))).
  pose proof (same_book_qty_sub sell q _ _ (same_book_qty_sub buy q _ _ Hsb)) as H2.
  set (a2 := qty_sub sell q (qty_sub buy q st1)) in *.
  set (b2 := qty_sub sell q (qty_sub buy q st2)) in *.
  rewrite <-!(same_book_get _ a2 b2 H2).
  set (tr := TRADE (Order.id (get buy a2)) (Order.id (get sell a2)) q
               (Order.price (get sell st1))).
  assert (same_book (emit live tr a2) b2) as H3.
  { destruct H2. split; by rewrite ?store_emit, ?book_emit. }
  set (a3 := emit live tr a2) in *. simpl emit.
  assert (∀ o, get o a3 = get o a2) as Hg3.
  { intros o. unfold get, a3. by rewrite store_emit. }
  rewrite !Hg3.
  assert (same_book
            (if Order.qty (get buy a2) =? 0
             then book_cancel (Order.id (get buy a2)) a3 else a3)
            (if Order.qty (get buy a2) =? 0
             then book_cancel (Order.id (get buy a2)) b2 else b2)) as H4.
  { destruct (Order.qty (get buy a2) =? 0); [by apply same_book_cancel|done]. }
  set (a4 := if Order.qty (get buy a2) =? 0
             then book_cancel (Order.id (get buy a2)) a3 else a3) in *.
  set (b4 := if Order.qty (get buy a2) =? 0
             then book_cancel (Order.id (get buy a2)) b2 else b2) in *.
  rewrite <-!(same_book_get _ a4 b4 H4).
  eexists _, (serialize (store a2) tr). split; [done|]. split_and!.
  - destruct (Order.qty (get sell a4) =? 0); [by apply same_book_cancel|done].
  - assert (io b4 = io st2) as Hio4.
    { unfold b4. destruct (Order.qty (get buy a2) =? 0);
        unfold b2; by rewrite ?io_cancel, !io_qty_sub. }
    destruct (Order.qty (get sell a4) =? 0); by rewrite ?io_cancel.
  - assert (wal a4 = wal st1 ++ [serialize (store a2) tr]) as Hw4.
    { unfold a4. destruct (Order.qty (get buy a2) =? 0); by rewrite ?wal_cancel. }
    destruct (Order.qty (get sell a4) =? 0); by rewrite ?wal_cancel.
  - done.
Qed.

Lemma match_live_replay k st1 st2 a :
  same_book st1 st2 →
  match_ k live st1 = Some a →
  ∃ b trs, match_ k replay st2 = Some b ∧ same_book a b ∧ io b = io st2 ∧
           wal a = wal st1 ++ trs ∧ Forall is_trade trs.
Proof.
  revert st1 st2. induction k as [|k IH]; intros st1 st2 Hsb; simpl; [done|].
  pose proof (match_body_live_replay _ _ Hsb) as Hstep.
  destruct (match_body live st1) as [a1|].
  - destruct Hstep as (b1 & tr & -> & Hsb1 & Hio1 & Hw1 & Htr). intros Hm.
    destruct (IH _ _ Hsb1 Hm) as (b & trs & Hmb & Hsbb & Hiob & Hwa & Htrs).
    exists b, (tr :: trs). split_and!; try done.
    + congruence.
    + by rewrite Hwa, Hw1, <-app_assoc.
    + by constructor.
  - rewrite Hstep. intros [= <-]. exists st2, []. by rewrite app_nil_r.
Qed.

Lemma filter_trades (trs : list (Event Order.t)) :
  Forall is_trade trs → filter (λ x, is_trade x = false) trs = [].
Proof.
  induction 1 as [|e trs He _ IH]; [done|].
  rewrite filter_cons_False; [done|]. by destruct e.
Qed.

(** Replaying logged trades does nothing. *)
Lemma run_trades k options trs st :
  Forall is_trade trs → run k options trs st = Some st.
Proof.
  induction 1 as [|e trs He _ IH]; simpl; [done|]. by destruct e.
Qed.

Lemma run_app k options es1 es2 st :
  run k options (es1 ++ es2) st =
  match run k options es1 st with
  | Some st1 => run k options es2 st1
  | None => None
  end.
Proof.
  revert st. induction es1 as [|e es1 IH]; intros st; simpl; [done|].
  destruct (submit k options e st); [apply IH|done].
Qed.

(** One command, live against replay of what the live call logged. *)
Lemma submit_live_replay k e st1 st2 a :
  same_book st1 st2 →
  submit k live_options e st1 = Some a →
  ∃ b log, wal a = wal st1 ++ log ∧
           run k replay_options log st2 = Some b ∧
           same_book a b ∧ io b = io st2 ∧
           (valid_input e → filter (λ x, is_trade x = false) log = [e]).
Proof.
  intros Hsb. pose proof Hsb as [Hs Hb]. unfold submit.
  destruct e as [ord|i|bi si q p]; simpl.
  - rewrite Hs.
    set (r := fresh (dom (orders (store st2)))).
    set (σ0 := {| orders := <[r:=ord]> (orders (store st2)); nodes := nodes (store st2) |}).
    set (a0 := {| store := σ0; book := book st1; wal := wal st1;
                  eventBus := eventBus st1; trace := trace st1 |}).
    set (b0 := {| store := σ0; book := book st2; wal := wal st2;
                  eventBus := eventBus st2; trace := trace st2 |}).
    assert (same_book a0 b0) as H0 by (split; simpl; done).
    pose proof (same_book_add r _ _ (same_book_emit live replay (NEW_ORDER r) (NEW_ORDER r) _ _ H0))
      as H1.
    intros Hm. destruct (match_live_replay _ _ _ _ H1 Hm) as (b & trs & Hmb & Hsbb & Hiob & Hwa & Htrs).
    exists b, (NEW_ORDER ord :: trs). split_and!; try done.
    + rewrite Hwa, wal_add. simpl. unfold WAL.append. simpl.
      rewrite lookup_total_insert_eq. by rewrite <-app_assoc.
    + simpl. unfold submit. simpl. fold r σ0 b0.
      simpl in Hmb. rewrite Hmb. by apply run_trades.
    + rewrite Hiob, io_add. done.
    + intros _. rewrite filter_cons_True by done. f_equal.
      by apply filter_trades.
  - intros [= <-].
    exists (book_cancel i st2), [CANCEL_ORDER i]. split_and!.
    + by rewrite wal_cancel.
    + done.
    + apply same_book_cancel.
      exact (same_book_emit live replay (CANCEL_ORDER i) (CANCEL_ORDER i) _ _ Hsb).
    + by rewrite io_cancel.
    + done.
  - intros [= <-]. exists st2, []. by rewrite app_nil_r.
Qed.

(** A live run against the replay of its log. *)
Lemma run_live_replay k es st1 st2 a :
  same_book st1 st2 →
  run k live_options es st1 = Some a →
  ∃ b log, wal a = wal st1 ++ log ∧
           run k replay_options log st2 = Some b ∧
           same_book a b ∧ io b = io st2 ∧
           (Forall valid_input es → filter (λ x, is_trade x = false) log = es).
Proof.
  revert st1 st2. induction es as [|e es IH]; intros st1 st2 Hsb; simpl.
  - intros [= <-]. exists st2, []. by rewrite app_nil_r.
  - destruct (submit k live_options e st1) as [a1|] eqn:E; [|done]. intros Hr.
    destruct (submit_live_replay _ _ _ _ _ Hsb E)
      as (b1 & log1 & Hw1 & Hr1 & Hsb1 & Hio1 & Hf1).
    destruct (IH _ _ Hsb1 Hr) as (b & log & Hw & Hrb & Hsbb & Hiob & Hf).
    exists b, (log1 ++ log). split_and!; try done.
    + by rewrite Hw, Hw1, <-app_assoc.
    + by rewrite run_app, Hr1.
    + congruence.
    + intros [Hve Hv]%Forall_cons. by rewrite filter_app, Hf1, Hf.
Qed.
End replay.

(** ** Further facts about the loop and the queues *)

Section loop_facts.
Import MatchingEngine.

Lemma filter_io_nil (t : list Effect) :
  filter (λ e, is_io e = true) t = [] → Forall (λ e, is_io e = false) t.
Proof.
  induction t as [|e t IH]; [done|].
  destruct (is_io e) eqn:E.
  - by rewrite filter_cons_True.
  - rewrite filter_cons_False by congruence. intros Hf. constructor; auto.
Qed.

Lemma wal_if_cancel (c : bool) i st :
  wal (if c then book_cancel i st else st) = wal st.
Proof. destruct c; [apply wal_cancel|done]. Qed.

Lemma eventBus_cancel i st : eventBus (book_cancel i st) = eventBus st.
Proof. exact (f_equal (λ x, x.1.2) (io_cancel i st)). Qed.

Lemma eventBus_if_cancel (c : bool) i st :
  eventBus (if c then book_cancel i st else st) = eventBus st.
Proof. destruct c; [apply eventBus_cancel|done]. Qed.

Lemma id_get_qty_sub o o' q st :
  Order.id (get o (qty_sub o' q st)) = Order.id (get o st).
Proof.
  unfold get. simpl. rewrite lookup_total_alter. case_decide; [subst|done].
  rewrite lookup_total_alt. by destruct (orders (store st) !! o).
Qed.

(** What one turn of the loop logs and publishes, in any state. *)
Lemma match_body_trade m st st' :
  match_body m st = Some st' →
  ∃ buy sell,
    OrderBook.bestBuy (store st) (book st) = Some buy ∧
    OrderBook.bestSell (store st) (book st) = Some sell ∧
    Order.price (get sell st) ≤ Order.price (get buy st) ∧
    wal st' =
      wal st ++ emitted m (TRADE (Order.id (get buy st)) (Order.id (get sell st))
                             (Z.min (Order.qty (get buy st)) (Order.qty (get sell st)))
                             (Order.price (get sell st))) ∧
    eventBus st' =
      eventBus st ++ emitted m (TRADE (Order.id (get buy st)) (Order.id (get sell st))
                                  (Z.min (Order.qty (get buy st)) (Order.qty (get sell st)))
                                  (Order.price (get sell st))).
Proof.
  unfold match_body.
  destruct (OrderBook.bestBuy (store st) (book st)) as [buy|]; [|done].
  destruct (OrderBook.bestSell (store st) (book st)) as [sell|]; [|done].
  destruct (Order.price (get buy st) <? Order.price (get sell st)) eqn:Hlt; [done|].
  apply Z.ltb_ge in Hlt. intros [= <-]. exists buy, sell. split_and!; try done.
  - rewrite !wal_if_cancel, wal_emit. simpl. by rewrite !id_get_qty_sub.
  - rewrite !eventBus_if_cancel, eventBus_emit. simpl. by rewrite !id_get_qty_sub.
Qed.

(** No crossable pair: a side is empty, or the best bid is below the best
    ask. *)
Definition no_cross (st : MatchingEngine.t) : Prop :=
  OrderBook.buys (book st) = ∅ ∨ OrderBook.sells (book st) = ∅ ∨
  ∃ buy sell,
    OrderBook.bestBuy (store st) (book st) = Some buy ∧
    OrderBook.bestSell (store st) (book st) = Some sell ∧
    Order.price (get buy st) < Order.price (get sell st).

Lemma bestBuy_empty σ b : OrderBook.buys b = ∅ → OrderBook.bestBuy σ b = None.
Proof. intros E. unfold OrderBook.bestBuy. by rewrite E, map_size_empty. Qed.

Lemma bestSell_empty σ b : OrderBook.sells b = ∅ → OrderBook.bestSell σ b = None.
Proof. intros E. unfold OrderBook.bestSell. by rewrite E, map_size_empty. Qed.

Lemma match_body_None_iff m st :
  engine_wf st → match_body m st = None ↔ no_cross st.
Proof.
  intros Hwf. unfold match_body, no_cross.
  pose proof (bestBuy_spec _ _ Hwf) as Hb. pose proof (bestSell_spec _ _ Hwf) as Hs.
  pose proof (bestBuy_empty (store st) (book st)) as Hbe.
  pose proof (bestSell_empty (store st) (book st)) as Hse.
  destruct (OrderBook.bestBuy (store st) (book st)) as [buy|]; [|by split; [left|]].
  destruct (OrderBook.bestSell (store st) (book st)) as [sell|]; [|by split; [right; left|]].
  destruct (Order.price (get buy st) <? Order.price (get sell st)) eqn:Hlt.
  - apply Z.ltb_lt in Hlt. split; [|done]. intros _. right. right. eauto.
  - apply Z.ltb_ge in Hlt. split; [done|].
    intros [E|[E|(b' & s' & [= <-] & [= <-] & ?)]]; [by apply Hbe in E|by apply Hse in E|lia].
Qed.

(** [if (o.qty === 0) this.book.cancel(o.id)] *)
Definition settle (o : oref) (st : MatchingEngine.t) : MatchingEngine.t :=
  if Order.qty (get o st) =? 0 then book_cancel (Order.id (get o st)) st else st.

(** The loop body, read as a sequence of engine steps. *)
Lemma match_body_unfold m st st' :
  match_body m st = Some st' →
  ∃ buy sell,
    OrderBook.bestBuy (store st) (book st) = Some buy ∧
    OrderBook.bestSell (store st) (book st) = Some sell ∧
    Order.price (get sell st) ≤ Order.price (get buy st) ∧
    st' =
      settle sell
        (settle buy
           (emit m
              (TRADE
                 (Order.id (get buy
                    (qty_sub sell (Z.min (Order.qty (get buy st)) (Order.qty (get sell st)))
                       (qty_sub buy (Z.min (Order.qty (get buy st)) (Order.qty (get sell st)))
                          st))))
                 (Order.id (get sell
                    (qty_sub sell (Z.min (Order.qty (get buy st)) (Order.qty (get sell st)))
                       (qty_sub buy (Z.min (Order.qty (get buy st)) (Order.qty (get sell st)))
                          st))))
                 (Z.min (Order.qty (get buy st)) (Order.qty (get sell st)))
                 (Order.price (get sell st)))
              (qty_sub sell (Z.min (Order.qty (get buy st)) (Order.qty (get sell st)))
                 (qty_sub buy (Z.min (Order.qty (get buy st)) (Order.qty (get sell st)))
                    st)))).
Proof.
  unfold match_body.
  destruct (OrderBook.bestBuy (store st) (book st)) as [buy|]; [|done].
  destruct (OrderBook.bestSell (store st) (book st)) as [sell|]; [|done].
  destruct (Order.price (get buy st) <? Order.price (get sell st)) eqn:Hlt; [done|].
  apply Z.ltb_ge in Hlt. intros [= <-]. exists buy, sell. split_and!; done.
Qed.

(** The effects of the matching loop: quantity updates, trade records, and
    removals. *)
Definition loop_effect (e : Effect) : bool :=
  match e with
  | QtyUpdate _ _ | BookCancel _
  | WalAppend (TRADE _ _ _ _) | BusPublish (TRADE _ _ _ _) => true
  | _ => false
  end.

(** [st'] continues the trace of [st] with loop effects only. *)
Definition loop_extends (st st' : MatchingEngine.t) : Prop :=
  ∃ t, trace st' = trace st ++ t ∧ Forall loop_effect t.

Lemma loop_extends_refl st : loop_extends st st.
Proof. exists []. by rewrite app_nil_r. Qed.

Lemma loop_extends_trans st1 st2 st3 :
  loop_extends st1 st2 → loop_extends st2 st3 → loop_extends st1 st3.
Proof.
  intros (t1 & H1 & F1) (t2 & H2 & F2). exists (t1 ++ t2).
  split; [by rewrite H2, H1, <-app_assoc|by apply Forall_app].
Qed.

Lemma trace_cancel i st : trace (book_cancel i st) = trace st ++ [BookCancel i].
Proof. unfold book_cancel. by destruct (OrderBook.cancel (store st) (book st) i). Qed.

Lemma loop_extends_settle o st : loop_extends st (settle o st).
Proof.
  unfold settle. destruct (Order.qty (get o st) =? 0); [|apply loop_extends_refl].
  eexists. split; [apply trace_cancel|]. by repeat constructor.
Qed.

Lemma match_body_trace m st st' :
  match_body m st = Some st' → loop_extends st st'.
Proof.
  intros (buy & sell & _ & _ & _ & ->)%match_body_unfold.
  eapply loop_extends_trans; [|apply loop_extends_settle].
  eapply loop_extends_trans; [|apply loop_extends_settle].
  eexists. split.
  - rewrite trace_emit. simpl. rewrite <-!app_assoc. reflexivity.
  - destruct m; by repeat constructor.
Qed.

Lemma match_trace k m st st' :
  match_ k m st = Some st' → loop_extends st st'.
Proof.
  revert st. induction k as [|k IH]; intros st; simpl; [done|].
  destruct (match_body m st) as [st1|] eqn:Hm.
  - intros Hk. eapply loop_extends_trans; [by eapply match_body_trace|by apply IH].
  - intros [= <-]. apply loop_extends_refl.
Qed.

(** A queued order is indexed under its id, with the node that holds it. *)
Lemma queue_indexed σ b s p o :
  wf σ b → o ∈ queue σ b s p →
  ∃ ord n,
    orders σ !! o = Some ord ∧ Order.side ord = s ∧ Order.price ord = p ∧
    n ∈ level_nodes σ b s p ∧ ListNode.value (nodes σ !!! n) = o ∧
    OrderBook.index b !! Order.id ord =
      Some {| OrderBook.order := o; OrderBook.node := n |}.
Proof.
  intros Hwf. unfold queue. rewrite list_elem_of_fmap. intros (n & -> & Hn).
  destruct (wf_queued _ _ Hwf _ _ _ Hn) as (nd & ord & Hnd & Ho & Hs & Hp & Hi).
  exists ord, n. rewrite (lookup_total_correct _ _ _ Hnd). done.
Qed.

Lemma queue_NoDup σ b s p : wf σ b → NoDup (queue σ b s p).
Proof.
  intros Hwf. unfold queue. apply NoDup_fmap_2_strong; [|by apply level_nodes_NoDup].
  intros n1 n2 H1 H2 E.
  destruct (wf_queued _ _ Hwf _ _ _ H1) as (nd1 & o1 & Hnd1 & Ho1 & _ & _ & Hi1).
  destruct (wf_queued _ _ Hwf _ _ _ H2) as (nd2 & o2 & Hnd2 & Ho2 & _ & _ & Hi2).
  rewrite (lookup_total_correct _ _ _ Hnd1), (lookup_total_correct _ _ _ Hnd2) in E.
  rewrite E in Ho1, Hi1. simplify_eq. done.
Qed.

Lemma indexed_queued σ b i r :
  wf σ b → OrderBook.index b !! i = Some r →
  ∃ ord,
    orders σ !! OrderBook.order r = Some ord ∧ Order.id ord = i ∧
    OrderBook.node r ∈ level_nodes σ b (Order.side ord) (Order.price ord) ∧
    ListNode.value (nodes σ !!! OrderBook.node r) = OrderBook.order r ∧
    OrderBook.order r ∈ queue σ b (Order.side ord) (Order.price ord).
Proof.
  intros Hwf Hr.
  destruct (wf_indexed _ _ Hwf _ _ Hr) as (nd & ord & Hnd & Hv & Ho & Hid & Hin).
  exists ord. rewrite (lookup_total_correct _ _ _ Hnd). split_and!; try done.
  unfold queue. apply list_elem_of_fmap. exists (OrderBook.node r).
  by rewrite (lookup_total_correct _ _ _ Hnd).
Qed.
End loop_facts.

(** ** Arrival order *)

(** The orders in the book as the trace tells it: those added and not
    cancelled since, in order of arrival, each with the fields it had when
    it was added. *)
Definition track (l : list (oref * Order.t)) (e : Effect) : list (oref * Order.t) :=
  match e with
  | BookAdd o ord => l ++ [(o, ord)]
  | BookCancel i => filter (λ x, Order.id x.2 ≠ i) l
  | _ => l
  end.

Definition arrivals (t : list Effect) : list (oref * Order.t) := foldl track [] t.

Definition at_level (s : Side) (p : Z) (x : oref * Order.t) : Prop :=
  Order.side x.2 = s ∧ Order.price x.2 = p.

#[global] Instance at_level_dec s p x : Decision (at_level s p x).
Proof. unfold at_level. apply _. Defined.

(** [o] is the earliest arrival among the orders of [l] that have its side
    and price: it is in [l], and no order before it is of its level. *)
Definition first_in_level (l : list (oref * Order.t)) (o : oref) : Prop :=
  ∃ ord l1 l2,
    l = l1 ++ (o, ord) :: l2 ∧
    Forall (λ a, ¬ at_level (Order.side ord) (Order.price ord) a) l1.

(** Price-time priority of a trace: whenever the quantity of an order is
    updated by a match, that order is the earliest arrival among the orders
    of its side and price that are in the book at that moment. *)
Definition fifo (t : list Effect) : Prop :=
  ∀ t1 o q t2, t = t1 ++ QtyUpdate o q :: t2 → first_in_level (arrivals t1) o.

(** The book holds exactly the arrivals of the trace: every level's queue
    is the arrival sequence of its orders, and the order objects still
    carry the id, side and price they arrived with. *)
Definition book_tracks (st : MatchingEngine.t) : Prop :=
  (∀ s p, queue (MatchingEngine.store st) (MatchingEngine.book st) s p =
          (filter (at_level s p) (arrivals (MatchingEngine.trace st))).*1) ∧
  Forall (λ x, Order.id (MatchingEngine.get x.1 st) = Order.id x.2 ∧
               Order.side (MatchingEngine.get x.1 st) = Order.side x.2 ∧
               Order.price (MatchingEngine.get x.1 st) = Order.price x.2)
    (arrivals (MatchingEngine.trace st)).

Definition fifo_inv (st : MatchingEngine.t) : Prop :=
  engine_wf st ∧ book_tracks st ∧ fifo (MatchingEngine.trace st).

Section queues.
Implicit Types (σ : Store) (b : OrderBook.t) (s : Side) (p : Z).

Lemma filter_all {A} (P : A → Prop) `{∀ x, Decision (P x)} (l : list A) :
  Forall P l → filter P l = l.
Proof.
  induction 1 as [|x l Hx _ IH]; [done|]. by rewrite filter_cons_True, IH.
Qed.

Lemma value_total (h h' : gmap positive ListNode.t) n :
  ListNode.value <$> h' !! n = ListNode.value <$> h !! n →
  ListNode.value (h' !!! n) = ListNode.value (h !!! n).
Proof.
  intros E. rewrite !lookup_total_alt.
  destruct (h' !! n), (h !! n); simpl in *; congruence.
Qed.

(** [add] puts the order at the back of the queue of its side and price. *)
Lemma queue_add σ b o ord σ' b' :
  wf σ b →
  orders σ !! o = Some ord →
  OrderBook.index b !! Order.id ord = None →
  OrderBook.add σ b o = (σ', b') →
  ∀ s p, queue σ' b' s p =
         if decide (s = Order.side ord ∧ p = Order.price ord)
         then queue σ b s p ++ [o] else queue σ b s p.
Proof.
  intros Hwf Ho Hi Ea.
  destruct (add_spec _ _ _ _ _ _ Hwf Ho Hi Ea) as (_ & _ & _ & Hlv & Hn & Hvn & Hvs).
  set (n := fresh (dom (nodes σ))) in *.
  assert (∀ s p, (λ m, ListNode.value (nodes σ' !!! m)) <$> level_nodes σ b s p
                 = queue σ b s p) as Hold.
  { intros s p. unfold queue. apply list_fmap_ext. intros k m Hm.
    apply value_total, Hvs. intros ->.
    apply list_elem_of_lookup_2 in Hm.
    destruct (wf_queued _ _ Hwf _ _ _ Hm) as (? & ? & ? & _). congruence. }
  intros s p. unfold queue at 1. rewrite Hlv. case_decide.
  - rewrite fmap_app, Hold. f_equal. simpl. f_equal.
    rewrite lookup_total_alt. destruct (nodes σ' !! n); simpl in *; congruence.
  - apply Hold.
Qed.

(** [cancel] takes the orders with the cancelled id out of the queues and
    keeps the others in place. *)
Lemma queue_cancel σ b i σ' b' :
  wf σ b →
  OrderBook.cancel σ b i = (σ', b') →
  ∀ s p, queue σ' b' s p =
         filter (λ o, Order.id (orders σ !!! o) ≠ i) (queue σ b s p).
Proof.
  intros Hwf Ec s p.
  destruct (OrderBook.index b !! i) as [r|] eqn:Hi.
  - destruct (cancel_spec _ _ _ _ _ _ Hwf Hi Ec)
      as (o & l1 & l2 & Ho & Hid & Hsplit & _ & _ & _ & Hlv & Hvs).
    pose proof (level_nodes_NoDup _ _ (Order.side o) (Order.price o) Hwf) as Hnd.
    rewrite Hsplit in Hnd.
    destruct (wf_indexed _ _ Hwf _ _ Hi) as (nd & o' & Hnd' & Hv & Ho' & _ & _).
    assert (o' = o) as -> by congruence.
    assert (∀ s p m, m ∈ level_nodes σ b s p → m ≠ OrderBook.node r →
              Order.id (orders σ !!! ListNode.value (nodes σ !!! m)) ≠ i) as Hother.
    { intros s1 p1 m Hm Hne E.
      destruct (wf_queued _ _ Hwf _ _ _ Hm) as (ndm & om & Hndm & Hom & _ & _ & Him).
      rewrite (lookup_total_correct _ _ _ Hndm), (lookup_total_correct _ _ _ Hom) in E.
      rewrite E, Hi in Him. injection Him as ->. done. }
    assert (∀ l : list positive,
              (λ m, ListNode.value (nodes σ' !!! m)) <$> l =
              (λ m, ListNode.value (nodes σ !!! m)) <$> l) as Hval.
    { intros l. apply list_fmap_ext. intros k m _. apply value_total, Hvs. }
    unfold queue at 1. rewrite Hlv, Hval. case_decide as E.
    + destruct E as [-> ->]. unfold queue. rewrite Hsplit.
      rewrite !fmap_app, fmap_cons, filter_app, filter_cons_False.
      * apply NoDup_app in Hnd as (_ & Hd & [Hn2 _]%NoDup_cons).
        rewrite !filter_all; [done|..]; apply Forall_fmap, Forall_forall; intros m Hm; simpl.
        -- apply (Hother (Order.side o) (Order.price o)).
           ++ rewrite Hsplit. apply elem_of_app. right. by right.
           ++ by intros ->.
        -- apply (Hother (Order.side o) (Order.price o)).
           ++ rewrite Hsplit. apply elem_of_app. by left.
           ++ intros ->. eapply Hd; [done|]. by left.
      * intros Hne. apply Hne.
        rewrite (lookup_total_correct _ _ _ Hnd'), Hv, (lookup_total_correct _ _ _ Ho).
        done.
    + unfold queue. rewrite filter_all; [done|].
      apply Forall_fmap, Forall_forall. intros m Hm. simpl.
      apply (Hother s p); [done|]. intros ->. apply E.
      eapply wf_disjoint; [done..|]. rewrite Hsplit. apply elem_of_app. right. by left.
  - rewrite cancel_unknown in Ec by done. injection Ec as <- <-.
    rewrite filter_all; [done|]. apply Forall_forall. intros o Ho.
    destruct (queue_indexed _ _ _ _ _ Hwf Ho) as (ord & n & Hord & _ & _ & _ & _ & Hin).
    rewrite (lookup_total_correct _ _ _ Hord). intros E. congruence.
Qed.
End queues.


Section fifo.
Import MatchingEngine.
Implicit Types (st : MatchingEngine.t) (m : ProcessMode).

Lemma arrivals_snoc t e : arrivals (t ++ [e]) = track (arrivals t) e.
Proof. unfold arrivals. by rewrite foldl_snoc. Qed.

Lemma fifo_nil : fifo [].
Proof. intros t1 o q t2 E. by destruct t1. Qed.

Lemma fifo_snoc t e :
  fifo t →
  (∀ o q, e = QtyUpdate o q → first_in_level (arrivals t) o) →
  fifo (t ++ [e]).
Proof.
  intros Hf He t1 o q t2 E.
  destruct t2 as [|e' t2 _] using rev_ind.
  - apply app_inj_tail in E as [-> ->]. by eapply He.
  - rewrite app_comm_cons, app_assoc in E. apply app_inj_tail in E as [-> _].
    by eapply Hf.
Qed.

Lemma filter_fst_agree (f : oref → Prop) (g : oref * Order.t → Prop)
    `{∀ o, Decision (f o)} `{∀ x, Decision (g x)} (l : list (oref * Order.t)) :
  Forall (λ x, f x.1 ↔ g x) l → filter f (l.*1) = (filter g l).*1.
Proof.
  induction 1 as [|x l Hx _ IH]; [done|]. rewrite fmap_cons.
  destruct (decide (g x)) as [Hg|Hg].
  - rewrite (filter_cons_True g) by done. rewrite filter_cons_True by by apply Hx.
    by rewrite fmap_cons, IH.
  - rewrite (filter_cons_False g) by done. rewrite filter_cons_False; [done|].
    by rewrite Hx.
Qed.

Lemma filter_comm {A} (P Q : A → Prop) `{∀ x, Decision (P x)} `{∀ x, Decision (Q x)}
    (l : list A) :
  filter P (filter Q l) = filter Q (filter P l).
Proof.
  rewrite !list_filter_filter. apply list_filter_iff. intros x. tauto.
Qed.

Lemma fields_get_qty_sub o o' q st :
  Order.id (get o (qty_sub o' q st)) = Order.id (get o st) ∧
  Order.side (get o (qty_sub o' q st)) = Order.side (get o st) ∧
  Order.price (get o (qty_sub o' q st)) = Order.price (get o st).
Proof.
  unfold get. simpl. rewrite lookup_total_alter. case_decide; [subst|done].
  rewrite lookup_total_alt. by destruct (orders (store st) !! o).
Qed.

Lemma wf_qty_sub o q st : engine_wf st → engine_wf (qty_sub o q st).
Proof.
  intros Hwf. eapply wf_orders_ext; [exact Hwf|done|].
  intros o' ord Ho. by apply alter_qty_fields.
Qed.

Lemma filter_cons_split {A} (P : A → Prop) `{∀ x, Decision (P x)} (l : list A) x r :
  filter P l = x :: r →
  ∃ l1 l2, l = l1 ++ x :: l2 ∧ Forall (λ a, ¬ P a) l1 ∧ P x.
Proof.
  induction l as [|a l IH]; [done|].
  destruct (decide (P a)) as [Ha|Ha].
  - rewrite filter_cons_True by done. intros [= -> _].
    exists [], l. by split_and!.
  - rewrite filter_cons_False by done. intros (l1 & l2 & -> & Hl1 & Hx)%IH.
    exists (a :: l1), l2. split_and!; [done| |done]. by constructor.
Qed.

(** The front of a queue is the first arrival of its level. *)
Lemma front_first_in_level st s p o rest :
  book_tracks st →
  queue (store st) (book st) s p = o :: rest →
  first_in_level (arrivals (trace st)) o.
Proof.
  intros [Hq _]. rewrite Hq. intros (x & l' & E & _ & Hf)%fmap_cons_inv.
  destruct x as [o' ord]. simpl in E. subst o'.
  apply filter_cons_split in Hf as (l1 & l2 & Hl & Hl1 & [Hs Hp]).
  simpl in Hs, Hp. exists ord, l1, l2. by rewrite Hs, Hp.
Qed.

Lemma fifo_inv_qty_sub o q st :
  fifo_inv st → first_in_level (arrivals (trace st)) o → fifo_inv (qty_sub o q st).
Proof.
  intros (Hwf & [Hq Hag] & Hf) Hfirst. split_and!.
  - by apply wf_qty_sub.
  - split.
    + intros s p. simpl trace. rewrite arrivals_snoc. simpl. apply Hq.
    + simpl trace. rewrite arrivals_snoc. simpl.
      eapply Forall_impl; [exact Hag|]. intros x Hx. simpl in *.
      destruct (fields_get_qty_sub x.1 o q st) as (-> & -> & ->). done.
  - simpl. apply fifo_snoc; [done|]. by intros ? ? [= <- <-].
Qed.

Lemma fifo_inv_emit m e st : fifo_inv st → fifo_inv (emit m e st).
Proof.
  intros (Hwf & [Hq Hag] & Hf).
  assert (arrivals (trace (emit m e st)) = arrivals (trace st)) as Ha.
  { rewrite trace_emit. destruct m; [|by rewrite app_nil_r].
    change [WalAppend (serialize (store st) e); BusPublish e]
      with ([WalAppend (serialize (store st) e)] ++ [BusPublish e]).
    by rewrite app_assoc, !arrivals_snoc. }
  split_and!.
  - unfold engine_wf. by rewrite store_emit, book_emit.
  - split.
    + intros s p. by rewrite store_emit, book_emit, Ha.
    + rewrite Ha. unfold get. by rewrite store_emit.
  - rewrite trace_emit. destruct m; [|by rewrite app_nil_r].
    change [WalAppend (serialize (store st) e); BusPublish e]
      with ([WalAppend (serialize (store st) e)] ++ [BusPublish e]).
    rewrite app_assoc. apply fifo_snoc; [apply fifo_snoc|]; done.
Qed.

Lemma fifo_inv_cancel i st : fifo_inv st → fifo_inv (book_cancel i st).
Proof.
  intros (Hwf & [Hq Hag] & Hf).
  destruct (book_cancel_spec i st Hwf) as (Hwf' & Ho' & _ & _ & _ & Ht').
  assert (∀ o, get o (book_cancel i st) = get o st) as Hg
    by (intros o; unfold get; by rewrite Ho').
  split_and!; [done| |].
  - split.
    + intros s p. rewrite Ht', arrivals_snoc. simpl. unfold book_cancel.
      destruct (OrderBook.cancel (store st) (book st) i) as [σ' b'] eqn:Ec. simpl.
      rewrite (queue_cancel _ _ _ _ _ Hwf Ec), Hq.
      rewrite (filter_fst_agree _ (λ x, Order.id x.2 ≠ i)).
      * by rewrite filter_comm.
      * apply Forall_forall. intros x [_ Hx]%list_elem_of_filter.
        rewrite Forall_forall in Hag. destruct (Hag x Hx) as (E & _).
        unfold get in E. by rewrite E.
    + rewrite Ht', arrivals_snoc. simpl.
      apply Forall_forall. intros x [_ Hx]%list_elem_of_filter.
      rewrite Forall_forall in Hag. rewrite Hg. by apply Hag.
  - rewrite Ht'. by apply fifo_snoc.
Qed.

Lemma fifo_inv_settle o st : fifo_inv st → fifo_inv (settle o st).
Proof.
  intros H. unfold settle. destruct (Order.qty (get o st) =? 0); [|done].
  by apply fifo_inv_cancel.
Qed.

Lemma fifo_inv_add o ord st :
  fifo_inv st →
  orders (store st) !! o = Some ord →
  OrderBook.index (book st) !! Order.id ord = None →
  fifo_inv (book_add o st).
Proof.
  intros (Hwf & [Hq Hag] & Hf) Ho Hi.
  destruct (book_add_spec _ _ _ Hwf Ho Hi) as (Hwf' & Ho' & _).
  assert (∀ o', get o' (book_add o st) = get o' st) as Hg
    by (intros o'; unfold get; by rewrite Ho').
  assert (trace (book_add o st) = trace st ++ [BookAdd o ord]) as Ht'.
  { unfold book_add. destruct (OrderBook.add (store st) (book st) o). simpl.
    by rewrite (lookup_total_correct _ _ _ Ho). }
  split_and!; [done| |].
  - split.
    + intros s p. rewrite Ht', arrivals_snoc. simpl. unfold book_add.
      destruct (OrderBook.add (store st) (book st) o) as [σ' b'] eqn:Ea. simpl.
      rewrite (queue_add _ _ _ _ _ _ Hwf Ho Hi Ea), Hq, filter_app, fmap_app.
      case_decide as E.
      * rewrite filter_cons_True; [done|]. by destruct E as [-> ->].
      * rewrite filter_cons_False; [by rewrite app_nil_r|].
        intros [<- <-]. by apply E.
    + rewrite Ht', arrivals_snoc. simpl. apply Forall_app. split.
      * eapply Forall_impl; [exact Hag|]. intros x Hx. simpl in *. by rewrite Hg.
      * constructor; [|done]. simpl. rewrite Hg. unfold get.
        by rewrite (lookup_total_correct _ _ _ Ho).
  - rewrite Ht'. by apply fifo_snoc.
Qed.

Lemma fifo_inv_match_body m st st' :
  fifo_inv st → match_body m st = Some st' → fifo_inv st'.
Proof.
  intros Hinv (buy & sell & Hb & Hs & _ & ->)%match_body_unfold.
  pose proof Hinv as (Hwf & Htr & _).
  pose proof (bestBuy_spec _ _ Hwf) as Hbb. rewrite Hb in Hbb.
  pose proof (bestSell_spec _ _ Hwf) as Hss. rewrite Hs in Hss.
  destruct Hbb as (ob & nb & restb & _ & _ & Hlb & Hvb & _).
  destruct Hss as (os & ns & rests & _ & _ & Hls & Hvs & _).
  assert (first_in_level (arrivals (trace st)) buy) as Hfb.
  { eapply (front_first_in_level st BUY (Order.price ob)); [done|].
    unfold queue. rewrite Hlb. simpl. by rewrite Hvb. }
  assert (first_in_level (arrivals (trace st)) sell) as Hfs.
  { eapply (front_first_in_level st SELL (Order.price os)); [done|].
    unfold queue. rewrite Hls. simpl. by rewrite Hvs. }
  do 2 apply fifo_inv_settle. apply fifo_inv_emit.
  apply fifo_inv_qty_sub; [by apply fifo_inv_qty_sub|].
  simpl trace. by rewrite arrivals_snoc.
Qed.

Lemma fifo_inv_match k m st st' :
  fifo_inv st → match_ k m st = Some st' → fifo_inv st'.
Proof.
  revert st. induction k as [|k IH]; intros st Hinv; simpl; [done|].
  destruct (match_body m st) as [st1|] eqn:Hm.
  - apply IH. by eapply fifo_inv_match_body.
  - by intros [= <-].
Qed.

Lemma fifo_inv_new w q : fifo_inv (new w q).
Proof.
  split_and!.
  - apply wf_empty.
  - split; [|by constructor]. intros [] p; unfold queue, level_nodes; simpl;
      by rewrite lookup_empty.
  - apply fifo_nil.
Qed.

Lemma fifo_inv_accept m seen ord st :
  run_inv seen st → fifo_inv st → Order.id ord ∉ seen → fifo_inv (accept m ord st).
Proof.
  intros (_ & _ & Hseen) (Hwf & [Hq Hag] & Hf) Hfresh. unfold accept. simpl.
  set (r := fresh (dom (orders (store st)))).
  assert (orders (store st) !! r = None) as Hr by apply not_elem_of_dom, is_fresh.
  set (st0 := {| store := {| orders := <[r:=ord]> (orders (store st));
                             nodes := nodes (store st) |};
                 book := book st; wal := wal st; eventBus := eventBus st;
                 trace := trace st |}).
  assert (fifo_inv st0) as Hinv0.
  { split_and!; [| |done].
    - eapply wf_orders_ext; [exact Hwf|done|]. intros o ord' Ho. exists ord'.
      simpl. rewrite lookup_insert_ne; [done|]. intros <-. congruence.
    - split; [exact Hq|]. apply Forall_forall. intros x Hx.
      rewrite Forall_forall in Hag.
      assert (x.1 ∈ queue (store st) (book st) (Order.side x.2) (Order.price x.2)) as Hin.
      { rewrite Hq. apply list_elem_of_fmap. exists x. split; [done|].
        by apply list_elem_of_filter. }
      destruct (queue_indexed _ _ _ _ _ Hwf Hin) as (? & ? & Hox & _).
      unfold get. simpl. rewrite lookup_total_insert_ne by (intros E; congruence).
      by apply Hag. }
  apply (fifo_inv_add r ord); [by apply fifo_inv_emit| |].
  - rewrite store_emit. simpl. by rewrite lookup_insert_eq.
  - rewrite book_emit. simpl.
    destruct (OrderBook.index (book st) !! Order.id ord) as [x|] eqn:Hx; [|done].
    destruct (wf_indexed _ _ Hwf _ _ Hx) as (_ & o' & _ & _ & Ho' & Hid & _).
    exfalso. apply Hfresh. rewrite <-Hid. by eapply Hseen.
Qed.

Lemma submit_run_inv k options seen e st st' :
  run_inv seen st →
  valid_input e →
  (∀ i, new_id e = Some i → i ∉ seen) →
  submit k options e st = Some st' →
  run_inv (seen ++ option_list (new_id e)) st'.
Proof.
  intros Hinv Hv Hfresh Hsub.
  destruct (submit_inv options seen e st Hinv Hv Hfresh) as (k0 & st0 & Hk0 & Hinv0).
  pose proof (Hk0 (k0 `max` k)%nat ltac:(lia)) as H1.
  pose proof (submit_fuel_mono k (k0 `max` k)%nat _ _ _ _ ltac:(lia) Hsub) as H2.
  assert (st0 = st') as <- by congruence. done.
Qed.

Lemma fifo_inv_submit k options seen e st st' :
  run_inv seen st →
  fifo_inv st →
  valid_input e →
  (∀ i, new_id e = Some i → i ∉ seen) →
  submit k options e st = Some st' →
  fifo_inv st'.
Proof.
  intros Hinv Hfifo Hv Hfresh.
  destruct e as [ord|i|]; [| |done].
  - rewrite submit_new. apply fifo_inv_match.
    eapply fifo_inv_accept; [done..|]. by apply Hfresh.
  - unfold submit. simpl. intros [= <-].
    by apply fifo_inv_cancel, fifo_inv_emit.
Qed.

Lemma fifo_inv_run k options seen es st st' :
  run_inv seen st →
  fifo_inv st →
  Forall valid_input es →
  NoDup (seen ++ omap new_id es) →
  run k options es st = Some st' →
  fifo_inv st'.
Proof.
  revert seen st. induction es as [|e es IH]; intros seen st Hinv Hfifo Hv Hnd; simpl.
  - by intros [= <-].
  - apply Forall_cons in Hv as [Hve Hv].
    assert (omap new_id (e :: es) = option_list (new_id e) ++ omap new_id es) as Hom.
    { simpl. by destruct (new_id e). }
    rewrite Hom, app_assoc in Hnd.
    assert (∀ i, new_id e = Some i → i ∉ seen) as Hfresh.
    { intros i Hi Hin. rewrite Hi in Hnd. simpl in Hnd.
      apply NoDup_app in Hnd as (Hnd & _ & _).
      apply NoDup_app in Hnd as (_ & Hd & _). eapply Hd; [done|]. by left. }
    destruct (submit k options e st) as [st1|] eqn:Hsub; [|done].
    apply (IH (seen ++ option_list (new_id e)));
      [by eapply submit_run_inv|by eapply fifo_inv_submit|done..].
Qed.
End fifo.

(** * The claims *)

(** C1.  For every valid sequence of NEW_ORDER and CANCEL_ORDER commands, a
    live engine started on an empty log returns (given enough fuel for its
    loops), its log is the commands interleaved with trades, and replaying
    that log through a fresh engine in replay mode returns with the very
    same store and book, appends nothing to its log and publishes nothing
    on its channel. *)
Theorem replay_reproduces_live_book (es : list (Event Order.t)) :
  valid_inputs es →
  ∃ k live_st,
    ∀ fuel, (k ≤ fuel)%nat →
      run fuel live_options es (MatchingEngine.new [] []) = Some live_st ∧
      filter (λ x, is_trade x = false) (MatchingEngine.wal live_st) = es ∧
      ∀ w q, ∃ st,
        run fuel replay_options (WAL.replay (MatchingEngine.wal live_st))
          (MatchingEngine.new w q) = Some st ∧
        MatchingEngine.store st = MatchingEngine.store live_st ∧
        MatchingEngine.book st = MatchingEngine.book live_st ∧
        MatchingEngine.wal st = w ∧
        MatchingEngine.eventBus st = q ∧
        Forall (λ e, is_io e = false) (MatchingEngine.trace st).
Proof.
  intros [Hv Hnd].
  destruct (run_terminates live_options [] es (MatchingEngine.new [] [])
              (run_inv_new [] []) Hv Hnd) as (k & live_st & Hk & _).
  exists k, live_st. intros fuel Hfuel. specialize (Hk fuel Hfuel).
  split; [done|].
  destruct (run_live_replay fuel es _ (MatchingEngine.new [] []) _
              (same_book_refl _) Hk) as (_ & log & Hlog & _ & _ & _ & Hf).
  simpl in Hlog. split; [rewrite Hlog; by apply Hf|].
  intros w q.
  destruct (run_live_replay fuel es (MatchingEngine.new [] []) (MatchingEngine.new w q) _
              ltac:(done) Hk) as (st & log' & Hlog' & Hrun & [Hs Hb] & Hio & _).
  simpl in Hlog'. exists st. unfold WAL.replay. rewrite Hlog'.
  injection Hio as Hw Hq Ht. split_and!; try done.
  by apply filter_io_nil.
Qed.

(** ** Concrete scenarios *)

Definition bid_B1 : Order.t := Order.mk "B1" BUY 100 10 1 None.
Definition ask_S1 : Order.t := Order.mk "S1" SELL 100 4 2 None.
Definition ask_S2 : Order.t := Order.mk "S2" SELL 99 10 3 None.

(** BUY 10@100, SELL 4@100, SELL 10@99. *)
Definition scenario_fills : list (Event Order.t) :=
  [NEW_ORDER bid_B1; NEW_ORDER ask_S1; NEW_ORDER ask_S2].

Lemma scenario_fills_valid : valid_inputs scenario_fills.
Proof.
  split.
  - repeat constructor; simpl; lia.
  - simpl. repeat constructor; set_solver.
Qed.

Lemma replay_reproduces_live_book_witness :
  valid_inputs scenario_fills ∧
  ∃ k live_st,
    ∀ fuel, (k ≤ fuel)%nat →
      run fuel live_options scenario_fills (MatchingEngine.new [] []) = Some live_st ∧
      filter (λ x, is_trade x = false) (MatchingEngine.wal live_st) = scenario_fills ∧
      ∀ w q, ∃ st,
        run fuel replay_options (WAL.replay (MatchingEngine.wal live_st))
          (MatchingEngine.new w q) = Some st ∧
        MatchingEngine.store st = MatchingEngine.store live_st ∧
        MatchingEngine.book st = MatchingEngine.book live_st ∧
        MatchingEngine.wal st = w ∧
        MatchingEngine.eventBus st = q ∧
        Forall (λ e, is_io e = false) (MatchingEngine.trace st).
Proof.
  split; [exact scenario_fills_valid|].
  apply (replay_reproduces_live_book scenario_fills). exact scenario_fills_valid.
Defined.

(** C7.  A TRADE given to [process] is ignored, whatever the mode and the
    engine state: the call returns the state it was given, so the book is
    unchanged, nothing is appended to the log and nothing is published. *)
Theorem trade_input_ignored (fuel : nat) (buyId sellId : string) (qty price : Z)
    (options : option Options) (st : MatchingEngine.t) :
  MatchingEngine.process fuel (TRADE buyId sellId qty price) options st = Some st.
Proof. reflexivity. Qed.

(** C10.  A call of [process] without a mode (no options argument, or an
    options object without [mode]) is the call in live mode; so a
    cancellation is logged and published, and a new order is logged and
    published before it enters the book and the loop runs in live mode. *)
Theorem process_default_mode_is_live (fuel : nat) (event : Event oref)
    (st : MatchingEngine.t) :
  MatchingEngine.process fuel event None st =
    MatchingEngine.process fuel event (Some {| mode := Some live |}) st ∧
  MatchingEngine.process fuel event (Some {| mode := None |}) st =
    MatchingEngine.process fuel event (Some {| mode := Some live |}) st ∧
  (∀ i, ∃ st',
     MatchingEngine.process fuel (CANCEL_ORDER i) None st = Some st' ∧
     MatchingEngine.wal st' = MatchingEngine.wal st ++ [CANCEL_ORDER i] ∧
     MatchingEngine.eventBus st' = MatchingEngine.eventBus st ++ [CANCEL_ORDER i]) ∧
  (∀ o,
     MatchingEngine.process fuel (NEW_ORDER o) None st =
     MatchingEngine.match_ fuel live
       (MatchingEngine.book_add o
          (MatchingEngine.bus_publish (NEW_ORDER o)
             (MatchingEngine.wal_append (NEW_ORDER o) st)))).
Proof.
  split_and!; try reflexivity.
  intros i. eexists. split; [reflexivity|].
  by rewrite wal_cancel, eventBus_cancel.
Qed.

(** C5.  Cancelling an id that is not in the index returns the store and
    the book as they were, and cancelling an id a second time returns what
    the first cancellation returned; this holds in every state of the book,
    well formed or not, and [cancel] has no failing path. *)
Theorem cancel_idempotent (σ : Store) (b : OrderBook.t) (i : string) :
  (OrderBook.index b !! i = None → OrderBook.cancel σ b i = (σ, b)) ∧
  OrderBook.cancel (OrderBook.cancel σ b i).1 (OrderBook.cancel σ b i).2 i =
    OrderBook.cancel σ b i.
Proof.
  split; [apply cancel_unknown|].
  unfold OrderBook.cancel at 2 3 4.
  destruct (OrderBook.index b !! i) as [r|] eqn:Hi; simpl.
  - destruct (OrderBook.side_book _ b !! _) as [l|] eqn:Hl; simpl.
    + destruct (DoublyLinkedList.remove (nodes σ) l (OrderBook.node r)) as [h' l'].
      apply cancel_unknown. rewrite index_set_side_book. simpl.
      apply lookup_delete_eq.
    + unfold OrderBook.cancel. by rewrite Hi, Hl.
  - by apply cancel_unknown.
Qed.

Lemma cancel_idempotent_witness :
  OrderBook.index OrderBook.new !! "X" = None ∧
  OrderBook.cancel {| orders := ∅; nodes := ∅ |} OrderBook.new "X" =
    ({| orders := ∅; nodes := ∅ |}, OrderBook.new).
Proof.
  split; [reflexivity|].
  apply (proj1 (cancel_idempotent {| orders := ∅; nodes := ∅ |} OrderBook.new "X")).
  reflexivity.
Defined.

(** C2, as the code has it.  Every trade of the matching loop executes at
    the price of the SELL order of the pair, whether that order was resting
    or has just come in.  From an empty book, BUY 10 at 100, SELL 4 at 100, SELL
    10 at 99: the third command logs a trade of quantity 6 at price 99 (the
    incoming ask's price), fills and removes the bid, and leaves SELL 4 at 99
    resting. *)
Theorem trade_executes_at_ask_price :
  (∀ m st st',
     MatchingEngine.match_body m st = Some st' →
     ∃ buy sell,
       OrderBook.bestBuy (MatchingEngine.store st) (MatchingEngine.book st) = Some buy ∧
       OrderBook.bestSell (MatchingEngine.store st) (MatchingEngine.book st) = Some sell ∧
       MatchingEngine.wal st' =
         MatchingEngine.wal st ++
         emitted m
           (TRADE (Order.id (MatchingEngine.get buy st)) (Order.id (MatchingEngine.get sell st))
              (Z.min (Order.qty (MatchingEngine.get buy st))
                     (Order.qty (MatchingEngine.get sell st)))
              (Order.price (MatchingEngine.get sell st)))) ∧
  ∃ st2 st3,
    run 2 live_options [NEW_ORDER bid_B1; NEW_ORDER ask_S1] (MatchingEngine.new [] [])
      = Some st2 ∧
    submit 2 live_options (NEW_ORDER ask_S2) st2 = Some st3 ∧
    MatchingEngine.wal st3 =
      MatchingEngine.wal st2 ++ [NEW_ORDER ask_S2; TRADE "B1" "S2" 6 99] ∧
    OrderBook.buys (MatchingEngine.book st3) = ∅ ∧
    OrderBook.index (MatchingEngine.book st3) !! "B1" = None ∧
    keys (OrderBook.sells (MatchingEngine.book st3)) = [99] ∧
    (λ o, MatchingEngine.get o st3) <$>
      queue (MatchingEngine.store st3) (MatchingEngine.book st3) SELL 99
      = [Order.mk "S2" SELL 99 4 3 None].
Proof.
  split.
  - intros m st st' Hm.
    destruct (match_body_trade _ _ _ Hm) as (buy & sell & ? & ? & _ & ? & _). eauto.
  - eexists _, _. split; [vm_compute; reflexivity|].
    split; [vm_compute; reflexivity|].
    split_and!; vm_compute; reflexivity.
Qed.

(** The state in which SELL 4 at 100 has just been added to a book holding
    BUY 10 at 100, before the matching loop runs. *)
Definition crossed_book : MatchingEngine.t :=
  accept live ask_S1
    (default (MatchingEngine.new [] [])
       (run 1 live_options [NEW_ORDER bid_B1] (MatchingEngine.new [] []))).

Lemma crossed_book_inv : run_inv ["B1"; "S1"] crossed_book.
Proof.
  apply (accept_inv live ["B1"] ask_S1); [|simpl; lia|set_solver].
  apply (run_inv_run 1 live_options [NEW_ORDER bid_B1] [] []).
  - split; [repeat constructor; simpl; lia|]. simpl. repeat constructor. set_solver.
  - vm_compute. reflexivity.
Qed.

(** The state after one turn of the loop on [crossed_book]. *)
Definition crossed_after : MatchingEngine.t :=
  Eval vm_compute in
    default crossed_book (MatchingEngine.match_body live crossed_book).

Lemma crossed_step : MatchingEngine.match_body live crossed_book = Some crossed_after.
Proof. vm_compute. reflexivity. Qed.

Lemma trade_executes_at_ask_price_witness :
  MatchingEngine.match_body live crossed_book = Some crossed_after ∧
  ∃ buy sell,
    OrderBook.bestBuy (MatchingEngine.store crossed_book) (MatchingEngine.book crossed_book)
      = Some buy ∧
    OrderBook.bestSell (MatchingEngine.store crossed_book) (MatchingEngine.book crossed_book)
      = Some sell ∧
    MatchingEngine.wal crossed_after =
      MatchingEngine.wal crossed_book ++
      emitted live
        (TRADE (Order.id (MatchingEngine.get buy crossed_book))
           (Order.id (MatchingEngine.get sell crossed_book))
           (Z.min (Order.qty (MatchingEngine.get buy crossed_book))
                  (Order.qty (MatchingEngine.get sell crossed_book)))
           (Order.price (MatchingEngine.get sell crossed_book))).
Proof.
  split; [exact crossed_step|].
  exact (proj1 trade_executes_at_ask_price live crossed_book crossed_after crossed_step).
Defined.

(** C2 as the spec words it fails: in the scenario the third command does
    not trade at 100, the resting bid's price. *)
Lemma scenario_third_trade_not_at_bid_price :
  ∃ st2 st3,
    run 2 live_options [NEW_ORDER bid_B1; NEW_ORDER ask_S1] (MatchingEngine.new [] [])
      = Some st2 ∧
    submit 2 live_options (NEW_ORDER ask_S2) st2 = Some st3 ∧
    MatchingEngine.wal st3 =
      MatchingEngine.wal st2 ++ [NEW_ORDER ask_S2; TRADE "B1" "S2" 6 99] ∧
    ∀ b s, TRADE b s 6 100 ∉ MatchingEngine.wal st3.
Proof.
  eexists _, _. split; [vm_compute; reflexivity|].
  split; [vm_compute; reflexivity|].
  split; [vm_compute; reflexivity|].
  intros b s. vm_compute MatchingEngine.wal.
  rewrite !elem_of_cons, elem_of_nil. intros [H|[H|[H|[H|[H|[]]]]]]; discriminate.
Qed.

(** C4.  From any well-formed book whose resting orders have positive
    quantities, the matching loop returns, in a state without a crossable
    pair; every turn keeps the invariant and lowers the total resting
    quantity by twice the traded quantity, which is positive; and the loop
    body returns exactly when no crossable pair remains. *)
Theorem matching_loop_terminates (m : ProcessMode) (st : MatchingEngine.t) :
  engine_wf st →
  resting_positive (MatchingEngine.store st) (MatchingEngine.book st) →
  (∃ k st',
     (∀ fuel, (k ≤ fuel)%nat → MatchingEngine.match_ fuel m st = Some st') ∧
     no_cross st') ∧
  (∀ st1,
     MatchingEngine.match_body m st = Some st1 →
     engine_wf st1 ∧
     resting_positive (MatchingEngine.store st1) (MatchingEngine.book st1) ∧
     ∃ q, 0 < q ∧
          total_qty (MatchingEngine.store st1) (MatchingEngine.book st1) =
          total_qty (MatchingEngine.store st) (MatchingEngine.book st) - 2 * q) ∧
  (MatchingEngine.match_body m st = None ↔ no_cross st).
Proof.
  intros Hwf Hpos. split_and!.
  - set (k := S (Z.to_nat (total_qty (MatchingEngine.store st) (MatchingEngine.book st)))).
    destruct (match_terminates k m st Hwf Hpos) as (st' & Hm & Hwf' & _ & Hnone);
      [unfold k; lia|].
    exists k, st'. split.
    + intros fuel Hfuel. by eapply match_fuel_mono.
    + by apply (match_body_None_iff m).
  - intros st1 Hm.
    destruct (match_body_qty _ _ _ Hwf Hpos Hm)
      as (buy & sell & _ & _ & _ & Hq & _ & _ & _ & Hpos1 & Htot1).
    destruct (match_body_spec _ _ _ Hwf Hm)
      as (? & ? & ? & ? & ? & ? & _ & _ & _ & _ & _ & _ & _ & _ & _ & _ & _ & _ & Hwf1 & _).
    split_and!; [done..|]. eauto.
  - by apply match_body_None_iff.
Qed.

Lemma matching_loop_terminates_witness :
  engine_wf crossed_book ∧
  resting_positive (MatchingEngine.store crossed_book) (MatchingEngine.book crossed_book) ∧
  ∃ k st',
    (∀ fuel, (k ≤ fuel)%nat → MatchingEngine.match_ fuel live crossed_book = Some st') ∧
    no_cross st'.
Proof.
  destruct crossed_book_inv as (Hwf & Hpos & _).
  split; [exact Hwf|]. split; [exact Hpos|].
  exact (proj1 (matching_loop_terminates live crossed_book Hwf Hpos)).
Defined.

(** C6.  The structural invariant [wf] holds of the empty book and is kept
    by [add] of an order whose id is not indexed, by [cancel] of any id, and
    by every turn of the matching loop.  The last conjunct spells out what
    [wf] gives: no level is empty; a queued order sits in the level of its
    own side and price, in that level only and once, and is indexed under
    its id with the node that holds it; an index entry is filed under its
    order's id, its handle is a node of the order's level and holds the
    order; no order has two index entries. *)
Theorem book_invariant_preserved :
  (∀ σ, wf σ OrderBook.new) ∧
  (∀ σ b o ord,
     wf σ b → orders σ !! o = Some ord → OrderBook.index b !! Order.id ord = None →
     wf (OrderBook.add σ b o).1 (OrderBook.add σ b o).2) ∧
  (∀ σ b i, wf σ b → wf (OrderBook.cancel σ b i).1 (OrderBook.cancel σ b i).2) ∧
  (∀ m st st',
     engine_wf st → MatchingEngine.match_body m st = Some st' → engine_wf st') ∧
  (∀ σ b,
     wf σ b →
     (∀ s p l, OrderBook.side_book s b !! p = Some l →
               level_nodes σ b s p ≠ [] ∧ DoublyLinkedList.isEmpty l = false) ∧
     (∀ s p o, o ∈ queue σ b s p →
        ∃ ord n,
          orders σ !! o = Some ord ∧ Order.side ord = s ∧ Order.price ord = p ∧
          n ∈ level_nodes σ b s p ∧ ListNode.value (nodes σ !!! n) = o ∧
          OrderBook.index b !! Order.id ord =
            Some {| OrderBook.order := o; OrderBook.node := n |}) ∧
     (∀ s p, NoDup (queue σ b s p)) ∧
     (∀ s p s' p' o, o ∈ queue σ b s p → o ∈ queue σ b s' p' → s = s' ∧ p = p') ∧
     (∀ i r, OrderBook.index b !! i = Some r →
        ∃ ord,
          orders σ !! OrderBook.order r = Some ord ∧ Order.id ord = i ∧
          OrderBook.node r ∈ level_nodes σ b (Order.side ord) (Order.price ord) ∧
          ListNode.value (nodes σ !!! OrderBook.node r) = OrderBook.order r ∧
          OrderBook.order r ∈ queue σ b (Order.side ord) (Order.price ord)) ∧
     (∀ i j r r', OrderBook.index b !! i = Some r → OrderBook.index b !! j = Some r' →
                  OrderBook.order r = OrderBook.order r' → i = j)).
Proof.
  split_and!.
  - apply wf_empty.
  - intros σ b o ord Hwf Ho Hi.
    destruct (OrderBook.add σ b o) as [σ' b'] eqn:Ea.
    by destruct (add_spec _ _ _ _ _ _ Hwf Ho Hi Ea) as (? & _).
  - intros σ b i Hwf.
    destruct (OrderBook.cancel σ b i) as [σ' b'] eqn:Ec. simpl.
    destruct (OrderBook.index b !! i) as [r|] eqn:Hi.
    + by destruct (cancel_spec _ _ _ _ _ _ Hwf Hi Ec) as (? & ? & ? & _ & _ & _ & ? & _).
    + rewrite cancel_unknown in Ec by done. by injection Ec as <- <-.
  - intros m st st' Hwf Hm.
    by destruct (match_body_spec _ _ _ Hwf Hm)
      as (? & ? & ? & ? & ? & ? & _ & _ & _ & _ & _ & _ & _ & _ & _ & _ & _ & _ & ? & _).
  - intros σ b Hwf. split_and!.
    + intros s p l Hl.
      pose proof (level_nodes_is_list _ _ _ _ _ Hwf Hl) as (_ & _ & Hsz & _).
      pose proof (wf_nonempty _ _ Hwf _ _ _ Hl) as Hne.
      assert (level_nodes σ b s p = to_list (nodes σ) l) as Hlv
        by (unfold level_nodes; by rewrite Hl).
      rewrite Hlv. split; [done|].
      unfold DoublyLinkedList.isEmpty. rewrite Hsz, Hlv. apply Z.eqb_neq.
      destruct (to_list (nodes σ) l); [done|]. simpl. lia.
    + intros s p o. by apply queue_indexed.
    + intros s p. by apply queue_NoDup.
    + intros s p s' p' o H1 H2.
      destruct (queue_indexed _ _ _ _ _ Hwf H1) as (? & ? & ? & <- & <- & _).
      destruct (queue_indexed _ _ _ _ _ Hwf H2) as (? & ? & ? & <- & <- & _).
      by simplify_eq.
    + intros i r. by apply indexed_queued.
    + intros i j r r'. by apply (index_order_inj σ).
Qed.

Lemma book_invariant_preserved_witness :
  engine_wf crossed_book ∧
  MatchingEngine.match_body live crossed_book = Some crossed_after ∧
  engine_wf crossed_after.
Proof.
  destruct crossed_book_inv as (Hwf & _).
  split; [exact Hwf|]. split; [exact crossed_step|].
  destruct book_invariant_preserved as (_ & _ & _ & Hstep & _).
  exact (Hstep live crossed_book crossed_after Hwf crossed_step).
Defined.

(** C8.  In a turn of the matching loop on a well-formed book with positive
    resting quantities, the traded quantity is the minimum of the two
    remaining quantities and is positive; the buy order and the sell order
    each lose exactly that quantity and neither goes below zero; no other
    order object changes; and after the turn every indexed and every queued
    order has a positive quantity, so an order that reached zero has left
    the book before the next turn. *)
Theorem fill_decrements_both_orders (m : ProcessMode) (st st' : MatchingEngine.t) :
  engine_wf st →
  resting_positive (MatchingEngine.store st) (MatchingEngine.book st) →
  MatchingEngine.match_body m st = Some st' →
  ∃ buy sell,
    OrderBook.bestBuy (MatchingEngine.store st) (MatchingEngine.book st) = Some buy ∧
    OrderBook.bestSell (MatchingEngine.store st) (MatchingEngine.book st) = Some sell ∧
    buy ≠ sell ∧
    let q := Z.min (Order.qty (MatchingEngine.get buy st))
                   (Order.qty (MatchingEngine.get sell st)) in
    0 < q ∧
    Order.qty (MatchingEngine.get buy st') = Order.qty (MatchingEngine.get buy st) - q ∧
    Order.qty (MatchingEngine.get sell st') = Order.qty (MatchingEngine.get sell st) - q ∧
    0 ≤ Order.qty (MatchingEngine.get buy st') ∧
    0 ≤ Order.qty (MatchingEngine.get sell st') ∧
    (∀ o, o ≠ buy → o ≠ sell → MatchingEngine.get o st' = MatchingEngine.get o st) ∧
    (∀ i r, OrderBook.index (MatchingEngine.book st') !! i = Some r →
            0 < Order.qty (MatchingEngine.get (OrderBook.order r) st')) ∧
    (∀ s p o, o ∈ queue (MatchingEngine.store st') (MatchingEngine.book st') s p →
              0 < Order.qty (MatchingEngine.get o st')).
Proof.
  intros Hwf Hpos Hm.
  destruct (match_body_qty _ _ _ Hwf Hpos Hm)
    as (buy & sell & Hb & Hs & Hne & Hq & Hqb & Hqs & Hoth & Hpos' & _).
  destruct (match_body_spec _ _ _ Hwf Hm)
    as (? & ? & ? & ? & ? & ? & _ & _ & _ & _ & _ & _ & _ & _ & _ & _ & _ & _ & Hwf' & _).
  exists buy, sell. split_and!; [done..|]. cbv zeta. split_and!; try done.
  - rewrite Hqb. lia.
  - rewrite Hqs. lia.
  - intros s p o Ho.
    destruct (queue_indexed _ _ _ _ _ Hwf' Ho) as (ord & n & _ & _ & _ & _ & _ & Hi).
    apply (Hpos' _ _ Hi).
Qed.

Lemma fill_decrements_both_orders_witness :
  engine_wf crossed_book ∧
  resting_positive (MatchingEngine.store crossed_book) (MatchingEngine.book crossed_book) ∧
  MatchingEngine.match_body live crossed_book = Some crossed_after ∧
  ∃ buy sell,
    OrderBook.bestBuy (MatchingEngine.store crossed_book) (MatchingEngine.book crossed_book)
      = Some buy ∧
    OrderBook.bestSell (MatchingEngine.store crossed_book) (MatchingEngine.book crossed_book)
      = Some sell ∧
    Order.qty (MatchingEngine.get buy crossed_after) =
      Order.qty (MatchingEngine.get buy crossed_book) -
      Z.min (Order.qty (MatchingEngine.get buy crossed_book))
            (Order.qty (MatchingEngine.get sell crossed_book)).
Proof.
  destruct crossed_book_inv as (Hwf & Hpos & _).
  split; [exact Hwf|]. split; [exact Hpos|]. split; [exact crossed_step|].
  destruct (fill_decrements_both_orders live crossed_book crossed_after Hwf Hpos crossed_step)
    as (buy & sell & Hb & Hs & _ & _ & Hqb & _).
  exists buy, sell. split; [exact Hb|]. split; [exact Hs|]. exact Hqb.
Defined.






(** BUY 5 at 100 twice, then SELL 5 at 100. *)
Definition bid_first : Order.t := Order.mk "B1" BUY 100 5 1 None.
Definition bid_second : Order.t := Order.mk "B2" BUY 100 5 2 None.
Definition ask_third : Order.t := Order.mk "S1" SELL 100 5 3 None.

Definition scenario_fifo : list (Event Order.t) :=
  [NEW_ORDER bid_first; NEW_ORDER bid_second; NEW_ORDER ask_third].

Lemma scenario_fifo_valid : valid_inputs scenario_fifo.
Proof.
  split.
  - repeat constructor; simpl; lia.
  - simpl. repeat constructor; set_solver.
Qed.

Definition scenario_fifo_final : MatchingEngine.t :=
  Eval vm_compute in
    default (MatchingEngine.new [] [])
      (run 2 live_options scenario_fifo (MatchingEngine.new [] [])).

Lemma scenario_fifo_run :
  run 2 live_options scenario_fifo (MatchingEngine.new [] []) = Some scenario_fifo_final.
Proof. vm_compute. reflexivity. Qed.

(** C3.  Price-time priority.  In every run on valid commands from an empty
    book, each level's queue is the arrival sequence of the orders of that
    side and price that are in the book, and whenever a match updates an
    order, that order is the earliest arrival among the orders of its side
    and price in the book at that moment: a later arrival is never matched
    while an earlier one of the same side and price rests.  In particular,
    after BUY 5 at 100 twice and SELL 5 at 100 the one trade has the first
    BUY's id, and the second BUY rests untouched. *)
Theorem price_time_priority :
  (∀ es k options st,
     valid_inputs es →
     run k options es (MatchingEngine.new [] []) = Some st →
     fifo (MatchingEngine.trace st) ∧
     ∀ s p, queue (MatchingEngine.store st) (MatchingEngine.book st) s p =
            (filter (at_level s p) (arrivals (MatchingEngine.trace st))).*1) ∧
  ∃ st,
    run 2 live_options scenario_fifo (MatchingEngine.new [] []) = Some st ∧
    MatchingEngine.wal st =
      [NEW_ORDER bid_first; NEW_ORDER bid_second; NEW_ORDER ask_third;
       TRADE "B1" "S1" 5 100] ∧
    (λ o, MatchingEngine.get o st) <$>
      queue (MatchingEngine.store st) (MatchingEngine.book st) BUY 100 = [bid_second].
Proof.
  split.
  - intros es k options st [Hv Hnd] Hrun.
    destruct (fifo_inv_run k options [] es _ st (run_inv_new [] []) (fifo_inv_new [] [])
                Hv Hnd Hrun) as (_ & [Hq _] & Hf).
    done.
  - exists scenario_fifo_final. split; [exact scenario_fifo_run|].
    split; vm_compute; reflexivity.
Qed.

Lemma price_time_priority_witness :
  valid_inputs scenario_fifo ∧
  run 2 live_options scenario_fifo (MatchingEngine.new [] []) = Some scenario_fifo_final ∧
  fifo (MatchingEngine.trace scenario_fifo_final).
Proof.
  split; [exact scenario_fifo_valid|]. split; [exact scenario_fifo_run|].
  exact (proj1 (proj1 price_time_priority scenario_fifo 2%nat live_options
                  scenario_fifo_final scenario_fifo_valid scenario_fifo_run)).
Defined.

(** * Further properties of the core *)

(** ** The FIFO queue ([core/dll.ts]) *)

(** The values queued in a list, front to back. *)
Definition values (h : NodeHeap) (ns : list nref) : list oref :=
  (λ n, ListNode.value (h !!! n)) <$> ns.

(** [for (const v of vs) list.append(v)] *)
Definition append_all (h : NodeHeap) (l : DoublyLinkedList.t) (vs : list oref)
    : NodeHeap * DoublyLinkedList.t :=
  foldl (λ hl v, (DoublyLinkedList.append hl.1 hl.2 v).1) (h, l) vs.

Lemma is_list_new h : is_list h DoublyLinkedList.new [].
Proof. split_and!; try done. apply NoDup_nil_2. Qed.

Lemma is_list_queries h l ns :
  is_list h l ns →
  DoublyLinkedList.peek h l = head (values h ns) ∧
  DoublyLinkedList.size l = Z.of_nat (length ns) ∧
  (DoublyLinkedList.isEmpty l = true ↔ ns = []).
Proof.
  intros (Hh & _ & Hsz & _). split_and!.
  - unfold DoublyLinkedList.peek. rewrite Hh. by destruct ns.
  - done.
  - unfold DoublyLinkedList.isEmpty. rewrite Hsz, Z.eqb_eq.
    destruct ns; simpl; [done|]. split; [lia|done].
Qed.

Lemma append_values h l ns v h' l' n :
  is_list h l ns →
  DoublyLinkedList.append h l v = (h', l', n) →
  is_list h' l' (ns ++ [n]) ∧ values h' (ns ++ [n]) = values h ns ++ [v].
Proof.
  intros Hl Ha.
  destruct (append_spec _ _ _ _ _ _ _ Hl Ha) as (-> & Hfr & Hl' & Hv & Hvs & _).
  split; [done|]. unfold values. rewrite fmap_app. f_equal.
  - apply list_fmap_ext. intros k m Hm. apply value_total, Hvs. intros ->.
    apply list_elem_of_lookup_2 in Hm.
    destruct Hl as (_ & _ & _ & _ & Hs).
    destruct (dll_seg_lookup _ _ _ _ _ Hs Hm). congruence.
  - simpl. f_equal. rewrite lookup_total_alt.
    destruct (h' !! fresh (dom h)); simpl in *; congruence.
Qed.

(** X1.  [append] on a well-formed list allocates a node that was not in the
    store, links it at the back and returns it: the list is well formed
    again, its nodes are the old ones followed by the new one, the values
    queued are the old values followed by the appended value, the size grows
    by one, and the front is the old front (the appended value if the list
    was empty). *)
Theorem append_links_at_back (h : NodeHeap) (l : DoublyLinkedList.t)
    (ns : list nref) (v : oref) :
  is_list h l ns →
  h !! (DoublyLinkedList.append h l v).2 = None ∧
  is_list (DoublyLinkedList.append h l v).1.1 (DoublyLinkedList.append h l v).1.2
    (ns ++ [(DoublyLinkedList.append h l v).2]) ∧
  to_list (DoublyLinkedList.append h l v).1.1 (DoublyLinkedList.append h l v).1.2
    = ns ++ [(DoublyLinkedList.append h l v).2] ∧
  values (DoublyLinkedList.append h l v).1.1 (ns ++ [(DoublyLinkedList.append h l v).2])
    = values h ns ++ [v] ∧
  DoublyLinkedList.size (DoublyLinkedList.append h l v).1.2 = DoublyLinkedList.size l + 1 ∧
  DoublyLinkedList.isEmpty (DoublyLinkedList.append h l v).1.2 = false ∧
  DoublyLinkedList.peek (DoublyLinkedList.append h l v).1.1
    (DoublyLinkedList.append h l v).1.2 = head (values h ns ++ [v]).
Proof.
  intros Hl. destruct (DoublyLinkedList.append h l v) as [[h' l'] n] eqn:Ha. simpl.
  destruct (append_spec _ _ _ _ _ _ _ Hl Ha) as (_ & Hfr & Hl' & _).
  destruct (append_values _ _ _ _ _ _ _ Hl Ha) as (_ & Hv).
  destruct (is_list_queries _ _ _ Hl') as (Hp & Hsz & He).
  destruct (is_list_queries _ _ _ Hl) as (_ & Hsz0 & _).
  split_and!; try done.
  - by apply is_list_to_list.
  - rewrite Hsz, Hsz0, length_app. simpl. lia.
  - destruct (DoublyLinkedList.isEmpty l') eqn:E; [|done].
    destruct He as [He _]. specialize (He eq_refl). by destruct ns.
  - by rewrite Hp, Hv.
Qed.

Lemma append_links_at_back_witness :
  is_list ∅ DoublyLinkedList.new [] ∧
  DoublyLinkedList.peek (DoublyLinkedList.append ∅ DoublyLinkedList.new 7%positive).1.1
    (DoublyLinkedList.append ∅ DoublyLinkedList.new 7%positive).1.2 = Some 7%positive.
Proof.
  split; [apply is_list_new|].
  exact (proj2 (proj2 (proj2 (proj2 (proj2 (proj2
    (append_links_at_back ∅ DoublyLinkedList.new [] 7%positive (is_list_new ∅)))))))).
Defined.

(** X2.  [remove] of a node of a well-formed list unlinks exactly that node:
    the list is well formed again, the other nodes keep their order and
    every node keeps its value, the size drops by one, the list reports
    empty exactly when no node is left, and the removed node's [prev] and
    [next] are cleared. *)
Theorem remove_unlinks_node (h : NodeHeap) (l : DoublyLinkedList.t)
    (l1 : list nref) (n : nref) (l2 : list nref) :
  is_list h l (l1 ++ n :: l2) →
  is_list (DoublyLinkedList.remove h l n).1 (DoublyLinkedList.remove h l n).2 (l1 ++ l2) ∧
  to_list (DoublyLinkedList.remove h l n).1 (DoublyLinkedList.remove h l n).2 = l1 ++ l2 ∧
  values (DoublyLinkedList.remove h l n).1 (l1 ++ l2) = values h (l1 ++ l2) ∧
  DoublyLinkedList.size (DoublyLinkedList.remove h l n).2 = DoublyLinkedList.size l - 1 ∧
  (DoublyLinkedList.isEmpty (DoublyLinkedList.remove h l n).2 = true ↔ l1 ++ l2 = []) ∧
  ListNode.prev ((DoublyLinkedList.remove h l n).1 !!! n) = None ∧
  ListNode.next ((DoublyLinkedList.remove h l n).1 !!! n) = None ∧
  ListNode.value ((DoublyLinkedList.remove h l n).1 !!! n) = ListNode.value (h !!! n).
Proof.
  intros Hl.
  assert (∃ h2, (DoublyLinkedList.remove h l n).1 =
                alter (ListNode.set_next None) n (alter (ListNode.set_prev None) n h2))
    as [h2 Hh2].
  { unfold DoublyLinkedList.remove.
    destruct (ListNode.prev (h !!! n)); simpl;
      match goal with |- context [ListNode.next (?x !!! n)] =>
        destruct (ListNode.next (x !!! n)) end; simpl; eauto. }
  assert (is_Some (h !! n)) as [nd Hn].
  { destruct Hl as (_ & _ & _ & _ & Hs). eapply dll_seg_lookup; [done|].
    apply elem_of_app. right. by left. }
  destruct (DoublyLinkedList.remove h l n) as [h' l'] eqn:Hr. simpl in *.
  destruct (remove_spec _ _ _ _ _ _ _ Hl Hr) as (Hl' & Hvs & _).
  destruct (is_list_queries _ _ _ Hl') as (_ & Hsz & He).
  destruct (is_list_queries _ _ _ Hl) as (_ & Hsz0 & _).
  destruct (value_lookup _ h' _ _ (Hvs n) Hn) as (nd' & Hn' & Hval).
  assert (is_Some (h2 !! n)) as [nd2 Hn2].
  { rewrite Hh2 in Hn'. apply lookup_alter_Some in Hn' as [(_ & y & Hy & _)|[? _]]; [|done].
    apply lookup_alter_Some in Hy as [(_ & z & Hz & _)|[? _]]; [eauto|done]. }
  split_and!; try done.
  - by apply is_list_to_list.
  - unfold values. apply list_fmap_ext. intros k m _. apply value_total, Hvs.
  - rewrite Hsz, Hsz0, !length_app. simpl. lia.
  - rewrite Hh2. apply (f_equal ListNode.prev (x := _ !!! n) (y := ListNode.set_next None (ListNode.set_prev None nd2))).
    apply lookup_total_correct. by rewrite lookup_alter_eq, lookup_alter_eq, Hn2.
  - rewrite Hh2. apply (f_equal ListNode.next (x := _ !!! n) (y := ListNode.set_next None (ListNode.set_prev None nd2))).
    apply lookup_total_correct. by rewrite lookup_alter_eq, lookup_alter_eq, Hn2.
  - by apply value_total.
Qed.

Lemma remove_unlinks_node_witness :
  is_list (DoublyLinkedList.append ∅ DoublyLinkedList.new 7%positive).1.1
    (DoublyLinkedList.append ∅ DoublyLinkedList.new 7%positive).1.2 ([] ++ [1%positive]) ∧
  DoublyLinkedList.isEmpty
    (DoublyLinkedList.remove (DoublyLinkedList.append ∅ DoublyLinkedList.new 7%positive).1.1
       (DoublyLinkedList.append ∅ DoublyLinkedList.new 7%positive).1.2 1%positive).2 = true.
Proof.
  assert (is_list (DoublyLinkedList.append ∅ DoublyLinkedList.new 7%positive).1.1
    (DoublyLinkedList.append ∅ DoublyLinkedList.new 7%positive).1.2 ([] ++ [1%positive])) as H.
  { split_and!; try done; [apply NoDup_singleton|]. by eexists. }
  split; [exact H|].
  exact (proj2 (proj1 (proj2 (proj2 (proj2 (proj2
    (remove_unlinks_node _ _ [] 1%positive [] H)))))) eq_refl).
Defined.

Lemma set_next_id (nd : ListNode.t) x :
  ListNode.next nd = x → ListNode.set_next x nd = nd.
Proof. destruct nd. simpl. by intros ->. Qed.

Lemma append_then_remove (h : NodeHeap) (l : DoublyLinkedList.t)
    (ns : list nref) (v : oref) :
  is_list h l ns →
  let a := DoublyLinkedList.append h l v in
  let r := DoublyLinkedList.remove a.1.1 a.1.2 a.2 in
  r.2 = l ∧ (∀ m, m ≠ a.2 → r.1 !! m = h !! m) ∧ is_list r.1 r.2 ns.
Proof.
  intros Hl. cbv zeta.
  assert ((DoublyLinkedList.remove (DoublyLinkedList.append h l v).1.1
            (DoublyLinkedList.append h l v).1.2 (DoublyLinkedList.append h l v).2).2 = l ∧
          ∀ m, m ≠ (DoublyLinkedList.append h l v).2 →
               (DoublyLinkedList.remove (DoublyLinkedList.append h l v).1.1
                  (DoublyLinkedList.append h l v).1.2 (DoublyLinkedList.append h l v).2).1 !! m
               = h !! m) as [Hl2 Hh2]; [|split_and!; try done].
  2:{ rewrite Hl2. eapply is_list_frame; [|done]. intros m Hm. apply Hh2.
      destruct (DoublyLinkedList.append h l v) as [[h' l'] n] eqn:Ha.
      destruct (append_spec _ _ _ _ _ _ _ Hl Ha) as (_ & Hfr & _). simpl.
      intros ->. destruct Hl as (_ & _ & _ & _ & Hs).
      destruct (dll_seg_lookup _ _ _ _ _ Hs Hm). congruence. }
  pose proof (is_fresh (dom h)) as Hfr%not_elem_of_dom.
  destruct Hl as (Hh & Ht & Hsz & Hnd & Hs).
  unfold DoublyLinkedList.append. set (n := fresh (dom h)) in *.
  destruct (DoublyLinkedList.tail l) as [tl|] eqn:Etl; simpl.
  - assert (tl ≠ n) as Hne.
    { intros ->. symmetry in Ht. apply last_Some in Ht as [l0 ->].
      apply dll_seg_app in Hs as (_ & nd & ? & _). congruence. }
    assert (∃ nd, h !! tl = Some nd ∧ ListNode.next nd = None) as (nd & Htl & Hnx).
    { symmetry in Ht. apply last_Some in Ht as [l0 ->].
      apply dll_seg_app in Hs as (_ & nd & ? & _ & ? & _). exists nd.
      split; [done|]. by destruct (ListNode.next nd). }
    set (h1 := alter (ListNode.set_next (Some n)) tl
                 (alter (ListNode.set_prev (Some tl)) n (<[n:=ListNode.new v]> h))).
    assert (h1 !!! n = ListNode.set_prev (Some tl) (ListNode.new v)) as Hn1.
    { apply lookup_total_correct. unfold h1.
      rewrite lookup_alter_ne by done. by rewrite lookup_alter_eq, lookup_insert_eq. }
    unfold DoublyLinkedList.remove. rewrite Hn1. simpl.
    rewrite (lookup_total_alter_ne _ h1 tl n) by done. rewrite Hn1. simpl.
    split.
    + destruct l. simpl in *. subst. f_equal. lia.
    + intros m Hm. rewrite !lookup_alter_ne by done.
      destruct (decide (m = tl)) as [->|Hmt].
      * rewrite lookup_alter_eq. unfold h1. rewrite lookup_alter_eq.
        rewrite lookup_alter_ne, lookup_insert_ne, Htl by done. simpl.
        f_equal. destruct nd. simpl in *. by subst.
      * rewrite lookup_alter_ne by done. unfold h1.
        by rewrite !lookup_alter_ne, lookup_insert_ne by done.
  - assert (ns = []) as ->.
    { destruct ns as [|a ns _] using rev_ind; [done|]. by rewrite last_snoc in Ht. }
    unfold DoublyLinkedList.remove.
    repeat (rewrite (lookup_total_insert_eq h n); simpl). split.
    + destruct l. simpl in *. subst. by f_equal.
    + intros m Hm. by rewrite !lookup_alter_ne, lookup_insert_ne by done.
Qed.

(** X3.  Appending a value and then removing the returned node undoes the
    append: the list object has its old contents again, every node that was
    in the store before is exactly as it was, and the list is well formed
    with its old nodes. *)
Theorem append_remove_round_trip (h : NodeHeap) (l : DoublyLinkedList.t)
    (ns : list nref) (v : oref) :
  is_list h l ns →
  let a := DoublyLinkedList.append h l v in
  let r := DoublyLinkedList.remove a.1.1 a.1.2 a.2 in
  r.2 = l ∧ (∀ m, m ≠ a.2 → r.1 !! m = h !! m) ∧ is_list r.1 r.2 ns.
Proof. apply append_then_remove. Qed.

Lemma append_remove_round_trip_witness :
  is_list ∅ DoublyLinkedList.new [] ∧
  (DoublyLinkedList.remove (DoublyLinkedList.append ∅ DoublyLinkedList.new 7%positive).1.1
     (DoublyLinkedList.append ∅ DoublyLinkedList.new 7%positive).1.2
     (DoublyLinkedList.append ∅ DoublyLinkedList.new 7%positive).2).2 = DoublyLinkedList.new.
Proof.
  split; [apply is_list_new|].
  exact (proj1 (append_remove_round_trip ∅ DoublyLinkedList.new [] 7%positive (is_list_new ∅))).
Defined.

Lemma append_all_spec vs : ∀ h l ns,
  is_list h l ns →
  ∃ ns', is_list (append_all h l vs).1 (append_all h l vs).2 (ns ++ ns') ∧
         values (append_all h l vs).1 (ns ++ ns') = values h ns ++ vs.
Proof.
  induction vs as [|v vs IH]; intros h l ns Hl; simpl.
  - exists []. by rewrite !app_nil_r.
  - destruct (DoublyLinkedList.append h l v) as [[h1 l1] n] eqn:Ha.
    destruct (append_values _ _ _ _ _ _ _ Hl Ha) as [Hl1 Hv1].
    destruct (IH _ _ _ Hl1) as (ns' & Hl' & Hv').
    exists (n :: ns'). unfold append_all in *. simpl. rewrite Ha. simpl.
    rewrite <-(assoc_L (++)) in Hl', Hv'. simpl in Hl', Hv'.
    split; [done|]. by rewrite Hv', Hv1, <-(assoc_L (++)).
Qed.

(** X4.  The list is a FIFO queue: after appending the values [vs] one after
    the other to a well-formed list, the queued values are the old ones
    followed by [vs] in the order appended, [peek] returns the first of
    them, and [size] has grown by the number of values. *)
Theorem appends_queue_in_order (h : NodeHeap) (l : DoublyLinkedList.t)
    (ns : list nref) (vs : list oref) :
  is_list h l ns →
  values (append_all h l vs).1 (to_list (append_all h l vs).1 (append_all h l vs).2)
    = values h ns ++ vs ∧
  DoublyLinkedList.peek (append_all h l vs).1 (append_all h l vs).2
    = head (values h ns ++ vs) ∧
  DoublyLinkedList.size (append_all h l vs).2
    = DoublyLinkedList.size l + Z.of_nat (length vs).
Proof.
  intros Hl. destruct (append_all_spec vs _ _ _ Hl) as (ns' & Hl' & Hv).
  destruct (is_list_queries _ _ _ Hl') as (Hp & Hsz & _).
  destruct (is_list_queries _ _ _ Hl) as (_ & Hsz0 & _).
  rewrite (is_list_to_list _ _ _ Hl'). split_and!; [done|by rewrite Hp, Hv|].
  rewrite Hsz, Hsz0.
  apply (f_equal length) in Hv. unfold values in Hv.
  rewrite !length_app, !length_fmap in *. rewrite length_app in Hv. lia.
Qed.

Lemma appends_queue_in_order_witness :
  is_list ∅ DoublyLinkedList.new [] ∧
  DoublyLinkedList.peek (append_all ∅ DoublyLinkedList.new [5; 3; 9]%positive).1
    (append_all ∅ DoublyLinkedList.new [5; 3; 9]%positive).2 = Some 5%positive.
Proof.
  split; [apply is_list_new|].
  exact (proj1 (proj2
    (appends_queue_in_order ∅ DoublyLinkedList.new [] [5; 3; 9]%positive (is_list_new ∅)))).
Defined.

(** ** The order book ([core/orderBook.ts]) *)

Lemma queue_not_id σ b s p i :
  wf σ b → OrderBook.index b !! i = None →
  Forall (λ o, Order.id (orders σ !!! o) ≠ i) (queue σ b s p).
Proof.
  intros Hwf Hi. apply Forall_forall. intros o Ho.
  destruct (queue_indexed _ _ _ _ _ Hwf Ho) as (ord & n & Hord & _ & _ & _ & _ & Hidx).
  rewrite (lookup_total_correct _ _ _ Hord). intros <-. congruence.
Qed.

Lemma add_then_cancel σ b o ord :
  wf σ b → orders σ !! o = Some ord → OrderBook.index b !! Order.id ord = None →
  let a := OrderBook.add σ b o in
  let c := OrderBook.cancel a.1 a.2 (Order.id ord) in
  c.2 = b ∧ orders c.1 = orders σ ∧
  (∀ m, m ≠ fresh (dom (nodes σ)) → nodes c.1 !! m = nodes σ !! m) ∧
  wf c.1 c.2 ∧
  ∀ s p, queue c.1 c.2 s p = queue σ b s p.
Proof.
  intros Hwf Ho Hi. cbv zeta.
  assert ((OrderBook.cancel (OrderBook.add σ b o).1 (OrderBook.add σ b o).2 (Order.id ord)).2 = b ∧
          ∀ m, m ≠ fresh (dom (nodes σ)) →
            nodes (OrderBook.cancel (OrderBook.add σ b o).1 (OrderBook.add σ b o).2
                     (Order.id ord)).1 !! m = nodes σ !! m) as [Hb Hn].
  { unfold OrderBook.add. rewrite (lookup_total_correct _ _ _ Ho).
    set (bk := OrderBook.side_book (Order.side ord) b).
    set (lv := match bk !! Order.price ord with
               | Some level => level | None => DoublyLinkedList.new end).
    assert (∃ ns, is_list (nodes σ) lv ns ∧
                  (DoublyLinkedList.isEmpty lv = true ↔ bk !! Order.price ord = None))
      as (ns & Hlv & Hemp).
    { unfold lv. destruct (bk !! Order.price ord) as [l|] eqn:El.
      - exists (to_list (nodes σ) l). split; [by eapply wf_level|].
        pose proof (wf_level _ _ Hwf _ _ _ El) as Hl.
        pose proof (wf_nonempty _ _ Hwf _ _ _ El) as Hne.
        destruct (is_list_queries _ _ _ Hl) as (_ & _ & He). split; [|done].
        intros E. by apply He in E.
      - exists []. split; [apply is_list_new|done]. }
    destruct (append_then_remove _ _ _ o Hlv) as (Hr2 & Hr1 & _). cbv zeta in Hr1, Hr2.
    destruct (DoublyLinkedList.append (nodes σ) lv o) as [[h1 l1] n] eqn:Ha.
    destruct (append_spec _ _ _ _ _ _ _ Hlv Ha) as (-> & _).
    simpl in Hr1, Hr2. simpl. unfold OrderBook.cancel. simpl.
    rewrite lookup_insert_eq. simpl. rewrite (lookup_total_correct _ _ _ Ho).
    rewrite index_set_side_book, side_book_set_index, side_book_set.
    rewrite decide_True by done. rewrite lookup_insert_eq.
    destruct (DoublyLinkedList.remove h1 l1 (fresh (dom (nodes σ)))) as [h2 l2] eqn:Hr.
    simpl in Hr1, Hr2. subst l2. simpl. split; [|done].
    assert ((if DoublyLinkedList.isEmpty lv
             then delete (Order.price ord) (<[Order.price ord:=l1]> bk)
             else <[Order.price ord:=lv]> (<[Order.price ord:=l1]> bk)) = bk) as ->.
    { destruct (DoublyLinkedList.isEmpty lv) eqn:E.
      - destruct Hemp as [Hemp _]. specialize (Hemp eq_refl).
        by rewrite delete_insert_eq, delete_id.
      - rewrite insert_insert_eq. apply insert_id. unfold lv.
        destruct (bk !! Order.price ord) eqn:E'; [done|].
        destruct Hemp as [_ Hemp]. discriminate (Hemp eq_refl). }
    rewrite delete_insert_eq, delete_id by done.
    destruct b. unfold bk. by destruct (Order.side ord). }
  destruct (OrderBook.add σ b o) as [σ1 b1] eqn:Ha.
  destruct (add_spec _ _ _ _ _ _ Hwf Ho Hi Ha) as (Hwf1 & Ho1 & Hi1 & _).
  pose proof (queue_add _ _ _ _ _ _ Hwf Ho Hi Ha) as Hq1.
  simpl in *.
  destruct (OrderBook.cancel σ1 b1 (Order.id ord)) as [σ2 b2] eqn:Hc.
  assert (OrderBook.index b1 !! Order.id ord =
          Some {| OrderBook.order := o; OrderBook.node := fresh (dom (nodes σ)) |}) as Hi1'.
  { by rewrite Hi1, lookup_insert_eq. }
  destruct (cancel_spec _ _ _ _ _ _ Hwf1 Hi1' Hc) as (? & ? & ? & _ & _ & _ & Hwf2 & Ho2 & _).
  pose proof (queue_cancel _ _ _ _ _ Hwf1 Hc) as Hq2.
  simpl in *. split_and!; try done; [congruence|].
  intros s p. rewrite Hq2, Hq1, Ho1.
  pose proof (queue_not_id σ b s p _ Hwf Hi) as Hall.
  case_decide.
  - rewrite filter_app, filter_all by done. rewrite filter_cons_False, filter_nil.
    + by rewrite app_nil_r.
    + rewrite (lookup_total_correct _ _ _ Ho). by intros [].
  - by rewrite filter_all.
Qed.

(** X5.  Adding an order and cancelling it at once leaves the book as it
    was: the book object (levels and index) is the same, no order object
    changes, every node that existed is untouched, and all queues are the
    old ones.  The order's id must not be in the index already. *)
Theorem add_cancel_round_trip (σ : Store) (b : OrderBook.t) (o : oref) (ord : Order.t) :
  wf σ b → orders σ !! o = Some ord → OrderBook.index b !! Order.id ord = None →
  let a := OrderBook.add σ b o in
  let c := OrderBook.cancel a.1 a.2 (Order.id ord) in
  c.2 = b ∧ orders c.1 = orders σ ∧
  (∀ m, m ≠ fresh (dom (nodes σ)) → nodes c.1 !! m = nodes σ !! m) ∧
  wf c.1 c.2 ∧
  ∀ s p, queue c.1 c.2 s p = queue σ b s p.
Proof. apply add_then_cancel. Qed.

(** A store holding one order object, for the examples. *)
Definition one_order (ord : Order.t) : Store :=
  {| orders := {[1%positive := ord]}; nodes := ∅ |}.

Lemma add_cancel_round_trip_witness :
  (OrderBook.cancel
     (OrderBook.add (one_order (Order.mk "B1" BUY 100 10 1 None)) OrderBook.new 1%positive).1
     (OrderBook.add (one_order (Order.mk "B1" BUY 100 10 1 None)) OrderBook.new 1%positive).2
     "B1").2 = OrderBook.new.
Proof.
  exact (proj1 (add_cancel_round_trip (one_order (Order.mk "B1" BUY 100 10 1 None))
    OrderBook.new 1%positive (Order.mk "B1" BUY 100 10 1 None)
    (wf_empty _) eq_refl eq_refl)).
Defined.

Lemma filter_ext_in {A} (P Q : A → Prop) `{∀ x, Decision (P x)} `{∀ x, Decision (Q x)}
    (l : list A) :
  Forall (λ x, P x ↔ Q x) l → filter P l = filter Q l.
Proof.
  induction 1 as [|x l Hx _ IH]; [done|].
  destruct (decide (P x)) as [HP|HP].
  - rewrite !filter_cons_True by tauto. by f_equal.
  - by rewrite !filter_cons_False by tauto.
Qed.

(** X6.  [cancel] of an indexed id removes exactly that order: the index
    loses the id and nothing else, no order object changes, each queue is
    the old queue without the cancelled order (the others keep their
    places), the cancelled order is in no queue any more, and the book is
    well formed again. *)
Theorem cancel_removes_exactly (σ : Store) (b : OrderBook.t) (i : string)
    (r : OrderBook.OrderRef) :
  wf σ b → OrderBook.index b !! i = Some r →
  let c := OrderBook.cancel σ b i in
  wf c.1 c.2 ∧ orders c.1 = orders σ ∧
  OrderBook.index c.2 = delete i (OrderBook.index b) ∧
  (∀ s p, queue c.1 c.2 s p = filter (λ o, o ≠ OrderBook.order r) (queue σ b s p)) ∧
  (∀ s p, OrderBook.order r ∉ queue c.1 c.2 s p).
Proof.
  intros Hwf Hi. cbv zeta.
  destruct (OrderBook.cancel σ b i) as [σ' b'] eqn:Hc.
  destruct (cancel_spec _ _ _ _ _ _ Hwf Hi Hc)
    as (ord & ? & ? & Hord & Hid & _ & Hwf' & Ho' & Hi' & _).
  pose proof (queue_cancel _ _ _ _ _ Hwf Hc) as Hq. simpl.
  assert (∀ s p, queue σ' b' s p = filter (λ o, o ≠ OrderBook.order r) (queue σ b s p)) as Hq'.
  { intros s p. rewrite Hq. apply filter_ext_in, Forall_forall. intros o Ho.
    destruct (queue_indexed _ _ _ _ _ Hwf Ho) as (ord' & n & Hord' & _ & _ & _ & _ & Hidx).
    rewrite (lookup_total_correct _ _ _ Hord'). split.
    - intros Hne ->. congruence.
    - intros Hne <-. apply Hne. rewrite Hi in Hidx. by injection Hidx as ->. }
  split_and!; try done.
  intros s p. rewrite Hq'. intros [Hx _]%list_elem_of_filter. by apply Hx.
Qed.

Lemma cancel_removes_exactly_witness :
  OrderBook.index
    (OrderBook.cancel
       (OrderBook.add (one_order (Order.mk "B1" BUY 100 10 1 None)) OrderBook.new 1%positive).1
       (OrderBook.add (one_order (Order.mk "B1" BUY 100 10 1 None)) OrderBook.new 1%positive).2
       "B1").2 = ∅.
Proof.
  pose proof (add_spec (one_order (Order.mk "B1" BUY 100 10 1 None)) OrderBook.new 1%positive
    (Order.mk "B1" BUY 100 10 1 None) _ _ (wf_empty _) eq_refl eq_refl eq_refl) as (Hwf & _).
  exact (proj1 (proj2 (proj2
    (cancel_removes_exactly _ _ "B1" (OrderBook.mkRef 1 1) Hwf eq_refl)))).
Defined.

(** X7.  [add] of an order whose id is not indexed queues it at the back of
    the level of its side and price: that queue is the old one followed by
    the order, every other queue is unchanged, the index gains exactly the
    order's id (bound to the order and its new node), and no order object
    changes. *)
Theorem add_queues_at_back (σ : Store) (b : OrderBook.t) (o : oref) (ord : Order.t) :
  wf σ b → orders σ !! o = Some ord → OrderBook.index b !! Order.id ord = None →
  let a := OrderBook.add σ b o in
  orders a.1 = orders σ ∧
  OrderBook.index a.2 =
    <[Order.id ord := {| OrderBook.order := o; OrderBook.node := fresh (dom (nodes σ)) |}]>
      (OrderBook.index b) ∧
  queue a.1 a.2 (Order.side ord) (Order.price ord) =
    queue σ b (Order.side ord) (Order.price ord) ++ [o] ∧
  (∀ s p, (s, p) ≠ (Order.side ord, Order.price ord) → queue a.1 a.2 s p = queue σ b s p).
Proof.
  intros Hwf Ho Hi. cbv zeta. destruct (OrderBook.add σ b o) as [σ' b'] eqn:Ha.
  destruct (add_spec _ _ _ _ _ _ Hwf Ho Hi Ha) as (_ & Ho' & Hi' & _).
  pose proof (queue_add _ _ _ _ _ _ Hwf Ho Hi Ha) as Hq. simpl.
  split_and!; try done.
  - rewrite Hq. by rewrite decide_True.
  - intros s p Hne. rewrite Hq. rewrite decide_False; [done|]. intros [-> ->]. done.
Qed.

Lemma add_queues_at_back_witness :
  queue
    (OrderBook.add (one_order (Order.mk "B1" BUY 100 10 1 None)) OrderBook.new 1%positive).1
    (OrderBook.add (one_order (Order.mk "B1" BUY 100 10 1 None)) OrderBook.new 1%positive).2
    BUY 100 = [1%positive].
Proof.
  exact (proj1 (proj2 (proj2
    (add_queues_at_back (one_order (Order.mk "B1" BUY 100 10 1 None)) OrderBook.new 1%positive
       (Order.mk "B1" BUY 100 10 1 None) (wf_empty _) eq_refl eq_refl)))).
Defined.

Lemma queue_level σ b s p o :
  o ∈ queue σ b s p → is_Some (OrderBook.side_book s b !! p).
Proof.
  unfold queue, level_nodes. destruct (OrderBook.side_book s b !! p); [eauto|].
  rewrite fmap_nil. by intros ?%elem_of_nil.
Qed.

Lemma queue_no_level σ b s p :
  OrderBook.side_book s b !! p = None → queue σ b s p = [].
Proof. unfold queue, level_nodes. by intros ->. Qed.

(** X8.  [bestBuy] returns the order at the front of the highest BUY level:
    it returns an order exactly when some BUY order rests in the book; the
    order returned is a BUY order, first in the queue of its own price, and
    no resting BUY order has a higher price. *)
Theorem bestBuy_highest_front (σ : Store) (b : OrderBook.t) :
  wf σ b →
  (OrderBook.bestBuy σ b = None ↔ ∀ p, queue σ b BUY p = []) ∧
  ∀ o, OrderBook.bestBuy σ b = Some o →
    ∃ ord, orders σ !! o = Some ord ∧ Order.side ord = BUY ∧
           head (queue σ b BUY (Order.price ord)) = Some o ∧
           ∀ p o', o' ∈ queue σ b BUY p → p ≤ Order.price ord.
Proof.
  intros Hwf. pose proof (bestBuy_spec _ _ Hwf) as Hb.
  destruct (OrderBook.bestBuy σ b) as [o|].
  - destruct Hb as (ord & n & rest & Hord & Hs & Hlv & Hv & _ & Hmax).
    assert (head (queue σ b BUY (Order.price ord)) = Some o) as Hhd.
    { unfold queue. rewrite Hlv. simpl. by rewrite Hv. }
    split.
    + split; [done|]. intros Hq. by rewrite Hq in Hhd.
    + intros ? [= <-]. exists ord. split_and!; try done.
      intros p o' Ho'. by eapply Hmax, (queue_level σ b BUY).
  - split; [|done]. split; [|done]. intros _ p.
    apply (queue_no_level σ b BUY). simpl. rewrite Hb. apply lookup_empty.
Qed.

(** X9.  [bestSell] returns the order at the front of the lowest SELL level:
    it returns an order exactly when some SELL order rests in the book; the
    order returned is a SELL order, first in the queue of its own price, and
    no resting SELL order has a lower price. *)
Theorem bestSell_lowest_front (σ : Store) (b : OrderBook.t) :
  wf σ b →
  (OrderBook.bestSell σ b = None ↔ ∀ p, queue σ b SELL p = []) ∧
  ∀ o, OrderBook.bestSell σ b = Some o →
    ∃ ord, orders σ !! o = Some ord ∧ Order.side ord = SELL ∧
           head (queue σ b SELL (Order.price ord)) = Some o ∧
           ∀ p o', o' ∈ queue σ b SELL p → Order.price ord ≤ p.
Proof.
  intros Hwf. pose proof (bestSell_spec _ _ Hwf) as Hb.
  destruct (OrderBook.bestSell σ b) as [o|].
  - destruct Hb as (ord & n & rest & Hord & Hs & Hlv & Hv & _ & Hmin).
    assert (head (queue σ b SELL (Order.price ord)) = Some o) as Hhd.
    { unfold queue. rewrite Hlv. simpl. by rewrite Hv. }
    split.
    + split; [done|]. intros Hq. by rewrite Hq in Hhd.
    + intros ? [= <-]. exists ord. split_and!; try done.
      intros p o' Ho'. by eapply Hmin, (queue_level σ b SELL).
  - split; [|done]. split; [|done]. intros _ p.
    apply (queue_no_level σ b SELL). simpl. rewrite Hb. apply lookup_empty.
Qed.

(** A book holding one resting order of the given side. *)
Definition single (sd : Side) : Store * OrderBook.t :=
  OrderBook.add (one_order (Order.mk "A1" sd 100 10 1 None)) OrderBook.new 1%positive.

Lemma single_wf sd : wf (single sd).1 (single sd).2.
Proof.
  by destruct (add_spec (one_order (Order.mk "A1" sd 100 10 1 None)) OrderBook.new 1%positive
    (Order.mk "A1" sd 100 10 1 None) _ _ (wf_empty _) eq_refl eq_refl
    (surjective_pairing _)).
Qed.

Lemma bestBuy_highest_front_witness :
  ∃ ord, orders (single BUY).1 !! 1%positive = Some ord ∧ Order.side ord = BUY ∧
         head (queue (single BUY).1 (single BUY).2 BUY (Order.price ord)) = Some 1%positive ∧
         ∀ p o', o' ∈ queue (single BUY).1 (single BUY).2 BUY p → p ≤ Order.price ord.
Proof.
  exact (proj2 (bestBuy_highest_front _ _ (single_wf BUY)) 1%positive eq_refl).
Defined.

Lemma bestSell_lowest_front_witness :
  ∃ ord, orders (single SELL).1 !! 1%positive = Some ord ∧ Order.side ord = SELL ∧
         head (queue (single SELL).1 (single SELL).2 SELL (Order.price ord)) = Some 1%positive ∧
         ∀ p o', o' ∈ queue (single SELL).1 (single SELL).2 SELL p → Order.price ord ≤ p.
Proof.
  exact (proj2 (bestSell_lowest_front _ _ (single_wf SELL)) 1%positive eq_refl).
Defined.

(** * Further properties of the engine ([core/matchingEngine.ts]) *)

(** The book is uncrossed: every resting BUY order is priced strictly below
    every resting SELL order. *)
Definition uncrossed (σ : Store) (b : OrderBook.t) : Prop :=
  ∀ pb ps ob os, ob ∈ queue σ b BUY pb → os ∈ queue σ b SELL ps → pb < ps.

Section uncrossed.
Import MatchingEngine.
Implicit Types (st : MatchingEngine.t) (m : ProcessMode).

Lemma bestBuy_queued σ b o :
  wf σ b → OrderBook.bestBuy σ b = Some o →
  o ∈ queue σ b BUY (Order.price (orders σ !!! o)) ∧
  ∀ p o', o' ∈ queue σ b BUY p → p ≤ Order.price (orders σ !!! o).
Proof.
  intros Hwf Hb. pose proof (bestBuy_spec _ _ Hwf) as H. rewrite Hb in H.
  destruct H as (ord & n & rest & Hord & _ & Hlv & Hv & _ & Hmax).
  rewrite (lookup_total_correct _ _ _ Hord). split.
  - unfold queue. rewrite Hlv, fmap_cons, Hv. by left.
  - intros p o' Ho'. by eapply Hmax, (queue_level σ b BUY).
Qed.

Lemma bestSell_queued σ b o :
  wf σ b → OrderBook.bestSell σ b = Some o →
  o ∈ queue σ b SELL (Order.price (orders σ !!! o)) ∧
  ∀ p o', o' ∈ queue σ b SELL p → Order.price (orders σ !!! o) ≤ p.
Proof.
  intros Hwf Hb. pose proof (bestSell_spec _ _ Hwf) as H. rewrite Hb in H.
  destruct H as (ord & n & rest & Hord & _ & Hlv & Hv & _ & Hmin).
  rewrite (lookup_total_correct _ _ _ Hord). split.
  - unfold queue. rewrite Hlv, fmap_cons, Hv. by left.
  - intros p o' Ho'. by eapply Hmin, (queue_level σ b SELL).
Qed.

Lemma no_cross_uncrossed st :
  engine_wf st → no_cross st ↔ uncrossed (store st) (book st).
Proof.
  intros Hwf. split.
  - intros [E|[E|(buy & sell & Hb & Hs & Hlt)]] pb ps ob os Hob Hos.
    + apply queue_level in Hob as [? Hl]. simpl in Hl. by rewrite E in Hl.
    + apply queue_level in Hos as [? Hl]. simpl in Hl. by rewrite E in Hl.
    + destruct (bestBuy_queued _ _ _ Hwf Hb) as [_ Hmax].
      destruct (bestSell_queued _ _ _ Hwf Hs) as [_ Hmin].
      specialize (Hmax _ _ Hob). specialize (Hmin _ _ Hos). unfold get in Hlt. lia.
  - intros Hun. unfold no_cross.
    pose proof (bestBuy_spec _ _ Hwf) as Hb. pose proof (bestSell_spec _ _ Hwf) as Hs.
    destruct (OrderBook.bestBuy (store st) (book st)) as [buy|] eqn:Eb; [|by left].
    destruct (OrderBook.bestSell (store st) (book st)) as [sell|] eqn:Es; [|by right; left].
    right. right. exists buy, sell. split_and!; try done.
    destruct (bestBuy_queued _ _ _ Hwf Eb) as [Hqb _].
    destruct (bestSell_queued _ _ _ Hwf Es) as [Hqs _].
    exact (Hun _ _ _ _ Hqb Hqs).
Qed.

Lemma match_exit k m st st' : match_ k m st = Some st' → match_body m st' = None.
Proof.
  revert st. induction k as [|k IH]; intros st; simpl; [done|].
  destruct (match_body m st) as [st1|] eqn:Hm; [apply IH|]. by intros [= <-].
Qed.

Lemma uncrossed_cancel m i st :
  engine_wf st → uncrossed (store st) (book st) →
  uncrossed (store (book_cancel i (emit m (CANCEL_ORDER i) st)))
            (book (book_cancel i (emit m (CANCEL_ORDER i) st))).
Proof.
  intros Hwf Hun. unfold book_cancel. rewrite store_emit, book_emit.
  destruct (OrderBook.cancel (store st) (book st) i) as [σ' b'] eqn:Hc. simpl.
  pose proof (queue_cancel _ _ _ _ _ Hwf Hc) as Hq.
  intros pb ps ob os. rewrite !Hq. intros [_ Hob]%list_elem_of_filter [_ Hos]%list_elem_of_filter.
  by eapply Hun.
Qed.

Lemma uncrossed_submit k options seen e st st' :
  run_inv seen st →
  uncrossed (store st) (book st) →
  valid_input e →
  (∀ i, new_id e = Some i → i ∉ seen) →
  submit k options e st = Some st' →
  uncrossed (store st') (book st').
Proof.
  intros Hinv Hun Hv Hfresh Hsub.
  pose proof (submit_run_inv _ _ _ _ _ _ Hinv Hv Hfresh Hsub) as (Hwf' & _).
  destruct e as [ord|i|]; [| |done].
  - rewrite submit_new in Hsub. apply match_exit in Hsub.
    by apply no_cross_uncrossed, (match_body_None_iff (mode_of options)).
  - unfold submit in Hsub. simpl in Hsub. injection Hsub as <-.
    apply uncrossed_cancel; [|done]. by destruct Hinv.
Qed.

Lemma uncrossed_run k options seen es st st' :
  run_inv seen st →
  uncrossed (store st) (book st) →
  Forall valid_input es →
  NoDup (seen ++ omap new_id es) →
  run k options es st = Some st' →
  uncrossed (store st') (book st').
Proof.
  revert seen st. induction es as [|e es IH]; intros seen st Hinv Hun Hv Hnd; simpl.
  - by intros [= <-].
  - apply Forall_cons in Hv as [Hve Hv].
    assert (omap new_id (e :: es) = option_list (new_id e) ++ omap new_id es) as Hom.
    { simpl. by destruct (new_id e). }
    rewrite Hom, app_assoc in Hnd.
    assert (∀ i, new_id e = Some i → i ∉ seen) as Hfresh.
    { intros i Hi Hin. rewrite Hi in Hnd. simpl in Hnd.
      apply NoDup_app in Hnd as (Hnd & _ & _).
      apply NoDup_app in Hnd as (_ & Hd & _). eapply Hd; [done|]. by left. }
    destruct (submit k options e st) as [st1|] eqn:Hsub; [|done].
    apply (IH (seen ++ option_list (new_id e)));
      [by eapply submit_run_inv|by eapply uncrossed_submit|done..].
Qed.
End uncrossed.

(** X10.  The book is never left crossed.  After any valid sequence of
    commands processed by an engine whose book was uncrossed (in particular
    a fresh engine), in either mode, every resting BUY order is priced
    strictly below every resting SELL order; and on a well-formed book this
    is exactly the condition on which the matching loop returns. *)
Theorem book_never_crossed (k : nat) (options : option Options) (seen : list string)
    (es : list (Event Order.t)) (st st' : MatchingEngine.t) :
  run_inv seen st →
  uncrossed (MatchingEngine.store st) (MatchingEngine.book st) →
  Forall valid_input es →
  NoDup (seen ++ omap new_id es) →
  run k options es st = Some st' →
  uncrossed (MatchingEngine.store st') (MatchingEngine.book st') ∧
  ∀ m, MatchingEngine.match_body m st' = None.
Proof.
  intros Hinv Hun Hv Hnd Hrun.
  pose proof (uncrossed_run _ _ _ _ _ _ Hinv Hun Hv Hnd Hrun) as Hun'.
  split; [done|]. intros m.
  assert (engine_wf st') as Hwf'.
  { destruct (run_terminates options _ _ _ Hinv Hv Hnd) as (k0 & st0 & Hk0 & Hwf0 & _).
    pose proof (Hk0 (k0 `max` k)%nat ltac:(lia)) as H1.
    pose proof (run_fuel_mono k (k0 `max` k)%nat _ _ _ _ ltac:(lia) Hrun) as H2.
    assert (st0 = st') as <- by congruence. done. }
  by apply match_body_None_iff, no_cross_uncrossed.
Qed.

Lemma uncrossed_new w q :
  uncrossed (MatchingEngine.store (MatchingEngine.new w q))
            (MatchingEngine.book (MatchingEngine.new w q)).
Proof. intros pb ps ob os Hob. apply queue_level in Hob as [? Hl]. done. Qed.

(** A trading session: a bid, an ask above it, an ask that crosses and is
    filled against the bid, a cancellation, and a second bid. *)
Definition session : list (Event Order.t) :=
  [NEW_ORDER (Order.mk "B1" BUY 100 10 1 None);
   NEW_ORDER (Order.mk "S1" SELL 101 5 2 (Some "DEMO"));
   NEW_ORDER (Order.mk "S2" SELL 100 4 3 None);
   CANCEL_ORDER "S1";
   NEW_ORDER (Order.mk "B2" BUY 99 3 4 None)].

Definition session_end : MatchingEngine.t :=
  Eval vm_compute in
    default (MatchingEngine.new [] []) (run 3 live_options session (MatchingEngine.new [] [])).

Lemma session_run : run 3 live_options session (MatchingEngine.new [] []) = Some session_end.
Proof. vm_compute. reflexivity. Qed.

Lemma session_valid : valid_inputs session.
Proof.
  split.
  - repeat constructor; simpl; lia.
  - simpl. repeat constructor; set_solver.
Qed.

Lemma book_never_crossed_witness :
  uncrossed (MatchingEngine.store session_end) (MatchingEngine.book session_end) ∧
  ∀ m, MatchingEngine.match_body m session_end = None.
Proof.
  exact (book_never_crossed 3 live_options [] session _ _
    (run_inv_new [] []) (uncrossed_new [] []) (proj1 session_valid) (proj2 session_valid)
    session_run).
Defined.

Section silent.
Import MatchingEngine.
Implicit Types (st : MatchingEngine.t).

Lemma io_settle o st : io (settle o st) = io st.
Proof. unfold settle. destruct (_ =? 0); [apply io_cancel|done]. Qed.

Lemma io_match_body_replay st st' : match_body replay st = Some st' → io st' = io st.
Proof.
  intros (buy & sell & _ & _ & _ & ->)%match_body_unfold.
  rewrite !io_settle. unfold emit. by rewrite !io_qty_sub.
Qed.

Lemma io_match_replay k st st' : match_ k replay st = Some st' → io st' = io st.
Proof.
  revert st. induction k as [|k IH]; intros st; simpl; [done|].
  destruct (match_body replay st) as [st1|] eqn:Hm.
  - intros ->%IH. by apply io_match_body_replay.
  - by intros [= <-].
Qed.

Lemma io_process_replay k ev st st' :
  process k ev replay_options st = Some st' → io st' = io st.
Proof.
  destruct ev as [o|i|]; simpl.
  - intros ->%io_match_replay. apply io_add.
  - intros [= <-]. apply io_cancel.
  - by intros [= <-].
Qed.

Lemma io_run_replay k es st st' :
  run k replay_options es st = Some st' → io st' = io st.
Proof.
  revert st. induction es as [|e es IH]; intros st; simpl; [by intros [= <-]|].
  destruct (submit k replay_options e st) as [st1|] eqn:Hsub; [|done].
  intros ->%IH. unfold submit in Hsub.
  destruct (load e st) as [ev st0] eqn:Hl. apply io_process_replay in Hsub as ->.
  destruct e; simpl in Hl; by injection Hl as <- <-.
Qed.
End silent.

(** X11.  Replay mode is silent, from any engine state and for any events
    (valid or not): a [process] call in replay mode, and so any sequence of
    them, leaves the log and the channel exactly as they were, and performs
    no append and no publish at all. *)
Theorem replay_mode_is_silent :
  (∀ k ev st st',
     MatchingEngine.process k ev replay_options st = Some st' → io st' = io st) ∧
  (∀ k es st st',
     run k replay_options es st = Some st' →
     MatchingEngine.wal st' = MatchingEngine.wal st ∧
     MatchingEngine.eventBus st' = MatchingEngine.eventBus st ∧
     ∃ t, MatchingEngine.trace st' = MatchingEngine.trace st ++ t ∧
          Forall (λ e, is_io e = false) t).
Proof.
  split; [apply io_process_replay|].
  intros k es st st' Hrun. pose proof (io_run_replay _ _ _ _ Hrun) as Hio.
  injection Hio as Hw Hq Ht. split_and!; try done.
  assert (∃ t, MatchingEngine.trace st' = MatchingEngine.trace st ++ t) as [t Ht'].
  { clear Hw Hq Ht. revert st Hrun. induction es as [|e es IH]; intros st; simpl.
    - intros [= <-]. exists []. by rewrite app_nil_r.
    - destruct (submit k replay_options e st) as [st1|] eqn:Hsub; [|done].
      intros [t ->]%IH. unfold submit in Hsub.
      destruct (load e st) as [ev st0] eqn:Hl.
      assert (MatchingEngine.trace st0 = MatchingEngine.trace st) as <-.
      { destruct e; simpl in Hl; by injection Hl as <- <-. }
      destruct ev as [o|i|]; simpl in Hsub.
      + apply match_trace in Hsub as (t1 & -> & _).
        unfold MatchingEngine.book_add. simpl.
        destruct (OrderBook.add _ _ _). simpl.
        eexists. by rewrite <-!app_assoc.
      + injection Hsub as <-. unfold MatchingEngine.book_cancel. simpl.
        destruct (OrderBook.cancel _ _ _). simpl.
        eexists. by rewrite <-!app_assoc.
      + injection Hsub as <-. eexists. done. }
  exists t. split; [done|]. apply filter_io_nil.
  rewrite Ht', filter_app in Ht.
  apply (f_equal length) in Ht. rewrite length_app in Ht.
  apply length_zero_iff_nil. lia.
Qed.

Definition session_replayed : MatchingEngine.t :=
  Eval vm_compute in
    default (MatchingEngine.new [] [])
      (run 3 replay_options session (MatchingEngine.new [] [])).

Lemma session_replay_run :
  run 3 replay_options session (MatchingEngine.new [] []) = Some session_replayed.
Proof. vm_compute. reflexivity. Qed.

Lemma replay_mode_is_silent_witness :
  MatchingEngine.wal session_replayed = [] ∧
  MatchingEngine.eventBus session_replayed = [] ∧
  ∃ t, MatchingEngine.trace session_replayed = [] ++ t ∧ Forall (λ e, is_io e = false) t.
Proof.
  exact (proj2 replay_mode_is_silent 3%nat session (MatchingEngine.new [] []) session_replayed
    session_replay_run).
Defined.

Section accept.
Import MatchingEngine.
Implicit Types (st : MatchingEngine.t) (m : ProcessMode).

(** What [process] has done to the engine when the matching loop of a new
    order starts. *)
Lemma accept_spec m seen ord st (r := fresh (dom (orders (store st)))) :
  run_inv seen st →
  Order.id ord ∉ seen →
  orders (store st) !! r = None ∧
  engine_wf (accept m ord st) ∧
  orders (store (accept m ord st)) = <[r := ord]> (orders (store st)) ∧
  OrderBook.index (book (accept m ord st)) =
    <[Order.id ord := {| OrderBook.order := r;
                         OrderBook.node := fresh (dom (nodes (store st))) |}]>
      (OrderBook.index (book st)) ∧
  OrderBook.index (book st) !! Order.id ord = None ∧
  (∀ s p, queue (store (accept m ord st)) (book (accept m ord st)) s p =
          if decide (s = Order.side ord ∧ p = Order.price ord)
          then queue (store st) (book st) s p ++ [r]
          else queue (store st) (book st) s p) ∧
  wal (accept m ord st) = wal st ++ emitted m (NEW_ORDER ord) ∧
  eventBus (accept m ord st) = eventBus st ++ emitted m (NEW_ORDER r).
Proof.
  intros (Hwf & Hpos & Hseen) Hfresh. unfold accept. simpl. fold r.
  assert (orders (store st) !! r = None) as Hr by apply not_elem_of_dom, is_fresh.
  set (st0 := {| store := {| orders := <[r:=ord]> (orders (store st));
                             nodes := nodes (store st) |};
                 book := book st; wal := wal st; eventBus := eventBus st;
                 trace := trace st |}).
  set (st1 := emit m (NEW_ORDER r) st0).
  assert (store st1 = store st0) as Hs1 by apply store_emit.
  assert (book st1 = book st0) as Hb1 by apply book_emit.
  assert (engine_wf st0) as Hwf0.
  { eapply wf_orders_ext; [exact Hwf|done|]. intros o ord' Ho. exists ord'.
    simpl. rewrite lookup_insert_ne; [done|]. intros <-. congruence. }
  assert (engine_wf st1) as Hwf1 by (unfold engine_wf; by rewrite Hs1, Hb1).
  assert (orders (store st1) !! r = Some ord) as Hr1
    by (rewrite Hs1; simpl; by rewrite lookup_insert_eq).
  assert (OrderBook.index (book st) !! Order.id ord = None) as Hi.
  { destruct (OrderBook.index (book st) !! Order.id ord) as [x|] eqn:Hx; [|done].
    destruct (wf_indexed _ _ Hwf _ _ Hx) as (_ & o' & _ & _ & Ho' & Hid & _).
    exfalso. apply Hfresh. rewrite <-Hid. by eapply Hseen. }
  assert (OrderBook.index (book st1) !! Order.id ord = None) as Hi1 by by rewrite Hb1.
  destruct (book_add_spec _ _ _ Hwf1 Hr1 Hi1) as (Hwf2 & Ho2 & Hi2).
  split_and!; try done.
  - by rewrite Ho2, Hs1.
  - by rewrite Hi2, Hb1, Hs1.
  - intros s p.
    assert (queue (store st) (book st) s p = queue (store st1) (book st1) s p) as ->.
    { by rewrite Hs1, Hb1. }
    unfold book_add.
    destruct (OrderBook.add (store st1) (book st1) r) as [σ' b'] eqn:Ha. simpl.
    by apply (queue_add _ _ _ _ _ _ Hwf1 Hr1 Hi1 Ha).
  - rewrite wal_add. unfold st1. rewrite wal_emit. simpl.
    by rewrite lookup_total_insert_eq.
  - unfold book_add. destruct (OrderBook.add _ _ _). simpl. unfold st1.
    by rewrite eventBus_emit.
Qed.
End accept.

(** X12.  A new order that does not cross the book rests and nothing else
    happens.  If the engine's book is uncrossed and the order is a BUY
    priced below every resting SELL (or a SELL priced above every resting
    BUY), then [process] returns after one look at the book, the order is
    queued last in its level, no other queue and no other order object
    changes, and in live mode the log gains the NEW_ORDER record and no
    trade. *)
Theorem passive_order_rests (k : nat) (options : option Options) (seen : list string)
    (ord : Order.t) (st : MatchingEngine.t) :
  run_inv seen st →
  uncrossed (MatchingEngine.store st) (MatchingEngine.book st) →
  Order.id ord ∉ seen →
  (∀ p o, o ∈ queue (MatchingEngine.store st) (MatchingEngine.book st)
                (match Order.side ord with BUY => SELL | SELL => BUY end) p →
          match Order.side ord with BUY => Order.price ord < p | SELL => p < Order.price ord end) →
  ∃ st',
    submit (S k) options (NEW_ORDER ord) st = Some st' ∧
    MatchingEngine.wal st' =
      MatchingEngine.wal st ++ emitted (mode_of options) (NEW_ORDER ord) ∧
    orders (MatchingEngine.store st') =
      <[fresh (dom (orders (MatchingEngine.store st))) := ord]>
        (orders (MatchingEngine.store st)) ∧
    queue (MatchingEngine.store st') (MatchingEngine.book st')
      (Order.side ord) (Order.price ord) =
      queue (MatchingEngine.store st) (MatchingEngine.book st)
        (Order.side ord) (Order.price ord) ++
      [fresh (dom (orders (MatchingEngine.store st)))] ∧
    (∀ s p, (s, p) ≠ (Order.side ord, Order.price ord) →
       queue (MatchingEngine.store st') (MatchingEngine.book st') s p =
       queue (MatchingEngine.store st) (MatchingEngine.book st) s p) ∧
    uncrossed (MatchingEngine.store st') (MatchingEngine.book st').
Proof.
  intros Hinv Hun Hfresh Hpass.
  destruct (accept_spec (mode_of options) _ _ _ Hinv Hfresh)
    as (_ & Hwf & Ho & _ & _ & Hq & Hw & _).
  set (st' := accept (mode_of options) ord st) in *.
  assert (uncrossed (MatchingEngine.store st') (MatchingEngine.book st')) as Hun'.
  { intros pb ps ob os. rewrite !Hq.
    destruct (Order.side ord) eqn:Hs.
    - rewrite (decide_False (P := SELL = BUY ∧ _)) by by intros [? _].
      intros Hob Hos. case_decide as Hd.
      + destruct Hd as [_ ->]. by eapply Hpass.
      + by eapply Hun.
    - rewrite (decide_False (P := BUY = SELL ∧ _)) by by intros [? _].
      intros Hob Hos. case_decide as Hd.
      + destruct Hd as [_ ->]. by eapply Hpass.
      + by eapply Hun. }
  exists st'. split_and!; try done.
  - rewrite submit_new. fold st'. simpl.
    assert (MatchingEngine.match_body (mode_of options) st' = None) as ->; [|done].
    by apply match_body_None_iff, no_cross_uncrossed.
  - rewrite Hq. by rewrite decide_True.
  - intros s p Hne. rewrite Hq. rewrite decide_False; [done|]. by intros [-> ->].
Qed.

Lemma passive_order_rests_witness :
  ∃ st',
    submit 1 live_options (NEW_ORDER (Order.mk "B1" BUY 100 10 1 None))
      (MatchingEngine.new [] []) = Some st' ∧
    MatchingEngine.wal st' = [NEW_ORDER (Order.mk "B1" BUY 100 10 1 None)] ∧
    queue (MatchingEngine.store st') (MatchingEngine.book st') BUY 100 = [1%positive].
Proof.
  destruct (passive_order_rests 0 live_options [] (Order.mk "B1" BUY 100 10 1 None)
    (MatchingEngine.new [] []) (run_inv_new [] []) (uncrossed_new [] [])
    ltac:(apply not_elem_of_nil)
    ltac:(intros p o [? Hl]%queue_level; done))
    as (st' & H1 & H2 & _ & H3 & _).
  exists st'. split_and!; [exact H1|exact H2|exact H3].
Defined.

(** * Properties of the read models *)

Section js_map.
Context {V : Type}.
Implicit Types (m : JsMap.t V) (k : string) (v : V).

Lemma get_set k' k v m :
  JsMap.get k' (JsMap.set k v m) = if decide (k' = k) then Some v else JsMap.get k' m.
Proof.
  induction m as [|[k0 v0] m IH]; simpl.
  - destruct (decide (k = k')), (decide (k' = k)); congruence.
  - destruct (decide (k0 = k)) as [->|Hne]; simpl.
    + destruct (decide (k = k')), (decide (k' = k)); congruence.
    + rewrite IH. destruct (decide (k0 = k')), (decide (k' = k)); congruence.
Qed.

Lemma get_delete k' k m :
  JsMap.get k' (JsMap.delete k m) = if decide (k' = k) then None else JsMap.get k' m.
Proof.
  unfold JsMap.delete, JsMap.t in *. induction m as [|[k0 v0] m IH].
  - simpl. by destruct (decide (k' = k)).
  - destruct (decide (k0 = k)) as [->|Hne].
    + rewrite filter_cons_False by (simpl; tauto). rewrite IH. simpl.
      destruct (decide (k' = k)), (decide (k = k')); congruence.
    + rewrite filter_cons_True by done. simpl. rewrite IH.
      destruct (decide (k0 = k')), (decide (k' = k)); congruence.
Qed.

End js_map.

(** What an event does to the entry of one id: the entries of a view evolve
    independently of each other. *)
Definition fill (q : Z) (e : option Order.t) : option Order.t :=
  match e with
  | Some o =>
      if Order.qty o - q <=? 0 then None
      else Some (OpenOrdersView.set_qty (Order.qty o - q) o)
  | None => None
  end.

Definition entry_step (i : string) (event : Event Order.t) (e : option Order.t)
    : option Order.t :=
  match event with
  | NEW_ORDER ord => if decide (i = Order.id ord) then Some ord else e
  | CANCEL_ORDER j => if decide (i = j) then None else e
  | TRADE b s q _ =>
      let e := if decide (i = b) then fill q e else e in
      if decide (i = s) then fill q e else e
  end.

Section view.
Import OpenOrdersView.
Implicit Types (v : OpenOrdersView.t) (i j : string).

Lemma get_onFill i j q v :
  get i (onFill j q v) =
  if decide (i = j)
  then match get i v with
       | Some o => if q <=? 0 then None else Some (set_qty q o)
       | None => None
       end
  else get i v.
Proof.
  unfold onFill, get. destruct (decide (i = j)) as [->|Hne].
  - destruct (JsMap.get j v) as [o|] eqn:Ho; [|done].
    destruct (q <=? 0).
    + rewrite get_delete. by rewrite decide_True.
    + rewrite get_set. by rewrite decide_True.
  - destruct (JsMap.get j v) as [o|] eqn:Ho; [|done].
    destruct (q <=? 0).
    + rewrite get_delete. by rewrite decide_False.
    + rewrite get_set. by rewrite decide_False.
Qed.

Lemma get_applyFillQty i j q v :
  get i (applyFillQty j q v) = if decide (i = j) then fill q (get i v) else get i v.
Proof.
  unfold applyFillQty. destruct (JsMap.get j v) as [o|] eqn:Ho.
  - rewrite get_onFill. destruct (decide (i = j)) as [->|]; [|done].
    unfold get. by rewrite Ho.
  - destruct (decide (i = j)) as [->|]; [|done]. unfold get. by rewrite Ho.
Qed.

Lemma get_apply i event v : get i (apply event v) = entry_step i event (get i v).
Proof.
  destruct event as [ord|j|b s q p]; simpl.
  - apply get_set.
  - apply get_delete.
  - rewrite !get_applyFillQty. done.
Qed.

Lemma applyAll_app es1 es2 v : applyAll (es1 ++ es2) v = applyAll es2 (applyAll es1 v).
Proof. apply foldl_app. Qed.

Lemma get_applyAll i es v :
  get i (applyAll es v) = foldl (λ e event, entry_step i event e) (get i v) es.
Proof.
  revert v. induction es as [|e es IH]; intros v; [done|].
  simpl. by rewrite IH, get_apply.
Qed.
End view.

(** * The engine and its read models *)

(** The view shows exactly the resting orders, as they are in the store. *)
Definition view_agrees (st : MatchingEngine.t) (v : OpenOrdersView.t) : Prop :=
  ∀ i, OpenOrdersView.get i v =
       (λ r, MatchingEngine.get (OrderBook.order r) st) <$>
         OrderBook.index (MatchingEngine.book st) !! i.

Section projection.
Import MatchingEngine.
Implicit Types (st : MatchingEngine.t) (m : ProcessMode) (v : OpenOrdersView.t).

Lemma zero_cancel_lookup {A} (idx : gmap string A) i q j :
  zero_cancel i q (λ i, delete i) idx !! j =
  if decide (j = i) then (if q =? 0 then None else idx !! j) else idx !! j.
Proof.
  unfold zero_cancel. destruct (q =? 0), (decide (j = i)) as [->|]; try done.
  - apply lookup_delete_eq.
  - by apply lookup_delete_ne.
Qed.

Lemma view_agrees_accept m seen ord st v :
  run_inv seen st → Order.id ord ∉ seen →
  view_agrees st v →
  view_agrees (accept m ord st) (OpenOrdersView.apply (NEW_ORDER ord) v).
Proof.
  intros Hinv Hfresh Hv i.
  destruct (accept_spec m _ _ _ Hinv Hfresh) as (Hr & _ & Ho & Hi & _).
  rewrite get_apply. simpl. rewrite Hi. unfold get. rewrite Ho.
  destruct (decide (i = Order.id ord)) as [->|Hne].
  - rewrite lookup_insert_eq. simpl. by rewrite lookup_total_insert_eq.
  - rewrite lookup_insert_ne by done. rewrite Hv.
    destruct (OrderBook.index (book st) !! i) as [x|] eqn:Hx; [|done]. simpl. f_equal.
    destruct Hinv as (Hwf & _).
    destruct (wf_indexed _ _ Hwf _ _ Hx) as (_ & o' & _ & _ & Ho' & _).
    unfold get. rewrite lookup_total_insert_ne; [done|]. intros E. congruence.
Qed.

Lemma view_agrees_cancel m seen i st v :
  run_inv seen st →
  view_agrees st v →
  view_agrees (book_cancel i (emit m (CANCEL_ORDER i) st))
              (OpenOrdersView.apply (CANCEL_ORDER i) v).
Proof.
  intros (Hwf & _) Hv j.
  assert (engine_wf (emit m (CANCEL_ORDER i) st)) as Hwf1.
  { unfold engine_wf. by rewrite store_emit, book_emit. }
  destruct (book_cancel_spec i _ Hwf1) as (_ & Ho & Hi & _).
  rewrite get_apply. simpl. unfold get. rewrite Hi, Ho, store_emit, book_emit.
  destruct (decide (j = i)) as [->|Hne].
  - by rewrite lookup_delete_eq.
  - rewrite lookup_delete_ne by done. apply Hv.
Qed.

Lemma view_agrees_match_body m seen st st' v :
  run_inv seen st →
  match_body m st = Some st' →
  view_agrees st v →
  ∃ tr, is_trade tr ∧ wal st' = wal st ++ emitted m tr ∧
        view_agrees st' (OpenOrdersView.apply tr v).
Proof.
  intros (Hwf & Hpos & _) Hm Hv.
  destruct (match_body_spec _ _ _ Hwf Hm)
    as (buy & sell & ob & os & nb & ns & _ & _ & Hob & Hos & _ & _ & Hne & Hidne & _ &
        Hib & His & Ho' & _ & Hi' & Hw' & _).
  cbv zeta in Ho', Hi', Hw'.
  set (q := Z.min (Order.qty ob) (Order.qty os)) in *.
  pose proof (Hpos _ _ Hib) as Hqb. pose proof (Hpos _ _ His) as Hqs. simpl in Hqb, Hqs.
  rewrite (lookup_total_correct _ _ _ Hob) in Hqb.
  rewrite (lookup_total_correct _ _ _ Hos) in Hqs.
  exists (TRADE (Order.id ob) (Order.id os) q (Order.price os)).
  split; [done|]. split; [done|].
  assert (get buy st' = Order.sub_qty q ob) as Hgb.
  { unfold get. rewrite Ho'. apply lookup_total_correct.
    rewrite lookup_alter_ne by done. by rewrite lookup_alter_eq, Hob. }
  assert (get sell st' = Order.sub_qty q os) as Hgs.
  { unfold get. rewrite Ho'. apply lookup_total_correct.
    by rewrite lookup_alter_eq, lookup_alter_ne, Hos by done. }
  assert (get buy st = ob) as Hgb0 by by apply lookup_total_correct.
  assert (get sell st = os) as Hgs0 by by apply lookup_total_correct.
  intros i. rewrite get_apply. simpl. rewrite Hi', !zero_cancel_lookup, Hv.
  destruct (decide (i = Order.id ob)) as [->|Hnb].
  - destruct (decide (Order.id ob = Order.id os)); [done|].
    rewrite Hib. simpl. rewrite Hgb0.
    assert ((Order.qty ob - q <=? 0) = (Order.qty ob - q =? 0)) as -> by lia.
    destruct (Order.qty ob - q =? 0); [done|]. simpl. by rewrite Hgb.
  - destruct (decide (i = Order.id os)) as [->|Hns].
    + rewrite His. simpl. rewrite Hgs0.
      assert ((Order.qty os - q <=? 0) = (Order.qty os - q =? 0)) as -> by lia.
      destruct (Order.qty os - q =? 0); [done|]. simpl. by rewrite Hgs.
    + destruct (OrderBook.index (book st) !! i) as [x|] eqn:Hx; [|done]. simpl. f_equal.
      unfold get. rewrite Ho'.
      rewrite !lookup_total_alter_ne; [done| |].
      * intros E. apply Hnb. symmetry.
        apply (index_order_inj (store st) (book st) _ _ _ _ Hwf Hib Hx). by rewrite <-E.
      * intros E. apply Hns. symmetry.
        apply (index_order_inj (store st) (book st) _ _ _ _ Hwf His Hx). by rewrite <-E.
Qed.
End projection.

(** ** Invariants of a run *)

Lemma run_inv_match_body m seen st st' :
  run_inv seen st → MatchingEngine.match_body m st = Some st' → run_inv seen st'.
Proof.
  intros (Hwf & Hpos & Hseen) Hm.
  destruct (match_body_qty _ _ _ Hwf Hpos Hm)
    as (buy & sell & _ & _ & _ & Hq & _ & _ & _ & Hpos1 & _).
  destruct (match_body_spec _ _ _ Hwf Hm)
    as (? & ? & ? & ? & ? & ? & _ & _ & _ & _ & _ & _ & _ & _ & _ & _ & _ & Hord & Hwf1 & _).
  split_and!; [done..|].
  intros o ord. rewrite Hord. intros Ho.
  apply lookup_alter_Some in Ho as [(_ & y & Ho & ->)|[_ Ho]];
    (apply lookup_alter_Some in Ho as [(_ & z & Ho & ->)|[_ Ho]]); simpl;
    by eapply Hseen.
Qed.

(** A property that holds when the new order is in the book, after a
    cancellation, and after each turn of the matching loop holds after every
    run of valid commands. *)
Section run_induction.
Import MatchingEngine.
Variable (m : ProcessMode) (P : MatchingEngine.t → Prop).
Hypothesis P_accept : ∀ seen ord st,
  run_inv seen st → valid_input (NEW_ORDER ord) → Order.id ord ∉ seen →
  P st → P (accept m ord st).
Hypothesis P_cancel : ∀ seen i st,
  run_inv seen st → P st → P (book_cancel i (emit m (CANCEL_ORDER i) st)).
Hypothesis P_match : ∀ seen st st',
  run_inv seen st → P st → match_body m st = Some st' → P st'.

Lemma match_induction k seen st st' :
  run_inv seen st → P st → match_ k m st = Some st' → P st'.
Proof.
  revert st. induction k as [|k IH]; intros st Hinv HP; simpl; [done|].
  destruct (match_body m st) as [st1|] eqn:Hm.
  - apply IH; [by eapply run_inv_match_body|by eapply P_match].
  - by intros [= <-].
Qed.

Lemma submit_induction k options seen e st st' :
  mode_of options = m →
  run_inv seen st → P st →
  valid_input e →
  (∀ i, new_id e = Some i → i ∉ seen) →
  submit k options e st = Some st' →
  P st'.
Proof.
  intros Hmode Hinv HP Hv Hfresh.
  destruct e as [ord|i|]; [| |done].
  - rewrite submit_new, Hmode. apply (match_induction _ (seen ++ [Order.id ord])).
    + apply accept_inv; [done|by destruct Hv|by apply Hfresh].
    + eapply P_accept; [done..| |done]. by apply Hfresh.
  - unfold submit. simpl. fold (mode_of options). rewrite Hmode. intros [= <-].
    by eapply P_cancel.
Qed.

Lemma run_induction k options seen es st st' :
  mode_of options = m →
  run_inv seen st → P st →
  Forall valid_input es →
  NoDup (seen ++ omap new_id es) →
  run k options es st = Some st' →
  P st'.
Proof.
  intros Hmode. revert seen st.
  induction es as [|e es IH]; intros seen st Hinv HP Hv Hnd; simpl.
  - by intros [= <-].
  - apply Forall_cons in Hv as [Hve Hv].
    assert (omap new_id (e :: es) = option_list (new_id e) ++ omap new_id es) as Hom.
    { simpl. by destruct (new_id e). }
    rewrite Hom, app_assoc in Hnd.
    assert (∀ i, new_id e = Some i → i ∉ seen) as Hfresh.
    { intros i Hi Hin. rewrite Hi in Hnd. simpl in Hnd.
      apply NoDup_app in Hnd as (Hnd & _ & _).
      apply NoDup_app in Hnd as (_ & Hd & _). eapply Hd; [done|]. by left. }
    destruct (submit k options e st) as [st1|] eqn:Hsub; [|done].
    apply (IH (seen ++ option_list (new_id e)));
      [by eapply submit_run_inv|by eapply submit_induction|done..].
Qed.
End run_induction.

(** The view built from the records of the log. *)
Definition log_view (st : MatchingEngine.t) : OpenOrdersView.t :=
  OpenOrdersView.applyAll (WAL.replay (MatchingEngine.wal st)) OpenOrdersView.new.

Lemma log_view_snoc st st' e :
  MatchingEngine.wal st' = MatchingEngine.wal st ++ [e] →
  log_view st' = OpenOrdersView.apply e (log_view st).
Proof. unfold log_view, WAL.replay. intros ->. by rewrite applyAll_app. Qed.

Lemma log_view_agrees_run k seen es st st' :
  run_inv seen st → view_agrees st (log_view st) →
  Forall valid_input es →
  NoDup (seen ++ omap new_id es) →
  run k live_options es st = Some st' →
  view_agrees st' (log_view st').
Proof.
  apply (run_induction live (λ st, view_agrees st (log_view st))); [| | |done].
  - intros seen' ord st0 Hinv _ Hfresh Hv.
    destruct (accept_spec live _ _ _ Hinv Hfresh) as (_ & _ & _ & _ & _ & _ & Hw & _).
    rewrite (log_view_snoc st0 _ _ Hw). by eapply view_agrees_accept.
  - intros seen' i st0 Hinv Hv.
    rewrite (log_view_snoc st0 _ (CANCEL_ORDER i)).
    + by eapply view_agrees_cancel.
    + by rewrite wal_cancel.
  - intros seen' st0 st1 Hinv Hv Hm.
    destruct (view_agrees_match_body live _ _ _ _ Hinv Hm Hv) as (tr & _ & Hw & Hv').
    by rewrite (log_view_snoc st0 _ _ Hw).
Qed.

(** X13.  The projection of the log agrees with the book.  After any run of
    valid commands in live mode, applying the records of the log, as they
    were written, to a fresh [OpenOrdersView] gives a view that holds
    exactly the orders resting in the book, each with all its fields as the
    engine's order object has them now (in particular the remaining
    quantity); filled and cancelled orders are not in it. *)
Theorem log_projection_agrees_with_book (k : nat) (seen : list string)
    (es : list (Event Order.t)) (st st' : MatchingEngine.t) :
  run_inv seen st →
  view_agrees st (log_view st) →
  Forall valid_input es →
  NoDup (seen ++ omap new_id es) →
  run k live_options es st = Some st' →
  ∀ i, OpenOrdersView.get i
         (OpenOrdersView.applyAll (WAL.replay (MatchingEngine.wal st')) OpenOrdersView.new)
       = (λ r, MatchingEngine.get (OrderBook.order r) st') <$>
           OrderBook.index (MatchingEngine.book st') !! i.
Proof. apply log_view_agrees_run. Qed.

Lemma view_agrees_new : view_agrees (MatchingEngine.new [] []) (log_view (MatchingEngine.new [] [])).
Proof. intros i. done. Qed.

Lemma log_projection_agrees_with_book_witness :
  OpenOrdersView.get "B1"
    (OpenOrdersView.applyAll (WAL.replay (MatchingEngine.wal session_end)) OpenOrdersView.new)
  = Some (Order.mk "B1" BUY 100 6 1 None).
Proof.
  exact (log_projection_agrees_with_book 3 [] session _ session_end
    (run_inv_new [] []) view_agrees_new (proj1 session_valid) (proj2 session_valid)
    session_run "B1").
Defined.

(** A trade of the log is between two orders that are open at this point of
    the log: the projection of the records before it holds a BUY order
    under the trade's [buyId] and a SELL order under its [sellId], their
    prices cross, and the trade is for the smaller of their remaining
    quantities at the SELL order's price. *)
Definition trade_between_open (l1 : list (Event Order.t)) (b s : string) (q p : Z) : Prop :=
  ∃ ob os,
    OpenOrdersView.get b (OpenOrdersView.applyAll l1 OpenOrdersView.new) = Some ob ∧
    OpenOrdersView.get s (OpenOrdersView.applyAll l1 OpenOrdersView.new) = Some os ∧
    Order.side ob = BUY ∧ Order.side os = SELL ∧
    Order.price os ≤ Order.price ob ∧ p = Order.price os ∧
    q = Z.min (Order.qty ob) (Order.qty os) ∧ 0 < q.

Definition trades_between_open (l : list (Event Order.t)) : Prop :=
  ∀ l1 b s q p l2, l = l1 ++ TRADE b s q p :: l2 → trade_between_open l1 b s q p.

Lemma snoc_split {A} (l : list A) e l1 x l2 :
  l ++ [e] = l1 ++ x :: l2 →
  (∃ l2', l2 = l2' ++ [e] ∧ l = l1 ++ x :: l2') ∨ (l2 = [] ∧ l1 = l ∧ x = e).
Proof.
  destruct l2 as [|y l2 _] using rev_ind.
  - intros [-> ->]%app_inj_tail. by right.
  - rewrite app_comm_cons, app_assoc. intros [-> ->]%app_inj_tail. left. eauto.
Qed.

Lemma trades_between_open_snoc l e :
  trades_between_open l →
  match e with TRADE b s q p => trade_between_open l b s q p | _ => True end →
  trades_between_open (l ++ [e]).
Proof.
  intros Hl He l1 b s q p l2 [(l2' & -> & ->)|(-> & -> & <-)]%snoc_split.
  - by eapply Hl.
  - done.
Qed.

Section trades.
Import MatchingEngine.
Implicit Types (st : MatchingEngine.t) (m : ProcessMode) (v : OpenOrdersView.t).

Lemma match_body_between_open m seen st st' v :
  run_inv seen st →
  view_agrees st v →
  match_body m st = Some st' →
  ∃ ob os,
    OpenOrdersView.get (Order.id ob) v = Some ob ∧
    OpenOrdersView.get (Order.id os) v = Some os ∧
    Order.side ob = BUY ∧ Order.side os = SELL ∧
    Order.price os ≤ Order.price ob ∧
    0 < Z.min (Order.qty ob) (Order.qty os) ∧
    wal st' = wal st ++ emitted m (TRADE (Order.id ob) (Order.id os)
                                     (Z.min (Order.qty ob) (Order.qty os))
                                     (Order.price os)).
Proof.
  intros (Hwf & Hpos & _) Hv Hm.
  destruct (match_body_spec _ _ _ Hwf Hm)
    as (buy & sell & ob & os & nb & ns & _ & _ & Hob & Hos & Hsb & Hss & _ & _ & Hpr &
        Hib & His & _ & _ & _ & Hw' & _).
  pose proof (Hpos _ _ Hib) as Hqb. pose proof (Hpos _ _ His) as Hqs. simpl in Hqb, Hqs.
  rewrite (lookup_total_correct _ _ _ Hob) in Hqb.
  rewrite (lookup_total_correct _ _ _ Hos) in Hqs.
  exists ob, os. split_and!; try done; [| |lia].
  - rewrite Hv, Hib. simpl. unfold get. by rewrite (lookup_total_correct _ _ _ Hob).
  - rewrite Hv, His. simpl. unfold get. by rewrite (lookup_total_correct _ _ _ Hos).
Qed.

Lemma trades_between_open_run k seen es st st' :
  run_inv seen st →
  view_agrees st (log_view st) ∧ trades_between_open (wal st) →
  Forall valid_input es →
  NoDup (seen ++ omap new_id es) →
  run k live_options es st = Some st' →
  view_agrees st' (log_view st') ∧ trades_between_open (wal st').
Proof.
  apply (run_induction live
           (λ st, view_agrees st (log_view st) ∧ trades_between_open (wal st))); [| | |done].
  - intros seen' ord st0 Hinv _ Hfresh [Hv Ht].
    destruct (accept_spec live _ _ _ Hinv Hfresh) as (_ & _ & _ & _ & _ & _ & Hw & _).
    split.
    + rewrite (log_view_snoc st0 _ _ Hw). by eapply view_agrees_accept.
    + rewrite Hw. by apply trades_between_open_snoc.
  - intros seen' i st0 Hinv [Hv Ht]. split.
    + rewrite (log_view_snoc st0 _ (CANCEL_ORDER i)).
      * by eapply view_agrees_cancel.
      * by rewrite wal_cancel.
    + rewrite wal_cancel. simpl. by apply trades_between_open_snoc.
  - intros seen' st0 st1 Hinv [Hv Ht] Hm. split.
    + destruct (view_agrees_match_body live _ _ _ _ Hinv Hm Hv) as (tr & _ & Hw & Hv').
      by rewrite (log_view_snoc st0 _ _ Hw).
    + destruct (match_body_between_open live _ _ _ _ Hinv Hv Hm)
        as (ob & os & Hgb & Hgs & ? & ? & ? & ? & ->).
      apply trades_between_open_snoc; [done|]. exists ob, os. done.
Qed.
End trades.

(** X14.  Every trade of the log is between two open orders.  After any run
    of valid commands in live mode on a fresh engine, each TRADE record of
    the log names a BUY order and a SELL order that are open according to
    the records before it (submitted, not cancelled, not filled), the SELL
    price is at most the BUY price, the trade is made at the SELL price, and
    its quantity is the smaller of the two remaining quantities, which is
    positive. *)
Theorem logged_trades_between_open_orders (k : nat) (es : list (Event Order.t))
    (st : MatchingEngine.t) :
  valid_inputs es →
  run k live_options es (MatchingEngine.new [] []) = Some st →
  ∀ l1 b s q p l2,
    MatchingEngine.wal st = l1 ++ TRADE b s q p :: l2 →
    ∃ ob os,
      OpenOrdersView.get b (OpenOrdersView.applyAll l1 OpenOrdersView.new) = Some ob ∧
      OpenOrdersView.get s (OpenOrdersView.applyAll l1 OpenOrdersView.new) = Some os ∧
      Order.side ob = BUY ∧ Order.side os = SELL ∧
      Order.price os ≤ Order.price ob ∧ p = Order.price os ∧
      q = Z.min (Order.qty ob) (Order.qty os) ∧ 0 < q.
Proof.
  intros [Hv Hnd] Hrun.
  refine (proj2 (trades_between_open_run k [] es _ st (run_inv_new [] []) _ Hv Hnd Hrun)).
  split; [apply view_agrees_new|]. intros l1 b s q p l2 E. by destruct l1.
Qed.

Lemma logged_trades_between_open_orders_witness :
  ∃ ob os,
    OpenOrdersView.get "B1"
      (OpenOrdersView.applyAll
         [NEW_ORDER (Order.mk "B1" BUY 100 10 1 None);
          NEW_ORDER (Order.mk "S1" SELL 101 5 2 (Some "DEMO"));
          NEW_ORDER (Order.mk "S2" SELL 100 4 3 None)] OpenOrdersView.new) = Some ob ∧
    OpenOrdersView.get "S2"
      (OpenOrdersView.applyAll
         [NEW_ORDER (Order.mk "B1" BUY 100 10 1 None);
          NEW_ORDER (Order.mk "S1" SELL 101 5 2 (Some "DEMO"));
          NEW_ORDER (Order.mk "S2" SELL 100 4 3 None)] OpenOrdersView.new) = Some os ∧
    Order.side ob = BUY ∧ Order.side os = SELL ∧
    Order.price os ≤ Order.price ob ∧ 100 = Order.price os ∧
    4 = Z.min (Order.qty ob) (Order.qty os) ∧ 0 < 4.
Proof.
  exact (logged_trades_between_open_orders 3 session session_end session_valid session_run
    [NEW_ORDER (Order.mk "B1" BUY 100 10 1 None);
     NEW_ORDER (Order.mk "S1" SELL 101 5 2 (Some "DEMO"));
     NEW_ORDER (Order.mk "S2" SELL 100 4 3 None)]
    "B1" "S2" 4 100
    [CANCEL_ORDER "S1"; NEW_ORDER (Order.mk "B2" BUY 99 3 4 None)] eq_refl).
Defined.

(** * Further properties of the infrastructure and the read models *)

(** ** The channel ([infra/eventBus.ts]) *)

Lemma drain_spec (max : Z) (queue : EventBus.t) :
  (EventBus.drain max queue).1 = take (Z.to_nat max) queue ∧
  (EventBus.drain max queue).2 = drop (Z.to_nat max) queue.
Proof.
  unfold EventBus.drain. destruct (max <=? 0) eqn:E; [|done].
  apply Z.leb_le in E. by replace (Z.to_nat max) with 0%nat by lia.
Qed.

(** X15.  [drain(max)] removes a prefix of the queue and returns it: the
    drained events followed by the events left are the old queue, the number
    drained is [max] capped by the backlog (none for [max <= 0]), and events
    published one after the other are drained in the order published. *)
Theorem drain_takes_prefix (max : Z) (queue : EventBus.t) (es : list (Event oref)) :
  (EventBus.drain max queue).1 ++ (EventBus.drain max queue).2 = queue ∧
  Z.of_nat (length (EventBus.drain max queue).1) =
    Z.max 0 (Z.min max (Z.of_nat (EventBus.size queue))) ∧
  EventBus.size (EventBus.drain max queue).2 =
    (EventBus.size queue - length (EventBus.drain max queue).1)%nat ∧
  EventBus.drain (Z.of_nat (length (queue ++ es)))
    (foldl (λ q e, EventBus.publish e q) queue es) = (queue ++ es, []).
Proof.
  destruct (drain_spec max queue) as [-> ->]. unfold EventBus.size. split_and!.
  - apply take_drop.
  - rewrite length_take. lia.
  - rewrite length_drop, length_take. lia.
  - assert (foldl (λ q e, EventBus.publish e q) queue es = queue ++ es) as ->.
    { revert queue. induction es as [|e es IH]; intros queue; simpl.
      - by rewrite app_nil_r.
      - rewrite IH. unfold EventBus.publish. by rewrite <-app_assoc. }
    unfold EventBus.drain. destruct (_ <=? 0) eqn:E.
    + apply Z.leb_le in E. by destruct (queue ++ es).
    + rewrite Nat2Z.id. by rewrite take_ge, drop_ge by lia.
Qed.

(** X16.  Draining in two steps is draining in one: for non-negative [a]
    and [b], [drain(a)] followed by [drain(b)] returns, together, the events
    of [drain(a + b)] and leaves the same queue. *)
Theorem drain_twice (a b : Z) (queue : EventBus.t) :
  0 ≤ a → 0 ≤ b →
  (EventBus.drain a queue).1 ++ (EventBus.drain b (EventBus.drain a queue).2).1 =
    (EventBus.drain (a + b) queue).1 ∧
  (EventBus.drain b (EventBus.drain a queue).2).2 = (EventBus.drain (a + b) queue).2.
Proof.
  intros Ha Hb.
  destruct (drain_spec a queue) as [-> ->].
  destruct (drain_spec b (drop (Z.to_nat a) queue)) as [-> ->].
  destruct (drain_spec (a + b) queue) as [-> ->].
  rewrite Z2Nat.inj_add by done. split.
  - apply take_take_drop.
  - apply drop_drop.
Qed.

Lemma drain_twice_witness :
  (EventBus.drain 1 [CANCEL_ORDER "a"; CANCEL_ORDER "b"; CANCEL_ORDER "c"]).1 ++
  (EventBus.drain 1
     (EventBus.drain 1 [CANCEL_ORDER "a"; CANCEL_ORDER "b"; CANCEL_ORDER "c"]).2).1 =
  (EventBus.drain (1 + 1) [CANCEL_ORDER "a"; CANCEL_ORDER "b"; CANCEL_ORDER "c"]).1.
Proof.
  exact (proj1 (drain_twice 1 1 [CANCEL_ORDER "a"; CANCEL_ORDER "b"; CANCEL_ORDER "c"]
    ltac:(lia) ltac:(lia))).
Defined.

(** ** The trades view ([views/tradesView.ts]) *)

Lemma TradesView_applyAll es (t : TradesView.t) :
  TradesView.applyAll es t = t ++ filter (λ e, is_trade e = true) es.
Proof.
  revert t. induction es as [|e es IH]; intros t; simpl.
  - by rewrite app_nil_r.
  - unfold TradesView.applyAll in *. simpl. rewrite IH.
    destruct e; simpl.
    + by rewrite filter_cons_False by done.
    + by rewrite filter_cons_False by done.
    + rewrite filter_cons_True by done. by rewrite <-app_assoc.
Qed.

Lemma filter_none {A} (P : A → Prop) `{∀ x, Decision (P x)} (l : list A) :
  Forall (λ x, ¬ P x) l → filter P l = [].
Proof.
  induction 1 as [|x l Hx _ IH]; [done|]. by rewrite filter_cons_False.
Qed.

(** X17.  The trades view lists exactly the TRADE events it was given, in
    the order given: after [applyAll(events)] its list is the old list
    followed by the TRADE events of the batch, other events change nothing,
    and [size] counts them; after the bootstrap of [createViews] it lists
    the TRADE events of the history. *)
Theorem trades_view_lists_trades (es : list (Event Order.t)) (t : TradesView.t) :
  TradesView.list (TradesView.applyAll es t) =
    TradesView.list t ++ filter (λ e, is_trade e = true) es ∧
  TradesView.size (TradesView.applyAll es t) =
    (TradesView.size t + length (filter (λ e, is_trade e = true) es))%nat ∧
  TradesView.list (tradesView (createViews es)) = filter (λ e, is_trade e = true) es ∧
  (Forall (λ e, is_trade e = false) es → TradesView.applyAll es t = t).
Proof.
  unfold TradesView.list, TradesView.size, createViews. simpl.
  rewrite !TradesView_applyAll. split_and!; try done.
  - by rewrite length_app.
  - intros Hall. rewrite filter_none; [by rewrite app_nil_r|].
    eapply Forall_impl; [done|]. simpl. intros e ->. done.
Qed.

Lemma trades_view_lists_trades_witness :
  TradesView.applyAll [NEW_ORDER (Order.mk "B1" BUY 100 10 1 None); CANCEL_ORDER "B1"]
    [TRADE "B0" "S0" 1 100] = [TRADE "B0" "S0" 1 100].
Proof.
  apply (proj2 (proj2 (proj2 (trades_view_lists_trades
    [NEW_ORDER (Order.mk "B1" BUY 100 10 1 None); CANCEL_ORDER "B1"]
    [TRADE "B0" "S0" 1 100])))).
  repeat constructor.
Defined.

(** ** The projector loop ([views/views.ts]) *)

Lemma applyEvent_foldl es (v : Views) :
  foldl (λ v e, applyEvent e v) v es =
  {| openOrdersView := OpenOrdersView.applyAll es (openOrdersView v);
     tradesView := TradesView.applyAll es (tradesView v) |}.
Proof.
  revert v. induction es as [|e es IH]; intros v; simpl; [by destruct v|].
  by rewrite IH.
Qed.

Lemma foldl_fmap {A B C} (f : C → B → C) (g : A → B) (c : C) (l : list A) :
  foldl f c (g <$> l) = foldl (λ c x, f c (g x)) c l.
Proof. revert c. induction l as [|x l IH]; intros c; simpl; [done|]. by rewrite IH. Qed.

(** X18.  The projector applies the channel's events in the order published,
    batch by batch, losing and repeating none.  With a positive batch size
    and the engine idle, after [n] ticks the channel has lost its first
    [n * batchSize] events and both views are the ones obtained by applying
    exactly these events in order, each read from the store when applied;
    with [batchSize <= 0] a tick does nothing. *)
Theorem ticks_apply_in_order (σ : Store) (batchSize : Z) (n : nat)
    (queue : EventBus.t) (v : Views) :
  (0 < batchSize →
   Nat.iter n (tick σ batchSize) (queue, v) =
     (drop (n * Z.to_nat batchSize) queue,
      {| openOrdersView :=
           OpenOrdersView.applyAll (serialize σ <$> take (n * Z.to_nat batchSize) queue)
             (openOrdersView v);
         tradesView :=
           TradesView.applyAll (serialize σ <$> take (n * Z.to_nat batchSize) queue)
             (tradesView v) |})) ∧
  (batchSize ≤ 0 → tick σ batchSize (queue, v) = (queue, v)).
Proof.
  split.
  - intros Hb. rewrite <-applyEvent_foldl, foldl_fmap.
    induction n as [|n IH]; [done|].
    rewrite Nat.iter_succ, IH. unfold tick. cbn [fst snd].
    destruct (drain_spec batchSize (drop (n * Z.to_nat batchSize) queue)) as [Hd Hr].
    destruct (EventBus.drain batchSize (drop (n * Z.to_nat batchSize) queue)) as [d r].
    simpl in Hd, Hr. subst d r.
    rewrite <-foldl_app, take_take_drop, drop_drop.
    by replace (S n * Z.to_nat batchSize)%nat
      with (n * Z.to_nat batchSize + Z.to_nat batchSize)%nat by lia.
  - intros Hb. unfold tick, EventBus.drain. simpl.
    by rewrite (proj2 (Z.leb_le _ _) Hb).
Qed.

Lemma ticks_apply_in_order_witness :
  Nat.iter 2 (tick (one_order (Order.mk "B1" BUY 100 10 1 None)) 1)
    ([NEW_ORDER 1%positive; CANCEL_ORDER "B1"; CANCEL_ORDER "B2"], createViews []) =
  ([CANCEL_ORDER "B2"], createViews []).
Proof.
  exact (proj1 (ticks_apply_in_order (one_order (Order.mk "B1" BUY 100 10 1 None)) 1 2
    [NEW_ORDER 1%positive; CANCEL_ORDER "B1"; CANCEL_ORDER "B2"] (createViews []))
    ltac:(lia)).
Defined.

(** ** The open orders view ([views/openOrdersView.ts]) *)

(** An event names an id. *)
Definition names (i : string) (e : Event Order.t) : Prop :=
  match e with
  | NEW_ORDER ord => Order.id ord = i
  | CANCEL_ORDER j => j = i
  | TRADE b s _ _ => b = i ∨ s = i
  end.

(** X19.  The entries of the view evolve independently.  What the view
    returns for an id after a batch of events depends only on what it
    returned before and on the events of the batch, through [entry_step]:
    a NEW_ORDER of that id sets the entry, a CANCEL_ORDER of it removes it,
    a TRADE naming it subtracts the traded quantity and removes the entry
    when nothing is left (and does nothing when the id is unknown); events
    that do not name the id leave its entry as it was. *)
Theorem view_entries_independent (i : string) (es : list (Event Order.t))
    (v : OpenOrdersView.t) :
  OpenOrdersView.get i (OpenOrdersView.applyAll es v) =
    foldl (λ e event, entry_step i event e) (OpenOrdersView.get i v) es ∧
  (Forall (λ e, ¬ names i e) es →
   OpenOrdersView.get i (OpenOrdersView.applyAll es v) = OpenOrdersView.get i v).
Proof.
  split; [apply get_applyAll|]. rewrite get_applyAll.
  generalize (OpenOrdersView.get i v). induction es as [|e es IH]; intros x; [done|].
  intros [He Hes]%Forall_cons. simpl. rewrite IH by done.
  destruct e as [ord|j|b s q p]; simpl in *.
  - rewrite decide_False; [done|]. by intros ->.
  - rewrite decide_False; [done|]. by intros ->.
  - rewrite !decide_False; [done|intros ->; tauto|intros ->; tauto].
Qed.

Lemma view_entries_independent_witness :
  OpenOrdersView.get "B1"
    (OpenOrdersView.applyAll [CANCEL_ORDER "B2"; TRADE "B3" "S1" 4 100]
       (OpenOrdersView.apply (NEW_ORDER (Order.mk "B1" BUY 100 10 1 None))
          OpenOrdersView.new)) =
  Some (Order.mk "B1" BUY 100 10 1 None).
Proof.
  apply (proj2 (view_entries_independent "B1" [CANCEL_ORDER "B2"; TRADE "B3" "S1" 4 100]
    (OpenOrdersView.apply (NEW_ORDER (Order.mk "B1" BUY 100 10 1 None)) OpenOrdersView.new))).
  repeat constructor; simpl; intros H; try discriminate H.
  by destruct H as [H|H]; discriminate H.
Defined.

(** An order passes the filters of [list]: a filter that is absent, or an
    empty string, is not applied. *)
Definition passes (f : option OpenOrdersFilters) (o : Order.t) : Prop :=
  match f ≫= f_side with Some s => Order.side o = s | None => True end ∧
  match truthy (f ≫= f_symbol) with Some s => Order.symbol o = Some s | None => True end ∧
  match truthy (f ≫= f_id) with Some i => Order.id o = i | None => True end.

#[global] Instance passes_dec f o : Decision (passes f o).
Proof.
  unfold passes.
  destruct (f ≫= f_side), (truthy (f ≫= f_symbol)), (truthy (f ≫= f_id)); apply _.
Defined.

Definition by_ts (a b : Order.t) : Prop := Order.ts a ≤ Order.ts b.

Section sorting.
Implicit Types (x : Order.t) (l : list Order.t).

Lemma insert_by_ts_perm x l : insert_by_ts x l ≡ₚ x :: l.
Proof.
  induction l as [|y l IH]; simpl; [done|].
  destruct (Order.ts y <=? Order.ts x); [|done].
  rewrite IH. apply Permutation_swap.
Qed.

Lemma insert_by_ts_sorted x l :
  StronglySorted by_ts l → StronglySorted by_ts (insert_by_ts x l).
Proof.
  induction l as [|y l IH]; simpl.
  - intros _. by repeat constructor.
  - intros [Hy Hl]%StronglySorted_cons.
    destruct (Order.ts y <=? Order.ts x) eqn:E.
    + apply Z.leb_le in E. apply StronglySorted_cons. split; [|by apply IH].
      rewrite insert_by_ts_perm. by constructor.
    + apply Z.leb_gt in E. apply StronglySorted_cons. split.
      * constructor; [unfold by_ts; lia|].
        eapply Forall_impl; [done|]. unfold by_ts. intros; simpl in *; lia.
      * by apply StronglySorted_cons.
Qed.

(** Equal keys keep their order: the sort is stable. *)
Lemma insert_by_ts_stable x l t :
  StronglySorted by_ts l →
  filter (λ o, Order.ts o = t) (insert_by_ts x l) =
  filter (λ o, Order.ts o = t) l ++ filter (λ o, Order.ts o = t) [x].
Proof.
  induction l as [|y l IH]; simpl; [done|].
  intros [Hy Hl]%StronglySorted_cons.
  destruct (Order.ts y <=? Order.ts x) eqn:E.
  - rewrite !(filter_cons _ y), IH by done. by destruct (decide (Order.ts y = t)).
  - apply Z.leb_gt in E. destruct (decide (Order.ts x = t)) as [Hx|Hx].
    + rewrite (filter_cons_True _ x) by done.
      rewrite (filter_cons_True _ x [] Hx), filter_nil.
      assert (filter (λ o, Order.ts o = t) (y :: l) = []) as ->; [|done].
      apply filter_none. constructor; [lia|].
      eapply Forall_impl; [done|]. unfold by_ts. intros; simpl in *; lia.
    + rewrite (filter_cons_False _ x) by done.
      by rewrite (filter_cons_False _ x [] Hx), filter_nil, app_nil_r.
Qed.

Lemma sort_by_ts_spec l :
  sort_by_ts l ≡ₚ l ∧ StronglySorted by_ts (sort_by_ts l) ∧
  ∀ t, filter (λ o, Order.ts o = t) (sort_by_ts l) = filter (λ o, Order.ts o = t) l.
Proof.
  unfold sort_by_ts.
  assert (∀ acc, StronglySorted by_ts acc →
            foldl (λ acc x, insert_by_ts x acc) acc l ≡ₚ acc ++ l ∧
            StronglySorted by_ts (foldl (λ acc x, insert_by_ts x acc) acc l) ∧
            ∀ t, filter (λ o, Order.ts o = t) (foldl (λ acc x, insert_by_ts x acc) acc l)
                 = filter (λ o, Order.ts o = t) (acc ++ l)) as H.
  { induction l as [|x l IH]; intros acc Hacc; simpl.
    - by rewrite app_nil_r.
    - destruct (IH (insert_by_ts x acc)) as (Hp & Hs & Hf); [by apply insert_by_ts_sorted|].
      split_and!; [|done|].
      + rewrite Hp, insert_by_ts_perm. simpl. apply Permutation_middle.
      + intros t. rewrite Hf, !filter_app, insert_by_ts_stable by done.
        rewrite <-app_assoc. f_equal. by rewrite <-filter_app. }
  apply (H []). constructor.
Qed.
End sorting.

(** X20.  [list(filters)] returns the orders of the view that pass the
    filters, sorted by [ts], equal timestamps in the view's insertion
    order.  A filter that is left out is not applied, and neither is a
    [symbol] or [id] filter that is the empty string. *)
Theorem list_filters_and_sorts (f : option OpenOrdersFilters) (v : OpenOrdersView.t) :
  OpenOrdersView.list f v ≡ₚ filter (passes f) (JsMap.values v) ∧
  (∀ o, o ∈ OpenOrdersView.list f v ↔ o ∈ JsMap.values v ∧ passes f o) ∧
  StronglySorted by_ts (OpenOrdersView.list f v) ∧
  (∀ t, filter (λ o, Order.ts o = t) (OpenOrdersView.list f v) =
        filter (λ o, Order.ts o = t) (filter (passes f) (JsMap.values v))) ∧
  OpenOrdersView.list (Some (mkFilters (Some "") None (Some ""))) v =
    OpenOrdersView.list None v.
Proof.
  assert (OpenOrdersView.list f v = sort_by_ts (filter (passes f) (JsMap.values v))) as Hl.
  { unfold OpenOrdersView.list. generalize (JsMap.values v). intros l.
    cbv zeta. f_equal.
    assert (∀ o, passes f o ↔
      match f ≫= f_side with Some s => Order.side o = s | None => True end ∧
      match truthy (f ≫= f_symbol) with Some s => Order.symbol o = Some s | None => True end ∧
      match truthy (f ≫= f_id) with Some i => Order.id o = i | None => True end) as Hpass
      by done.
    revert Hpass.
    destruct (truthy (f ≫= f_id)) as [i|], (truthy (f ≫= f_symbol)) as [s|],
      (f ≫= f_side) as [sd|]; intros Hpass; rewrite ?list_filter_filter;
      try (apply list_filter_iff; intros o; rewrite Hpass; naive_solver).
    symmetry. apply filter_all, Forall_forall. intros o _. by apply Hpass. }
  destruct (sort_by_ts_spec (filter (passes f) (JsMap.values v))) as (Hp & Hs & Hst).
  rewrite Hl. split_and!; try done.
  intros o. rewrite Hp, list_elem_of_filter. tauto.
Qed.

Lemma list_filters_and_sorts_witness :
  OpenOrdersView.list (Some (mkFilters None (Some SELL) (Some "")))
    [("B1", Order.mk "B1" BUY 100 10 3 None);
     ("S2", Order.mk "S2" SELL 101 5 2 None);
     ("S1", Order.mk "S1" SELL 102 5 1 None)] =
  [Order.mk "S1" SELL 102 5 1 None; Order.mk "S2" SELL 101 5 2 None] ∧
  ∀ o, o ∈ OpenOrdersView.list (Some (mkFilters None (Some SELL) (Some "")))
             [("B1", Order.mk "B1" BUY 100 10 3 None);
              ("S2", Order.mk "S2" SELL 101 5 2 None);
              ("S1", Order.mk "S1" SELL 102 5 1 None)] →
       passes (Some (mkFilters None (Some SELL) (Some ""))) o.
Proof.
  split; [reflexivity|]. intros o Ho.
  exact (proj2 (proj1 (proj1 (proj2 (list_filters_and_sorts
    (Some (mkFilters None (Some SELL) (Some "")))
    [("B1", Order.mk "B1" BUY 100 10 3 None);
     ("S2", Order.mk "S2" SELL 101 5 2 None);
     ("S1", Order.mk "S1" SELL 102 5 1 None)])) o) Ho)).
Defined.

(** * The log file *)

Section wal_file.
Variable stringify : Event Order.t → jsstring.
Variable parse : jsstring → option (Event Order.t).
(** The codec round-trips, and a serialized event is one line that starts
    with an opening brace. *)
Hypothesis parse_stringify : ∀ e, parse (stringify e) = Some e.
Hypothesis stringify_one_line : ∀ e, newline ∉ stringify e.
Hypothesis stringify_brace : ∀ e, ∃ s, stringify e = 123%N :: s.

Lemma split_lines_line l rest :
  newline ∉ l → split_lines (l ++ newline :: rest) = l :: split_lines rest.
Proof.
  induction l as [|c l IH]; intros Hl.
  - done.
  - apply not_elem_of_cons in Hl as [Hc Hl]. simpl.
    rewrite decide_False by done. by rewrite IH.
Qed.

(** The content written by appending the events [es] to a missing or empty
    file. *)
Definition written (es : list (Event Order.t)) : jsstring :=
  concat ((λ e, stringify e ++ [newline]) <$> es).

Lemma append_written es (file : WALFile.t) :
  foldl (λ f e, WALFile.append stringify e f) file es =
  match es with
  | [] => file
  | _ => Some (default [] file ++ written es)
  end.
Proof.
  revert file. induction es as [|e es IH]; intros file; [done|].
  simpl. rewrite IH. unfold WALFile.append, written. simpl.
  destruct es; simpl; by rewrite ?app_nil_r, <-?app_assoc.
Qed.

Lemma split_written es :
  filter non_empty (split_lines (written es)) = stringify <$> es.
Proof.
  induction es as [|e es IH]; [done|].
  unfold written in *. rewrite fmap_cons. simpl. rewrite <-app_assoc. simpl.
  rewrite split_lines_line by done.
  rewrite filter_cons_True, IH; [done|].
  destruct (stringify_brace e) as [s ->]. done.
Qed.

Lemma written_not_blank e es : blank (written (e :: es)) = false.
Proof.
  unfold written. simpl. destruct (stringify_brace e) as [s ->]. done.
Qed.

Lemma mapM_parse es : mapM parse (stringify <$> es) = Some es.
Proof.
  induction es as [|e es IH]; [done|].
  rewrite fmap_cons. simpl. rewrite parse_stringify, IH. done.
Qed.

Lemma replay_written (file : WALFile.t) es :
  file = None ∨ file = Some [] →
  WALFile.replay parse (foldl (λ f e, WALFile.append stringify e f) file es) = Some es ∧
  WALFile.size (foldl (λ f e, WALFile.append stringify e f) file es) = length es.
Proof.
  intros Hf. rewrite append_written. destruct es as [|e es].
  - by destruct Hf as [-> | ->].
  - assert (default [] file = []) as -> by by destruct Hf as [-> | ->].
    rewrite app_nil_l. unfold WALFile.replay, WALFile.size.
    rewrite written_not_blank, split_written, mapM_parse, length_fmap. done.
Qed.
End wal_file.

(** X21.  The log file round-trips.  With a JSON codec that round-trips on
    events and writes each event on one line starting with a brace,
    appending events to a missing or empty file and replaying it returns
    exactly these events in order, and [size] is their number: the file
    functions implement the list of records that models the log above. *)
Theorem wal_file_round_trip (stringify : Event Order.t → jsstring)
    (parse : jsstring → option (Event Order.t))
    (file : WALFile.t) (es : list (Event Order.t)) :
  (∀ e, parse (stringify e) = Some e) →
  (∀ e, newline ∉ stringify e) →
  (∀ e, ∃ s, stringify e = 123%N :: s) →
  file = None ∨ file = Some [] →
  WALFile.replay parse (foldl (λ f e, WALFile.append stringify e f) file es)
    = Some (WAL.replay es) ∧
  WALFile.size (foldl (λ f e, WALFile.append stringify e f) file es) = WAL.size es.
Proof. intros H1 H2 H3. by apply replay_written. Qed.

(** A codec for the example: a brace followed by the event's code in unary. *)
#[global] Instance Order_eq_dec : EqDecision Order.t.
Proof. solve_decision. Defined.

#[global] Instance Side_countable : Countable Side.
Proof.
  refine (inj_countable' (λ s, match s with BUY => true | SELL => false end)
                         (λ b : bool, if b then BUY else SELL) _).
  by intros [].
Defined.

#[global] Instance Order_countable : Countable Order.t.
Proof.
  refine (inj_countable'
    (λ o, (Order.id o, Order.side o, Order.price o, Order.qty o, Order.ts o, Order.symbol o))
    (λ x, let '(i, s, p, q, t, y) := x in Order.mk i s p q t y) _).
  by intros [].
Defined.

#[global] Instance Event_eq_dec : EqDecision (Event Order.t).
Proof. solve_decision. Defined.

#[global] Instance Event_countable : Countable (Event Order.t).
Proof.
  refine (inj_countable'
    (λ e, match e with
          | NEW_ORDER o => inl o
          | CANCEL_ORDER i => inr (inl i)
          | TRADE b s q p => inr (inr (b, s, q, p))
          end)
    (λ x, match x with
          | inl o => NEW_ORDER o
          | inr (inl i) => CANCEL_ORDER i
          | inr (inr (b, s, q, p)) => TRADE b s q p
          end) _).
  by intros [].
Defined.

Definition unary_stringify (e : Event Order.t) : jsstring :=
  123%N :: replicate (Pos.to_nat (encode e)) 49%N.

Definition unary_parse (s : jsstring) : option (Event Order.t) :=
  match s with
  | c :: s => if decide (c = 123%N) then decode (Pos.of_nat (length s)) else None
  | [] => None
  end.

Lemma wal_file_round_trip_witness :
  WALFile.replay unary_parse
    (foldl (λ f e, WALFile.append unary_stringify e f) None session) = Some session.
Proof.
  refine (proj1 (wal_file_round_trip unary_stringify unary_parse None session _ _ _ _)).
  - intros e. unfold unary_parse, unary_stringify.
    rewrite decide_True by done. rewrite length_replicate, Pos2Nat.id. apply decode_encode.
  - intros e. unfold unary_stringify. rewrite not_elem_of_cons. split; [done|].
    intros [? _]%elem_of_replicate. done.
  - intros e. by eexists.
  - by left.
Defined.

(** * The ids of the order generator *)

Fixpoint has_dash (s : string) : Prop :=
  match s with
  | EmptyString => False
  | String c s => String c "" = "-" ∨ has_dash s
  end.

Section ids.
Import Generator.

Lemma has_dash_app s1 s2 : has_dash (s1 +:+ s2) ↔ has_dash s1 ∨ has_dash s2.
Proof. induction s1 as [|c s1 IH]; simpl; [tauto|]. rewrite IH. tauto. Qed.

Lemma pretty_N_go_no_dash x s : ¬ has_dash s → ¬ has_dash (pretty_N_go x s).
Proof.
  revert s. induction (N.lt_wf_0 x) as [x _ IH]; intros s Hs.
  assert (x = 0 ∨ 0 < x)%N as [->|?] by lia.
  - by rewrite pretty_N_go_0.
  - rewrite pretty_N_go_step by done. apply IH.
    { by apply N.div_lt. }
    simpl. intros [Hc|?]; [|done]. revert Hc.
    unfold pretty_N_char. by repeat case_match.
Qed.

Lemma pretty_no_dash (x : N) : ¬ has_dash (pretty x).
Proof.
  unfold pretty, pretty_N. case_decide.
  - simpl. intros [?|[]]. done.
  - apply pretty_N_go_no_dash. simpl. tauto.
Qed.

(** The text after the last dash determines the number. *)
Lemma dash_suffix_inj p1 p2 d1 d2 :
  ¬ has_dash d1 → ¬ has_dash d2 →
  p1 +:+ "-" +:+ d1 = p2 +:+ "-" +:+ d2 → p1 = p2 ∧ d1 = d2.
Proof.
  assert (∀ d, has_dash ("-" +:+ d)) as Hd by (intros d; by left).
  intros H1 H2. revert p2. induction p1 as [|c p1 IH]; intros [|c' p2] Heq.
  - injection Heq as Heq. change (d1 = d2) in Heq. by subst.
  - injection Heq as Hc Heq. change (d1 = p2 +:+ "-" +:+ d2) in Heq.
    exfalso. apply H1. rewrite Heq. apply has_dash_app. by right.
  - injection Heq as Hc Heq. change (p1 +:+ "-" +:+ d1 = d2) in Heq.
    exfalso. apply H2. rewrite <-Heq. apply has_dash_app. by right.
  - injection Heq as Hc Heq. apply IH in Heq as [-> ->]. by subst.
Qed.

Lemma nextId_inj p1 p2 n1 n2 :
  (nextId p1 n1).1 = (nextId p2 n2).1 → p1 = p2 ∧ n1 = n2.
Proof.
  unfold nextId. simpl. intros [-> Hn]%dash_suffix_inj; try apply pretty_no_dash.
  split; [done|]. apply (inj pretty) in Hn. lia.
Qed.

Lemma generate_all_ids config ds seq :
  Forall (λ i, ∃ p n, (seq < n)%N ∧ i = p +:+ "-" +:+ pretty n)
    (omap new_id (generate_all config ds seq)) ∧
  NoDup (omap new_id (generate_all config ds seq)).
Proof.
  revert seq. induction ds as [|d ds IH]; intros seq; simpl.
  - split; constructor.
  - destruct (IH (seq + 1)%N) as [Hall Hnd]. split.
    + constructor; [exists (side_string (side d)), (seq + 1)%N; split; [lia|done]|].
      eapply Forall_impl; [done|]. simpl. intros i (p & n & Hn & ->).
      exists p, n. split; [lia|done].
    + constructor; [|done]. intros Hin.
      rewrite Forall_forall in Hall. destruct (Hall _ Hin) as (p & n & Hn & Heq).
      apply dash_suffix_inj in Heq as [_ Heq]; try apply pretty_no_dash.
      apply (inj pretty) in Heq. lia.
Qed.
End ids.

(** X22.  [nextId] never returns the same id twice in a process: ids made
    from different values of the counter differ, whatever the prefixes, and
    the id determines both the prefix and the counter; the counter grows by
    one at each call.  Hence the orders built by successive runs of the
    generator's callback have pairwise distinct ids. *)
Theorem nextId_ids_distinct :
  (∀ p1 p2 n1 n2,
     (Generator.nextId p1 n1).1 = (Generator.nextId p2 n2).1 → p1 = p2 ∧ n1 = n2) ∧
  (∀ p n, (Generator.nextId p n).2 = (n + 1)%N) ∧
  (∀ config ds seq, NoDup (omap new_id (Generator.generate_all config ds seq))).
Proof.
  split_and!.
  - apply nextId_inj.
  - done.
  - intros. apply generate_all_ids.
Qed.

Lemma nextId_ids_distinct_witness :
  (Generator.nextId "BUY" 0).1 = "BUY-1" ∧
  (Generator.nextId "BUY" 0).1 ≠ (Generator.nextId "BUY" (Generator.nextId "BUY" 0).2).1.
Proof.
  split; [reflexivity|]. intros H.
  destruct (proj1 nextId_ids_distinct _ _ _ _ H) as [_ Hn]. discriminate Hn.
Defined.

(** * Recovery *)

(** Two order records that differ at most in [qty]. *)
Definition same_fields (a b : Order.t) : Prop :=
  b = OpenOrdersView.set_qty (Order.qty b) a.

Section objects.
Import MatchingEngine.
Implicit Types (st : MatchingEngine.t) (m : ProcessMode).

Lemma same_fields_refl a : same_fields a a.
Proof. by destruct a. Qed.

Lemma same_fields_trans a b c : same_fields a b → same_fields b c → same_fields a c.
Proof. unfold same_fields. intros -> ->. done. Qed.

Lemma same_fields_id a b : same_fields a b → Order.id b = Order.id a.
Proof. by intros ->. Qed.

Lemma run_objects_run k options es st :
  fst <$> run_objects k options es st = run k options es st.
Proof.
  revert st. induction es as [|e es IH]; intros st; [done|].
  simpl. unfold submit. destruct (load e st) as [ev st0].
  destruct (process k ev options st0) as [st1|]; [|done].
  rewrite <-IH. by destruct (run_objects k options es st1) as [[]|].
Qed.

Lemma orders_add σ b o : orders (OrderBook.add σ b o).1 = orders σ.
Proof. unfold OrderBook.add. by destruct (DoublyLinkedList.append _ _ _) as [[]]. Qed.

Lemma orders_cancel σ b i : orders (OrderBook.cancel σ b i).1 = orders σ.
Proof.
  unfold OrderBook.cancel. destruct (OrderBook.index b !! i); [|done].
  destruct (_ !! _); [|done]. by destruct (DoublyLinkedList.remove _ _ _).
Qed.

Lemma orders_book_add o st : orders (store (book_add o st)) = orders (store st).
Proof.
  unfold book_add. pose proof (orders_add (store st) (book st) o).
  by destruct (OrderBook.add _ _ _).
Qed.

Lemma orders_book_cancel i st : orders (store (book_cancel i st)) = orders (store st).
Proof.
  unfold book_cancel. pose proof (orders_cancel (store st) (book st) i).
  by destruct (OrderBook.cancel _ _ _).
Qed.

Lemma orders_settle o st : orders (store (settle o st)) = orders (store st).
Proof. unfold settle. destruct (_ =? 0); [apply orders_book_cancel|done]. Qed.

(** The engine never drops an order object and only ever writes its [qty]. *)
Definition keeps_fields (σ σ' : gmap positive Order.t) : Prop :=
  ∀ o ord, σ !! o = Some ord → ∃ ord', σ' !! o = Some ord' ∧ same_fields ord ord'.

Lemma keeps_fields_refl σ : keeps_fields σ σ.
Proof. intros o ord Ho. exists ord. split; [done|apply same_fields_refl]. Qed.

Lemma keeps_fields_trans σ1 σ2 σ3 :
  keeps_fields σ1 σ2 → keeps_fields σ2 σ3 → keeps_fields σ1 σ3.
Proof.
  intros H1 H2 o ord Ho. destruct (H1 _ _ Ho) as (ord' & Ho' & Hf).
  destruct (H2 _ _ Ho') as (ord'' & Ho'' & Hf'). exists ord''.
  split; [done|by eapply same_fields_trans].
Qed.

Lemma keeps_fields_alter q o σ : keeps_fields σ (alter (Order.sub_qty q) o σ).
Proof.
  intros o' ord Ho'. destruct (decide (o' = o)) as [->|Hne].
  - exists (Order.sub_qty q ord). by rewrite lookup_alter_eq, Ho'.
  - exists ord. rewrite lookup_alter_ne by done. split; [done|apply same_fields_refl].
Qed.

Lemma keeps_fields_match_body m st st' :
  match_body m st = Some st' → keeps_fields (orders (store st)) (orders (store st')).
Proof.
  intros (buy & sell & _ & _ & _ & ->)%match_body_unfold.
  rewrite !orders_settle, store_emit. simpl.
  eapply keeps_fields_trans; apply keeps_fields_alter.
Qed.

Lemma keeps_fields_match k m st st' :
  match_ k m st = Some st' → keeps_fields (orders (store st)) (orders (store st')).
Proof.
  revert st. induction k as [|k IH]; intros st; simpl; [done|].
  destruct (match_body m st) as [st1|] eqn:Hm.
  - intros ?%IH. eapply keeps_fields_trans; [|done]. by eapply keeps_fields_match_body.
  - intros [= <-]. apply keeps_fields_refl.
Qed.

Lemma keeps_fields_process k ev options st st' :
  process k ev options st = Some st' → keeps_fields (orders (store st)) (orders (store st')).
Proof.
  destruct ev as [o|i|]; simpl.
  - intros ?%keeps_fields_match. by rewrite orders_book_add, store_emit in *.
  - intros [= <-]. rewrite orders_book_cancel, store_emit. apply keeps_fields_refl.
  - intros [= <-]. apply keeps_fields_refl.
Qed.

(** An event object corresponds to a record: same kind and fields, the order
    read from the store differing from the record at most in [qty]. *)
Definition object_of (σ : Store) (e : Event Order.t) (ev : Event oref) : Prop :=
  match e, ev with
  | NEW_ORDER ord0, NEW_ORDER r =>
      ∃ ord, orders σ !! r = Some ord ∧ same_fields ord0 ord
  | CANCEL_ORDER i, CANCEL_ORDER j => i = j
  | TRADE b s q p, TRADE b' s' q' p' => b = b' ∧ s = s' ∧ q = q' ∧ p = p'
  | _, _ => False
  end.

Lemma object_of_keeps σ σ' e ev :
  keeps_fields (orders σ) (orders σ') → object_of σ e ev → object_of σ' e ev.
Proof.
  intros Hk. destruct e, ev; simpl; try done.
  intros (ord & Ho & Hf). destruct (Hk _ _ Ho) as (ord' & Ho' & Hf').
  exists ord'. split; [done|by eapply same_fields_trans].
Qed.

Lemma run_objects_spec k options es st st' objs :
  run_objects k options es st = Some (st', objs) →
  keeps_fields (orders (store st)) (orders (store st')) ∧
  Forall2 (object_of (store st')) es objs.
Proof.
  revert st objs. induction es as [|e es IH]; intros st objs; simpl.
  - intros [= <- <-]. split; [apply keeps_fields_refl|constructor].
  - destruct (load e st) as [ev st0] eqn:Hl.
    destruct (process k ev options st0) as [st1|] eqn:Hp; [|done].
    destruct (run_objects k options es st1) as [[st2 objs2]|] eqn:Hr; [|done].
    intros [= <- <-]. destruct (IH _ _ Hr) as [Hk2 Hall].
    pose proof (keeps_fields_process _ _ _ _ _ Hp) as Hk1.
    assert (keeps_fields (orders (store st)) (orders (store st0)) ∧
            object_of (store st0) e ev) as [Hk0 Hob].
    { destruct e as [ord|i|b s q p]; simpl in Hl; injection Hl as <- <-; simpl.
      - split.
        + intros o ord' Ho. exists ord'. split; [|apply same_fields_refl].
          rewrite lookup_insert_ne; [done|]. intros <-.
          pose proof (is_fresh (dom (orders (store st)))) as Hfr%not_elem_of_dom.
          congruence.
        + exists ord. rewrite lookup_insert_eq. split; [done|apply same_fields_refl].
      - split; [apply keeps_fields_refl|done].
      - split; [apply keeps_fields_refl|done]. }
    split.
    + eapply keeps_fields_trans; [done|]. by eapply keeps_fields_trans.
    + constructor; [|done]. eapply object_of_keeps; [|done].
      by eapply keeps_fields_trans.
Qed.
End objects.

(** No two order objects carry the same id. *)
Definition unique_ids (σ : gmap positive Order.t) : Prop :=
  ∀ o1 o2 a b, σ !! o1 = Some a → σ !! o2 = Some b → Order.id a = Order.id b → o1 = o2.

(** Every order object was logged, and has the logged fields except that its
    quantity may have gone down. *)
Definition objects_logged (st : MatchingEngine.t) : Prop :=
  ∀ o ord, orders (MatchingEngine.store st) !! o = Some ord →
    ∃ ord0, NEW_ORDER ord0 ∈ MatchingEngine.wal st ∧ same_fields ord0 ord ∧
            Order.qty ord ≤ Order.qty ord0.

Section ledger.
Import MatchingEngine.
Implicit Types (st : MatchingEngine.t) (m : ProcessMode).

Lemma alter_sub_qty_inv q x (σ : gmap positive Order.t) o ord' :
  alter (Order.sub_qty q) x σ !! o = Some ord' →
  ∃ ord, σ !! o = Some ord ∧ same_fields ord ord' ∧
         (0 ≤ q → Order.qty ord' ≤ Order.qty ord).
Proof.
  intros [(-> & y & Hy & ->)|[Hne Ho]]%lookup_alter_Some.
  - exists y. split_and!; [done|done|]. simpl. lia.
  - exists ord'. split_and!; [done|apply same_fields_refl|done].
Qed.

Lemma ledger_run k seen es st st' :
  run_inv seen st →
  unique_ids (orders (store st)) ∧ objects_logged st →
  Forall valid_input es →
  NoDup (seen ++ omap new_id es) →
  run k live_options es st = Some st' →
  unique_ids (orders (store st')) ∧ objects_logged st'.
Proof.
  apply (run_induction live
           (λ st, unique_ids (orders (store st)) ∧ objects_logged st)); [| | |done].
  - intros seen' ord st0 Hinv _ Hfresh [HU HK].
    destruct (accept_spec live _ _ _ Hinv Hfresh) as (Hr & _ & Ho & _ & _ & _ & Hw & _).
    destruct Hinv as (_ & _ & Hseen). split.
    + intros o1 o2 a b. rewrite Ho, !lookup_insert_Some.
      intros [[<- <-]|[Hn1 H1]] [[<- <-]|[Hn2 H2]] Hid; try done.
      * exfalso. apply Hfresh. rewrite Hid. by eapply Hseen.
      * exfalso. apply Hfresh. rewrite <-Hid. by eapply Hseen.
      * by eapply HU.
    + intros o ord'. rewrite Ho, Hw, lookup_insert_Some.
      intros [[<- <-]|[Hn1 H1]].
      * exists ord. split_and!; [|apply same_fields_refl|done].
        apply elem_of_app. right. by left.
      * destruct (HK _ _ H1) as (ord0 & Hin & Hf & Hq). exists ord0.
        split_and!; try done. apply elem_of_app. by left.
  - intros seen' i st0 Hinv [HU HK]. split.
    + by rewrite orders_book_cancel, store_emit.
    + intros o ord. rewrite orders_book_cancel, store_emit, wal_cancel, wal_emit.
      intros (ord0 & Hin & Hf & Hq)%HK. exists ord0.
      split_and!; try done. apply elem_of_app. by left.
  - intros seen' st0 st1 (Hwf & Hpos & _) [HU HK] Hm.
    destruct (match_body_spec _ _ _ Hwf Hm)
      as (buy & sell & ob & os & nb & ns & _ & _ & Hob & Hos & _ & _ & _ & _ & _ &
          Hib & His & Ho' & _ & _ & Hw' & _).
    cbv zeta in Ho', Hw'.
    pose proof (Hpos _ _ Hib) as Hqb. pose proof (Hpos _ _ His) as Hqs. simpl in Hqb, Hqs.
    rewrite (lookup_total_correct _ _ _ Hob) in Hqb.
    rewrite (lookup_total_correct _ _ _ Hos) in Hqs.
    assert (0 ≤ Z.min (Order.qty ob) (Order.qty os)) as Hq by lia.
    assert (∀ o ord', orders (store st1) !! o = Some ord' →
              ∃ ord, orders (store st0) !! o = Some ord ∧ same_fields ord ord' ∧
                     Order.qty ord' ≤ Order.qty ord) as Hinv'.
    { intros o ord'. rewrite Ho'.
      intros (x & (ord & Ho & Hf & Hle)%alter_sub_qty_inv & Hf' & Hle')%alter_sub_qty_inv.
      exists ord. split_and!; [done|by eapply same_fields_trans|]. 
      specialize (Hle Hq). specialize (Hle' Hq). lia. }
    split.
    + intros o1 o2 a b (a0 & H1 & Hf1 & _)%Hinv' (b0 & H2 & Hf2 & _)%Hinv' Hid.
      apply (HU _ _ _ _ H1 H2).
      by rewrite <-(same_fields_id _ _ Hf1), <-(same_fields_id _ _ Hf2).
    + intros o ord' (ord & Ho & Hf & Hle)%Hinv'.
      destruct (HK _ _ Ho) as (ord0 & Hin & Hf0 & Hq0). exists ord0. split_and!.
      * rewrite Hw'. apply elem_of_app. by left.
      * by eapply same_fields_trans.
      * lia.
Qed.
End ledger.

(** ** A view fed with order objects the engine has written to *)

(** [e'] is the record [e] read again later: the same event, the order's
    quantity possibly changed. *)
Definition reread (e e' : Event Order.t) : Prop :=
  match e, e' with
  | NEW_ORDER ord0, NEW_ORDER ord => same_fields ord0 ord
  | CANCEL_ORDER i, CANCEL_ORDER j => i = j
  | TRADE b s q p, TRADE b' s' q' p' => b = b' ∧ s = s' ∧ q = q' ∧ p = p'
  | _, _ => False
  end.

(** The entry [x'] is missing or has a smaller quantity than [x]. *)
Definition lower (x x' : option Order.t) : Prop :=
  match x with
  | None => x' = None
  | Some o => x' = None ∨ ∃ q', q' < Order.qty o ∧ x' = Some (OpenOrdersView.set_qty q' o)
  end.

Section reread.
Implicit Types (e : Event Order.t) (x : option Order.t) (i : string).

Lemma entry_step_reread_same i e e' x :
  reread e e' →
  (∀ ord0, e = NEW_ORDER ord0 → Order.id ord0 = i → e' = e) →
  entry_step i e' x = entry_step i e x.
Proof.
  destruct e as [ord0|j|b s q p], e' as [ord|j'|b' s' q' p']; simpl; try done.
  - intros Hf He. destruct (decide (i = Order.id ord)) as [->|Hne].
    + rewrite (same_fields_id _ _ Hf) in *. rewrite decide_True by done.
      by injection (He _ eq_refl eq_refl) as ->.
    + rewrite decide_False; [done|]. by rewrite <-(same_fields_id _ _ Hf).
  - by intros ->.
  - by intros (-> & -> & -> & ->).
Qed.

Lemma fill_lower q x x' : lower x x' → lower (fill q x) (fill q x').
Proof.
  destruct x as [o|]; simpl; [|by intros ->].
  intros [->|(q' & Hq' & ->)]; simpl.
  - by destruct (_ <=? 0); [|left].
  - destruct (Order.qty o - q <=? 0) eqn:E1.
    + apply Z.leb_le in E1. by rewrite (proj2 (Z.leb_le (q' - q) 0)) by lia.
    + destruct (q' - q <=? 0); [by left|]. right. exists (q' - q).
      split; [simpl; lia|done].
Qed.

Lemma entry_step_reread_lower i e e' x x' :
  reread e e' →
  (∀ ord0 ord, e = NEW_ORDER ord0 → e' = NEW_ORDER ord → Order.id ord0 = i →
               Order.qty ord < Order.qty ord0) →
  lower x x' → lower (entry_step i e x) (entry_step i e' x').
Proof.
  destruct e as [ord0|j|b s q p], e' as [ord|j'|b' s' q' p']; simpl; try done.
  - intros Hf He Hx. destruct (decide (i = Order.id ord0)) as [->|Hne].
    + rewrite decide_True by by rewrite (same_fields_id _ _ Hf).
      simpl. right. exists (Order.qty ord). split; [by apply He|by f_equal].
    + rewrite decide_False; [done|]. by rewrite (same_fields_id _ _ Hf).
  - intros -> _ Hx. destruct (decide (i = j')); [|done]. by destruct x.
  - intros (-> & -> & -> & ->) _ Hx.
    destruct (decide (i = b')), (decide (i = s')); auto using fill_lower.
Qed.

Lemma lower_ne o x' : lower (Some o) x' → x' ≠ Some o.
Proof.
  intros [->|(q' & Hq' & ->)]; [done|]. intros [= E].
  apply (f_equal Order.qty) in E. simpl in E. lia.
Qed.

Lemma entries_reread_same i (L L' : list (Event Order.t)) x :
  Forall2 (λ e e', reread e e' ∧
                   ∀ ord0, e = NEW_ORDER ord0 → Order.id ord0 = i → e' = e) L L' →
  foldl (λ x e, entry_step i e x) x L' = foldl (λ x e, entry_step i e x) x L.
Proof.
  intros H. revert x. induction H as [|e e' L L' [Hr He] _ IH]; intros x; [done|].
  simpl. rewrite IH. by rewrite (entry_step_reread_same i e e').
Qed.

Lemma entries_reread_lower i (L L' : list (Event Order.t)) x x' :
  Forall2 (λ e e', reread e e' ∧
                   ∀ ord0 ord, e = NEW_ORDER ord0 → e' = NEW_ORDER ord →
                               Order.id ord0 = i → Order.qty ord < Order.qty ord0) L L' →
  lower x x' →
  lower (foldl (λ x e, entry_step i e x) x L) (foldl (λ x e, entry_step i e x) x' L').
Proof.
  intros H. revert x x'. induction H as [|e e' L L' [Hr He] _ IH]; intros x x' Hx; [done|].
  simpl. apply IH. by apply entry_step_reread_lower.
Qed.

Lemma Forall2_fmap_elem {A B C} (P : A → B → Prop) (Q : A → C → Prop) (f : B → C)
    (l : list A) (k : list B) :
  Forall2 P l k → (∀ a b, a ∈ l → P a b → Q a (f b)) → Forall2 Q l (f <$> k).
Proof.
  induction 1 as [|a b l k Hab _ IH]; intros HPQ; simpl; constructor.
  - apply HPQ; [by left|done].
  - apply IH. intros a' b' Hin. apply HPQ. by right.
Qed.

Lemma new_id_unique (L : list (Event Order.t)) a b :
  NoDup (omap new_id L) →
  NEW_ORDER a ∈ L → NEW_ORDER b ∈ L → Order.id a = Order.id b → a = b.
Proof.
  induction L as [|e L IH]; [by intros _ ?%elem_of_nil|].
  assert (∀ c, NEW_ORDER c ∈ L → Order.id c ∈ omap new_id L) as Hin.
  { intros c Hc. apply list_elem_of_omap. by exists (NEW_ORDER c). }
  destruct e as [ord|j|]; simpl.
  - intros [Hn Hnd]%NoDup_cons [[= ->]|Ha]%elem_of_cons [[= ->]|Hb]%elem_of_cons Hid;
      [done| | |by apply IH].
    + exfalso. apply Hn. rewrite Hid. by apply Hin.
    + exfalso. apply Hn. rewrite <-Hid. by apply Hin.
  - intros Hnd [?|Ha]%elem_of_cons [?|Hb]%elem_of_cons; try done. by apply IH.
  - intros Hnd [?|Ha]%elem_of_cons [?|Hb]%elem_of_cons; try done. by apply IH.
Qed.

Lemma omap_new_id_commands (L : list (Event Order.t)) :
  omap new_id (filter (λ ev, is_trade ev = false) L) = omap new_id L.
Proof.
  induction L as [|e L IH]; [done|]. destruct e as [ord|j|].
  - rewrite filter_cons_True by done.
    transitivity (Order.id ord :: omap new_id (filter (λ ev, is_trade ev = false) L));
      [done|]. by rewrite IH.
  - rewrite filter_cons_True by done.
    transitivity (omap new_id (filter (λ ev, is_trade ev = false) L)); [done|].
    by rewrite IH.
  - rewrite filter_cons_False by done. done.
Qed.
End reread.

Section recovery.
Import MatchingEngine.
Implicit Types (st : MatchingEngine.t).

Lemma trades_of_objects σ (L : list (Event Order.t)) objs :
  Forall2 (object_of σ) L objs →
  filter (λ e, is_trade e = true) (serialize σ <$> objs) =
  filter (λ e, is_trade e = true) L.
Proof.
  induction 1 as [|e ev L objs He _ IH]; [done|]. rewrite fmap_cons.
  destruct e as [ord0|i|b s q p], ev as [r|j|b' s' q' p']; simpl in He; try done.
  destruct He as (-> & -> & -> & ->).
  change (serialize σ (TRADE b' s' q' p')) with (@TRADE Order.t b' s' q' p').
  rewrite !filter_cons_True by done. by rewrite IH.
Qed.

Lemma recovered_entry k es a b objs i r :
  valid_inputs es →
  run k live_options es (new [] []) = Some a →
  store b = store a →
  Forall2 (object_of (store b)) (wal a) objs →
  OrderBook.index (book a) !! i = Some r →
  OpenOrdersView.get i
    (OpenOrdersView.applyAll (serialize (store b) <$> objs) OpenOrdersView.new)
    = Some (get (OrderBook.order r) a)
  ↔ NEW_ORDER (get (OrderBook.order r) a) ∈ wal a.
Proof.
  intros [Hv Hnd] Hrun Hst Hobjs Hi.
  pose proof (run_inv_run _ _ _ _ _ _ (conj Hv Hnd) Hrun) as Hinv.
  destruct (ledger_run k [] es (new [] []) a (run_inv_new [] [])) as [HU HK];
    [split; [by intros ? ? ? ? ?|by intros ? ? ?]|done..|].
  pose proof (log_view_agrees_run k [] es _ a (run_inv_new [] []) view_agrees_new
                Hv Hnd Hrun i) as Hview.
  rewrite Hi in Hview. simpl in Hview.
  destruct (run_live_replay k es (new [] []) (new [] []) a (same_book_refl _) Hrun)
    as (_ & log & Hlog & _ & _ & _ & Hcmds).
  simpl in Hlog. subst log. specialize (Hcmds Hv).
  assert (NoDup (omap new_id (wal a))) as HndL.
  { by rewrite <-omap_new_id_commands, Hcmds. }
  destruct Hinv as (Hwf & _).
  destruct (wf_indexed _ _ Hwf _ _ Hi) as (_ & cur & _ & _ & Hcur & Hid & _).
  assert (get (OrderBook.order r) a = cur) as Hget by by apply lookup_total_correct.
  rewrite Hget in *.
  (* an object of [history] with this id is the order of the book *)
  assert (∀ ord0 rr, NEW_ORDER ord0 ∈ wal a → Order.id ord0 = i →
            object_of (store b) (NEW_ORDER ord0) (NEW_ORDER rr) →
            orders (store b) !!! rr = cur ∧ same_fields ord0 cur ∧
            Order.qty cur ≤ Order.qty ord0) as Hobj.
  { intros ord0 rr Hin Hid0 (ord & Hrr & Hf). rewrite Hst in *.
    assert (rr = OrderBook.order r) as ->.
    { apply (HU _ _ _ _ Hrr Hcur). by rewrite (same_fields_id _ _ Hf), Hid0, Hid. }
    assert (ord = cur) as -> by congruence.
    split_and!; [by apply lookup_total_correct|done|].
    destruct (HK _ _ Hcur) as (ord00 & Hin0 & Hf0 & Hq0).
    assert (ord00 = ord0) as ->; [|done].
    apply (new_id_unique (wal a)); [done..|].
    by rewrite <-(same_fields_id _ _ Hf0), Hid, Hid0. }
  unfold OpenOrdersView.get in *. fold (OpenOrdersView.get i) in *.
  rewrite get_applyAll. unfold log_view, WAL.replay in Hview. rewrite get_applyAll in Hview.
  change (OpenOrdersView.get i OpenOrdersView.new) with (@None Order.t) in *.
  split.
  - intros Hres. destruct (decide (NEW_ORDER cur ∈ wal a)) as [|Hnin]; [done|]. exfalso.
    assert (lower (Some cur)
              (foldl (λ x e, entry_step i e x) None (serialize (store b) <$> objs))) as Hlow.
    { rewrite <-Hview. apply entries_reread_lower; [|done].
      eapply Forall2_fmap_elem; [exact Hobjs|].
      intros e ev Hin Hob. split.
      - destruct e as [ord0|j|bb ss qq pp], ev as [rr|j'|bb' ss' qq' pp']; simpl in *;
          try done. destruct Hob as (ord & Hrr & Hf).
        by rewrite (lookup_total_correct _ _ _ Hrr).
      - intros ord0 ord -> Hev Hid0. destruct ev as [rr| |]; try done.
        simpl in Hev. injection Hev as <-.
        destruct (Hobj _ _ Hin Hid0 Hob) as (-> & Hf & Hle).
        destruct (decide (Order.qty cur = Order.qty ord0)) as [Heq|]; [|lia].
        exfalso. apply Hnin. rewrite Hf, Heq. by destruct ord0. }
    by apply lower_ne in Hlow.
  - intros Hin. rewrite <-Hview. apply entries_reread_same.
    eapply Forall2_fmap_elem; [exact Hobjs|].
    intros e ev Hin' Hob. split.
    + destruct e as [ord0|j|bb ss qq pp], ev as [rr|j'|bb' ss' qq' pp']; simpl in *;
        try done. destruct Hob as (ord & Hrr & Hf).
      by rewrite (lookup_total_correct _ _ _ Hrr).
    + intros ord0 -> Hid0. destruct ev as [rr| |]; try done.
      destruct (Hobj _ _ Hin' Hid0 Hob) as (Hrr & _ & _). simpl. rewrite Hrr.
      f_equal. apply (new_id_unique (wal a)); [done..|]. by rewrite Hid, Hid0.
Qed.
End recovery.

(** X23.  What [composeApp] rebuilds from the log of a crashed session.
    The log is the one written by a live engine that started on an empty log
    and processed valid commands.  The replay loop returns and the engine's
    store and book are those of the crashed engine, nothing is appended to
    the log or published; the trades view lists the TRADE records of the
    log.  The open orders view is bootstrapped from the event objects of
    [history], whose orders are the very objects the replay has put in the
    book and filled: for an order resting in the book, the view shows the
    order as the book has it exactly when the order never traded (its object
    still equals its NEW_ORDER record); a resting order that was partly
    filled is missing from the view or shown with a wrong quantity. *)
Theorem recovery_rebuilds_views (k : nat) (es : list (Event Order.t))
    (a : MatchingEngine.t) :
  valid_inputs es →
  run k live_options es (MatchingEngine.new [] []) = Some a →
  ∃ app,
    composeApp k (MatchingEngine.wal a) = Some app ∧
    MatchingEngine.store (engine app) = MatchingEngine.store a ∧
    MatchingEngine.book (engine app) = MatchingEngine.book a ∧
    MatchingEngine.wal (engine app) = MatchingEngine.wal a ∧
    MatchingEngine.eventBus (engine app) = [] ∧
    TradesView.list (tradesView (views app)) =
      filter (λ e, is_trade e = true) (MatchingEngine.wal a) ∧
    ∀ i r, OrderBook.index (MatchingEngine.book a) !! i = Some r →
      OpenOrdersView.get i (openOrdersView (views app))
        = Some (MatchingEngine.get (OrderBook.order r) a)
      ↔ NEW_ORDER (MatchingEngine.get (OrderBook.order r) a) ∈ MatchingEngine.wal a.
Proof.
  intros Hv Hrun.
  destruct (run_live_replay k es (MatchingEngine.new [] [])
              (MatchingEngine.new (MatchingEngine.wal a) []) a) as
    (b & log & Hlog & Hrep & [Hst Hbk] & Hio & _); [done|done|].
  simpl in Hlog. subst log.
  pose proof (run_objects_run k replay_options (MatchingEngine.wal a)
                (MatchingEngine.new (MatchingEngine.wal a) [])) as Hobj.
  rewrite Hrep in Hobj.
  destruct (run_objects k replay_options (MatchingEngine.wal a)
              (MatchingEngine.new (MatchingEngine.wal a) [])) as [[b' objs]|] eqn:Hro;
    [|done].
  simpl in Hobj. injection Hobj as ->.
  destruct (run_objects_spec _ _ _ _ _ _ Hro) as [_ Hall].
  injection Hio as Hw Hq _.
  eexists. split; [unfold composeApp, WAL.replay; fold replay_options; by rewrite Hro|].
  simpl.
  split_and!; try done.
  - unfold TradesView.list. rewrite TradesView_applyAll. simpl.
    by apply trades_of_objects.
  - intros i r Hi. by apply (recovered_entry k es).
Qed.

Lemma recovery_rebuilds_views_witness :
  ∃ app,
    composeApp 3 (MatchingEngine.wal session_end) = Some app ∧
    MatchingEngine.book (engine app) = MatchingEngine.book session_end ∧
    MatchingEngine.get 1%positive (engine app) = Order.mk "B1" BUY 100 6 1 None ∧
    OpenOrdersView.get "B1" (openOrdersView (views app)) =
      Some (Order.mk "B1" BUY 100 2 1 None) ∧
    OpenOrdersView.get "B2" (openOrdersView (views app)) =
      Some (Order.mk "B2" BUY 99 3 4 None).
Proof.
  destruct (recovery_rebuilds_views 3 session session_end session_valid session_run)
    as (app & Happ & _ & Hbook & _).
  exists app. split; [exact Happ|]. split; [exact Hbook|].
  revert Happ. vm_compute. intros [= <-]. repeat split.
Defined.

Section channel.
Import MatchingEngine.
Implicit Types (st : MatchingEngine.t).

(** In live mode the channel holds, record for record, the event objects of
    the log. *)
Lemma channel_objects_run k seen es st st' :
  run_inv seen st →
  Forall2 (object_of (store st)) (wal st) (eventBus st) →
  Forall valid_input es →
  NoDup (seen ++ omap new_id es) →
  run k live_options es st = Some st' →
  Forall2 (object_of (store st')) (wal st') (eventBus st').
Proof.
  apply (run_induction live
           (λ st, Forall2 (object_of (store st)) (wal st) (eventBus st))); [| | |done].
  - intros seen' ord st0 Hinv _ Hfresh HP.
    destruct (accept_spec live _ _ _ Hinv Hfresh) as (Hr & _ & Ho & _ & _ & _ & Hw & Hq).
    rewrite Hw, Hq. apply Forall2_app.
    + eapply Forall2_impl; [exact HP|]. intros e ev. apply object_of_keeps.
      rewrite Ho. intros o ord' Ho'. exists ord'. split; [|apply same_fields_refl].
      rewrite lookup_insert_ne; [done|]. intros <-. congruence.
    + constructor; [|constructor]. exists ord. rewrite Ho, lookup_insert_eq.
      split; [done|apply same_fields_refl].
  - intros seen' i st0 Hinv HP.
    assert (eventBus (book_cancel i (emit live (CANCEL_ORDER i) st0)) =
            eventBus st0 ++ [CANCEL_ORDER i]) as ->.
    { unfold book_cancel. by destruct (OrderBook.cancel _ _ _). }
    rewrite wal_cancel, wal_emit. apply Forall2_app.
    + eapply Forall2_impl; [exact HP|]. intros e ev. apply object_of_keeps.
      rewrite orders_book_cancel, store_emit. apply keeps_fields_refl.
    + by repeat constructor.
  - intros seen' st0 st1 (Hwf & _) HP Hm.
    destruct (match_body_spec _ _ _ Hwf Hm)
      as (buy & sell & ob & os & nb & ns & _ & _ & _ & _ & _ & _ & _ & _ & _ &
          _ & _ & _ & _ & _ & -> & -> & _).
    apply Forall2_app.
    + eapply Forall2_impl; [exact HP|]. intros e ev. apply object_of_keeps.
      by eapply keeps_fields_match_body.
    + by repeat constructor.
Qed.
End channel.

Lemma foldl_applyEvent_read σ (v : Views) (l : list (Event oref)) :
  foldl (λ v e, applyEvent (serialize σ e) v) v l =
  {| openOrdersView := OpenOrdersView.applyAll (serialize σ <$> l) (openOrdersView v);
     tradesView := TradesView.applyAll (serialize σ <$> l) (tradesView v) |}.
Proof. by rewrite <-applyEvent_foldl, foldl_fmap. Qed.

(** X24.  The live projection has the same flaw as the recovery.  On a fresh
    system (views bootstrapped from an empty history), let the engine
    process valid commands in live mode and let the projector then drain
    the whole channel, in any number of ticks of any positive batch size.
    The channel is empty afterwards and the trades view lists the log's
    trades; but the NEW_ORDER events on the channel hold the order objects of
    the book, so the open orders view shows a resting order as the book has
    it exactly when the order never traded. *)
Theorem projection_after_engine (k : nat) (es : list (Event Order.t))
    (a : MatchingEngine.t) (batchSize : Z) (n : nat) :
  valid_inputs es →
  run k live_options es (MatchingEngine.new [] []) = Some a →
  0 < batchSize →
  (length (MatchingEngine.eventBus a) ≤ n * Z.to_nat batchSize)%nat →
  let s := Nat.iter n (tick (MatchingEngine.store a) batchSize)
             (MatchingEngine.eventBus a, createViews []) in
  s.1 = [] ∧
  TradesView.list (tradesView s.2) =
    filter (λ e, is_trade e = true) (MatchingEngine.wal a) ∧
  ∀ i r, OrderBook.index (MatchingEngine.book a) !! i = Some r →
    OpenOrdersView.get i (openOrdersView s.2)
      = Some (MatchingEngine.get (OrderBook.order r) a)
    ↔ NEW_ORDER (MatchingEngine.get (OrderBook.order r) a) ∈ MatchingEngine.wal a.
Proof.
  intros Hv Hrun Hb Hn. cbv zeta.
  assert (Forall2 (object_of (MatchingEngine.store a)) (MatchingEngine.wal a)
            (MatchingEngine.eventBus a)) as Hall.
  { destruct Hv as [Hv Hnd].
    apply (channel_objects_run k [] es (MatchingEngine.new [] []) a); try done.
    apply run_inv_new. }
  assert (Nat.iter n (tick (MatchingEngine.store a) batchSize)
            (MatchingEngine.eventBus a, createViews []) =
          ([], createViews (serialize (MatchingEngine.store a) <$>
                              MatchingEngine.eventBus a))) as ->.
  { transitivity
      (@nil (Event oref),
       foldl (λ v e, applyEvent (serialize (MatchingEngine.store a) e) v) (createViews [])
         (MatchingEngine.eventBus a));
      [|f_equal; apply (foldl_applyEvent_read _ (createViews []))].
    generalize (createViews []). intros v.
    assert (∀ m q v, (length q ≤ m * Z.to_nat batchSize)%nat →
              Nat.iter m (tick (MatchingEngine.store a) batchSize) (q, v) =
              ([], foldl (λ v e, applyEvent (serialize (MatchingEngine.store a) e) v) v q))
      as Hiter; [|by apply Hiter].
    clear. intros m. induction m as [|m IH]; intros q v Hq.
    - destruct q; [done|simpl in Hq; lia].
    - rewrite Nat.iter_succ_r. unfold tick at 2. cbn [fst snd].
      destruct (drain_spec batchSize q) as [Hd Hr].
      destruct (EventBus.drain batchSize q) as [d r]. simpl in Hd, Hr. subst d r.
      rewrite IH by (rewrite length_drop; lia).
      by rewrite <-foldl_app, take_drop. }
  simpl. split_and!; [done| |].
  - unfold TradesView.list. rewrite TradesView_applyAll. simpl.
    by apply trades_of_objects.
  - intros i r Hi. by apply (recovered_entry k es).
Qed.

Lemma projection_after_engine_witness :
  (Nat.iter 6 (tick (MatchingEngine.store session_end) 1)
     (MatchingEngine.eventBus session_end, createViews [])).1 = [] ∧
  (OpenOrdersView.get "B1"
     (openOrdersView
        (Nat.iter 6 (tick (MatchingEngine.store session_end) 1)
           (MatchingEngine.eventBus session_end, createViews [])).2)
     = Some (MatchingEngine.get 1%positive session_end)
   ↔ NEW_ORDER (MatchingEngine.get 1%positive session_end) ∈ MatchingEngine.wal session_end).
Proof.
  destruct (projection_after_engine 3 session session_end 1 6 session_valid session_run
              ltac:(lia) ltac:(vm_compute; lia)) as (H1 & _ & H3).
  split; [exact H1|].
  exact (H3 "B1" (OrderBook.mkRef 1 1) eq_refl).
Defined.

(** ** Quantities are conserved *)

(** The quantity of the trades of a log that name the id [i]. *)
Definition filled (i : string) (L : list (Event Order.t)) : Z :=
  foldr (λ e acc,
           match e with
           | TRADE b s q _ =>
               (if decide (b = i) then q else 0) + (if decide (s = i) then q else 0) + acc
           | _ => acc
           end) 0 L.

(** Every order object holds its logged quantity less the quantity of the
    logged trades that name it. *)
Definition conserved (st : MatchingEngine.t) : Prop :=
  ∀ o ord, orders (MatchingEngine.store st) !! o = Some ord →
    ∃ ord0, NEW_ORDER ord0 ∈ MatchingEngine.wal st ∧ same_fields ord0 ord ∧
            Order.qty ord = Order.qty ord0 - filled (Order.id ord0) (MatchingEngine.wal st).

(** Only ids of order objects are named by trades. *)
Definition trades_known (st : MatchingEngine.t) : Prop :=
  ∀ i, filled i (MatchingEngine.wal st) ≠ 0 →
    ∃ o ord, orders (MatchingEngine.store st) !! o = Some ord ∧ Order.id ord = i.

Section conservation.
Import MatchingEngine.
Implicit Types (st : MatchingEngine.t).

Lemma filled_app i L1 L2 : filled i (L1 ++ L2) = filled i L1 + filled i L2.
Proof.
  induction L1 as [|e L1 IH]; simpl; [done|]. fold (filled i (L1 ++ L2)).
  fold (filled i L1). rewrite IH. destruct e; lia.
Qed.

Lemma conservation_run k seen es st st' :
  run_inv seen st →
  unique_ids (orders (store st)) ∧ conserved st ∧ trades_known st →
  Forall valid_input es →
  NoDup (seen ++ omap new_id es) →
  run k live_options es st = Some st' →
  unique_ids (orders (store st')) ∧ conserved st' ∧ trades_known st'.
Proof.
  apply (run_induction live
           (λ st, unique_ids (orders (store st)) ∧ conserved st ∧ trades_known st));
    [| | |done].
  - intros seen' ord st0 Hinv _ Hfresh (HU & HC & HT).
    destruct (accept_spec live _ _ _ Hinv Hfresh) as (Hr & _ & Ho & _ & _ & _ & Hw & _).
    destruct Hinv as (_ & _ & Hseen).
    assert (∀ i, filled i (wal (accept live ord st0)) = filled i (wal st0)) as Hfill.
    { intros i. rewrite Hw, filled_app. simpl. lia. }
    split_and!.
    + intros o1 o2 a b. rewrite Ho, !lookup_insert_Some.
      intros [[<- <-]|[Hn1 H1]] [[<- <-]|[Hn2 H2]] Hid; try done.
      * exfalso. apply Hfresh. rewrite Hid. by eapply Hseen.
      * exfalso. apply Hfresh. rewrite <-Hid. by eapply Hseen.
      * by eapply HU.
    + intros o ord'. rewrite Ho, lookup_insert_Some.
      intros [[<- <-]|[Hn1 H1]].
      * exists ord. split_and!; [|apply same_fields_refl|].
        { rewrite Hw. apply elem_of_app. right. by left. }
        rewrite Hfill.
        destruct (decide (filled (Order.id ord) (wal st0) = 0)) as [->|Hne]; [lia|].
        destruct (HT _ Hne) as (o' & ord' & Ho' & Hid). exfalso. apply Hfresh.
        rewrite <-Hid. by eapply Hseen.
      * destruct (HC _ _ H1) as (ord0 & Hin & Hf & Hq). exists ord0.
        rewrite Hfill. split_and!; try done. rewrite Hw. apply elem_of_app. by left.
    + intros i. rewrite Hfill. intros (o & ord' & Ho' & Hid)%HT.
      exists o, ord'. split; [|done]. rewrite Ho, lookup_insert_ne; [done|].
      intros <-. congruence.
  - intros seen' i st0 Hinv (HU & HC & HT).
    assert (∀ j, filled j (wal (book_cancel i (emit live (CANCEL_ORDER i) st0))) =
                 filled j (wal st0)) as Hfill.
    { intros j. rewrite wal_cancel, wal_emit, filled_app. simpl. lia. }
    split_and!.
    + by rewrite orders_book_cancel, store_emit.
    + intros o ord. rewrite orders_book_cancel, store_emit.
      intros (ord0 & Hin & Hf & Hq)%HC. exists ord0. rewrite Hfill.
      split_and!; try done. rewrite wal_cancel, wal_emit. apply elem_of_app. by left.
    + intros j. rewrite Hfill, orders_book_cancel, store_emit. apply HT.
  - intros seen' st0 st1 (Hwf & Hpos & _) (HU & HC & HT) Hm.
    destruct (match_body_spec _ _ _ Hwf Hm)
      as (buy & sell & ob & os & nb & ns & _ & _ & Hob & Hos & _ & _ & Hne & Hidne & _ &
          _ & _ & Ho' & _ & _ & Hw' & _).
    cbv zeta in Ho', Hw'. set (q := Z.min (Order.qty ob) (Order.qty os)) in *.
    assert (∀ i, filled i (wal st1) =
                 filled i (wal st0) + (if decide (Order.id ob = i) then q else 0)
                                    + (if decide (Order.id os = i) then q else 0)) as Hfill.
    { intros i. rewrite Hw', filled_app. simpl. lia. }
    assert (∀ o ord', orders (store st1) !! o = Some ord' →
              ∃ ord, orders (store st0) !! o = Some ord ∧ same_fields ord ord' ∧
                     Order.qty ord' = Order.qty ord
                       - (if decide (Order.id ob = Order.id ord) then q else 0)
                       - (if decide (Order.id os = Order.id ord) then q else 0)) as Hinv'.
    { intros o ord'. rewrite Ho'. destruct (decide (o = sell)) as [->|Hns].
      - rewrite lookup_alter_eq, lookup_alter_ne, Hos by done. intros [= <-].
        exists os. split_and!; [done|done|]. simpl.
        rewrite decide_False, decide_True by done. lia.
      - rewrite lookup_alter_ne by done. destruct (decide (o = buy)) as [->|Hnb].
        + rewrite lookup_alter_eq, Hob. intros [= <-].
          exists ob. split_and!; [done|done|]. simpl.
          rewrite decide_True, decide_False by done. lia.
        + rewrite lookup_alter_ne by done. intros Ho.
          exists ord'. split_and!; [done|apply same_fields_refl|].
          rewrite !decide_False; [lia| |].
          * intros E. apply Hns. symmetry. by apply (HU _ _ _ _ Hos Ho).
          * intros E. apply Hnb. symmetry. by apply (HU _ _ _ _ Hob Ho). }
    split_and!.
    + intros o1 o2 a b (a0 & H1 & Hf1 & _)%Hinv' (b0 & H2 & Hf2 & _)%Hinv' Hid.
      apply (HU _ _ _ _ H1 H2).
      by rewrite <-(same_fields_id _ _ Hf1), <-(same_fields_id _ _ Hf2).
    + intros o ord' (ord & Ho & Hf & Hq)%Hinv'.
      destruct (HC _ _ Ho) as (ord0 & Hin & Hf0 & Hq0). exists ord0. split_and!.
      * rewrite Hw'. apply elem_of_app. by left.
      * by eapply same_fields_trans.
      * rewrite Hfill, Hq, Hq0. rewrite (same_fields_id _ _ Hf0). lia.
    + intros i. rewrite Hfill. intros Hne0.
      assert (∃ o ord, orders (store st0) !! o = Some ord ∧ Order.id ord = i)
        as (o & ord & Ho & Hid).
      { destruct (decide (Order.id ob = i)) as [<-|]; [by eauto|].
        destruct (decide (Order.id os = i)) as [<-|]; [by eauto|].
        apply HT. lia. }
      destruct (keeps_fields_match_body _ _ _ Hm _ _ Ho) as (ord' & Ho1 & Hf).
      exists o, ord'. split; [done|]. by rewrite (same_fields_id _ _ Hf).
Qed.
End conservation.

Lemma nonneg_run k seen es st st' :
  run_inv seen st →
  (∀ o ord, orders (MatchingEngine.store st) !! o = Some ord → 0 ≤ Order.qty ord) →
  Forall valid_input es →
  NoDup (seen ++ omap new_id es) →
  run k live_options es st = Some st' →
  ∀ o ord, orders (MatchingEngine.store st') !! o = Some ord → 0 ≤ Order.qty ord.
Proof.
  apply (run_induction live
           (λ st, ∀ o ord, orders (MatchingEngine.store st) !! o = Some ord →
                           0 ≤ Order.qty ord)); [| | |done].
  - intros seen' ord st0 Hinv [_ Hq] Hfresh HN.
    destruct (accept_spec live _ _ _ Hinv Hfresh) as (_ & _ & Ho & _).
    intros o ord'. rewrite Ho, lookup_insert_Some.
    intros [[<- <-]|[_ H1]]; [lia|by eapply HN].
  - intros seen' i st0 Hinv HN o ord. rewrite orders_book_cancel, store_emit. apply HN.
  - intros seen' st0 st1 (Hwf & Hpos & _) HN Hm.
    destruct (match_body_spec _ _ _ Hwf Hm)
      as (buy & sell & ob & os & nb & ns & _ & _ & Hob & Hos & _ & _ & Hne & _ & _ &
          Hib & His & Ho' & _).
    cbv zeta in Ho'.
    pose proof (Hpos _ _ Hib) as Hqb. pose proof (Hpos _ _ His) as Hqs. simpl in Hqb, Hqs.
    rewrite (lookup_total_correct _ _ _ Hob) in Hqb.
    rewrite (lookup_total_correct _ _ _ Hos) in Hqs.
    intros o ord'. rewrite Ho'. destruct (decide (o = sell)) as [->|Hns].
    + rewrite lookup_alter_eq, lookup_alter_ne, Hos by done. intros [= <-]. simpl. lia.
    + rewrite lookup_alter_ne by done. destruct (decide (o = buy)) as [->|Hnb].
      * rewrite lookup_alter_eq, Hob. intros [= <-]. simpl. lia.
      * rewrite lookup_alter_ne by done. apply HN.
Qed.

(** X25.  Quantities are conserved and no order is overfilled.  After any
    run of valid commands in live mode on a fresh engine, every order object
    has a NEW_ORDER record in the log with the same id, side, price, time
    and symbol, and its quantity is the recorded quantity less the total
    quantity of the logged trades naming its id; this remainder is never
    negative, and it is positive for an order resting in the book. *)
Theorem quantities_conserved (k : nat) (es : list (Event Order.t)) (st : MatchingEngine.t) :
  valid_inputs es →
  run k live_options es (MatchingEngine.new [] []) = Some st →
  (∀ o ord, orders (MatchingEngine.store st) !! o = Some ord →
     ∃ ord0, NEW_ORDER ord0 ∈ MatchingEngine.wal st ∧ same_fields ord0 ord ∧
             Order.qty ord = Order.qty ord0 - filled (Order.id ord0) (MatchingEngine.wal st) ∧
             filled (Order.id ord0) (MatchingEngine.wal st) ≤ Order.qty ord0) ∧
  (∀ i r, OrderBook.index (MatchingEngine.book st) !! i = Some r →
     ∃ ord0, NEW_ORDER ord0 ∈ MatchingEngine.wal st ∧ Order.id ord0 = i ∧
             filled i (MatchingEngine.wal st) < Order.qty ord0 ∧
             Order.qty (MatchingEngine.get (OrderBook.order r) st) =
               Order.qty ord0 - filled i (MatchingEngine.wal st)).
Proof.
  intros [Hv Hnd] Hrun.
  pose proof (run_inv_run _ _ _ _ _ _ (conj Hv Hnd) Hrun) as (Hwf & Hpos & _).
  destruct (conservation_run k [] es (MatchingEngine.new [] []) st (run_inv_new [] []))
    as (_ & HC & _); [|done..|].
  { split_and!; [by intros ? ? ? ? ?|by intros ? ? ?|by intros ? ?]. }
  pose proof (nonneg_run k [] es (MatchingEngine.new [] []) st (run_inv_new [] [])
                ltac:(by intros ? ? ?) Hv Hnd Hrun) as HN.
  split.
  - intros o ord Ho. destruct (HC _ _ Ho) as (ord0 & Hin & Hf & Hq).
    exists ord0. split_and!; try done. specialize (HN _ _ Ho). lia.
  - intros i r Hi.
    destruct (wf_indexed _ _ Hwf _ _ Hi) as (_ & cur & _ & _ & Hcur & Hid & _).
    destruct (HC _ _ Hcur) as (ord0 & Hin & Hf & Hq).
    pose proof (Hpos _ _ Hi) as Hq0. unfold MatchingEngine.get.
    rewrite (lookup_total_correct _ _ _ Hcur) in *.
    assert (Order.id ord0 = i) as Hid0 by by rewrite <-(same_fields_id _ _ Hf).
    exists ord0. rewrite Hid0 in *. split_and!; try done; lia.
Qed.

Lemma quantities_conserved_witness :
  ∃ ord0, NEW_ORDER ord0 ∈ MatchingEngine.wal session_end ∧
          same_fields ord0 (Order.mk "B1" BUY 100 6 1 None) ∧
          6 = Order.qty ord0 - filled (Order.id ord0) (MatchingEngine.wal session_end) ∧
          filled (Order.id ord0) (MatchingEngine.wal session_end) ≤ Order.qty ord0.
Proof.
  exact (proj1 (quantities_conserved 3 session session_end session_valid session_run)
    1%positive (Order.mk "B1" BUY 100 6 1 None) eq_refl).
Defined.
